(** * Versioned in-memory catalog (infoschema v2)

    A shallow embedding of [pkg/infoschema/infoschema_v2.go]: the catalog
    store [Data] with its ordered indices, the snapshot lookups and the part
    of the diff applier that touches the store, followed by the properties
    proved about them. *)

From Stdlib Require Import ZArith List Bool Lia String Ascii Sorted.
From Stdlib Require Import OrderedTypeEx.
Import ListNotations.

Local Open Scope Z_scope.

(** ** Machine integers

    [int64] and [uint64] values are integers of [Z]; the one addition the
    code performs on an [int64] ([schemaVersion+1]) wraps around. *)

Definition MaxInt64 : Z := 9223372036854775807.

Definition wrapInt64 (z : Z) : Z := (z + 2 ^ 63) mod 2 ^ 64 - 2 ^ 63.

(** ** The [model] package

    Only the fields the catalog reads are kept.  [Partition] stands for the
    result of [GetPartitionInfo()]: [None] is the nil pointer, [Some defs]
    carries [pi.Definitions]. *)

Module model.

Record CIStr := { O : string; L : string }.

Inductive SchemaState := StateNone | StateDeleteOnly | StateWriteOnly
                       | StateWriteReorganization | StateDeleteReorganization
                       | StatePublic.

Record PartitionDefinition := {
  pdID : Z;
  pdPlacementPolicyRef : bool   (* [def.PlacementPolicyRef != nil] *)
}.

Record TableInfo := {
  ID : Z;
  Name : CIStr;
  DBID : Z;
  State : SchemaState;
  TTLInfo : bool;               (* [t.TTLInfo != nil] *)
  TiFlashReplica : bool;        (* [t.TiFlashReplica != nil] *)
  PlacementPolicyRef : bool;    (* [t.PlacementPolicyRef != nil] *)
  Partition : option (list PartitionDefinition)
}.

Record DBInfo := {
  dbiID : Z;
  dbiName : CIStr;
  dbiTables : list TableInfo
}.

Definition GetPartitionInfo (t : TableInfo) : option (list PartitionDefinition) :=
  Partition t.

End model.

(** A table handle ([table.Table]); the catalog only ever asks it for its
    descriptor, [Meta()]. *)
Record Table := { Meta : model.TableInfo }.

(** ** Ordered index

    [btree.BTreeG[T]] is kept as its comparator together with its items in
    ascending order. *)

Record BTreeG (T : Type) := {
  less : T -> T -> bool;
  items : list T
}.
Arguments less {T} _ _ _.
Arguments items {T} _.

Definition NewBTreeG {T : Type} (lessFn : T -> T -> bool) : BTreeG T :=
  {| less := lessFn; items := [] |}.

Section OrderedIndex.
Context {T : Type}.

(** [Set]: insert, or replace the item that is neither smaller nor greater. *)
Fixpoint setItems (lessFn : T -> T -> bool) (x : T) (l : list T) : list T :=
  match l with
  | [] => [x]
  | y :: l' =>
      if lessFn x y then x :: y :: l'
      else if lessFn y x then y :: setItems lessFn x l'
      else x :: l'
  end.

Definition btSet (bt : BTreeG T) (x : T) : BTreeG T :=
  {| less := less bt; items := setItems (less bt) x (items bt) |}.

(** The items a descending walk from [pivot] meets, in the order it meets
    them: those not greater than [pivot], greatest first. *)
Definition descendFrom (bt : BTreeG T) (pivot : T) : list T :=
  rev (filter (fun y => negb (less bt pivot y)) (items bt)).

(** The items of a full reverse traversal. *)
Definition reverseItems (bt : BTreeG T) : list T := rev (items bt).

(** Running a visitor over the items of a walk.  The visitor's captured
    variables are the state [S]; it answers [true] to continue. *)
Fixpoint walk {S : Type} (iter : S -> T -> S * bool) (s : S) (l : list T) : S :=
  match l with
  | [] => s
  | x :: l' =>
      let (s', continue) := iter s x in
      if continue then walk iter s' l' else s'
  end.

Definition Descend {S : Type} (bt : BTreeG T) (pivot : T)
           (iter : S -> T -> S * bool) (s : S) : S :=
  walk iter s (descendFrom bt pivot).

Definition Reverse {S : Type} (bt : BTreeG T)
           (iter : S -> T -> S * bool) (s : S) : S :=
  walk iter s (reverseItems bt).

End OrderedIndex.

(** ** Index entries *)

Record tableItem := {
  dbName : string;
  dbID : Z;
  tableName : string;
  tableID : Z;
  schemaVersion : Z;
  tomb : bool
}.

Record schemaItem := {
  si_schemaVersion : Z;
  si_dbInfo : model.DBInfo;
  si_tomb : bool
}.

Record schemaIDName := {
  sn_schemaVersion : Z;
  sn_id : Z;
  sn_name : string;
  sn_tomb : bool
}.

Definition si_Name (si : schemaItem) : string :=
  model.L (model.dbiName (si_dbInfo si)).

Record versionAndTimestamp := {
  vt_schemaVersion : Z;
  timestamp : Z
}.

Record tableInfoItem := {
  tii_dbName : string;
  tii_tableID : Z;
  tii_schemaVersion : Z;
  tii_tableInfo : option model.TableInfo;
  tii_tomb : bool
}.

Record partitionItem := {
  partitionID : Z;
  pi_schemaVersion : Z;
  pi_tableID : Z;
  pi_tomb : bool
}.

Record tableCacheKey := {
  tck_tableID : Z;
  tck_schemaVersion : Z
}.

(** ** Comparators *)

Definition compareByID (a b : tableItem) : bool :=
  if tableID a <? tableID b then true
  else if tableID a >? tableID b then false
  else schemaVersion a <? schemaVersion b.

Definition compareByName (a b : tableItem) : bool :=
  if String.ltb (dbName a) (dbName b) then true
  else if String.ltb (dbName b) (dbName a) then false
  else if String.ltb (tableName a) (tableName b) then true
  else if String.ltb (tableName b) (tableName a) then false
  else schemaVersion a <? schemaVersion b.

Definition compareTableInfoItem (a b : tableInfoItem) : bool :=
  if String.ltb (tii_dbName a) (tii_dbName b) then true
  else if String.ltb (tii_dbName b) (tii_dbName a) then false
  else if tii_tableID a <? tii_tableID b then true
  else if tii_tableID a >? tii_tableID b then false
  else tii_schemaVersion a <? tii_schemaVersion b.

Definition comparePartitionItem (a b : partitionItem) : bool :=
  if partitionID a <? partitionID b then true
  else if partitionID a >? partitionID b then false
  else pi_schemaVersion a <? pi_schemaVersion b.

Definition compareSchemaItem (a b : schemaItem) : bool :=
  if String.ltb (si_Name a) (si_Name b) then true
  else if String.ltb (si_Name b) (si_Name a) then false
  else si_schemaVersion a <? si_schemaVersion b.

Definition compareSchemaByID (a b : schemaIDName) : bool :=
  if sn_id a <? sn_id b then true
  else if sn_id a >? sn_id b then false
  else sn_schemaVersion a <? sn_schemaVersion b.

(** ** The version-timestamp log *)

(** The body of the [for i, vt := range] loop of [getVersionByTSNoLock];
    [prev] is [versionTimestamps[i-1]], absent when [i == 0]. *)
Fixpoint getVersionByTSLoop (ts : Z) (prev : option versionAndTimestamp)
         (l : list versionAndTimestamp) : Z * bool :=
  match l with
  | [] => (0, false)
  | vt :: l' =>
      if (timestamp vt =? 0) || (ts <? timestamp vt) then
        getVersionByTSLoop ts (Some vt) l'
      else
        match prev with
        | None => (vt_schemaVersion vt, true)
        | Some p =>
            if (vt_schemaVersion p =? wrapInt64 (vt_schemaVersion vt + 1))
               && (timestamp p >? ts)
            then (vt_schemaVersion vt, true)
            else (0, false)
        end
  end.

Definition getVersionByTSNoLock (versionTimestamps : list versionAndTimestamp)
           (ts : Z) : Z * bool :=
  getVersionByTSLoop ts None versionTimestamps.

(** ** The generalised versioned lookup *)

(** The zero value of [tableItem] ([var target tableItem]). *)
Definition zeroTableItem : tableItem :=
  {| dbName := EmptyString; dbID := 0; tableName := EmptyString; tableID := 0;
     schemaVersion := 0; tomb := false |}.

(** The visitor of [search]; its state is the pair [(ok, target)]. *)
Definition searchIter (ver : Z) (end_ : tableItem)
           (matchFn : tableItem -> tableItem -> bool)
           (st : bool * tableItem) (item : tableItem) : (bool * tableItem) * bool :=
  let (ok, target) := st in
  if negb (matchFn end_ item) then (st, false)
  else if schemaVersion item >? ver then (st, true)
  else if negb ok then ((true, item), true)
  else if schemaVersion item >? schemaVersion target then ((ok, item), true)
  else (st, true).

Definition search (bt : BTreeG tableItem) (ver : Z) (end_ : tableItem)
           (matchFn : tableItem -> tableItem -> bool) : tableItem * bool :=
  let (ok, target) :=
    Descend bt end_ (searchIter ver end_ matchFn) (false, zeroTableItem) in
  if ok && tomb target then (target, false) else (target, ok).

(** ** Eviction cache *)

Definition tableCacheKey_eqb (a b : tableCacheKey) : bool :=
  (tck_tableID a =? tck_tableID b) && (tck_schemaVersion a =? tck_schemaVersion b).

(** Modelled from the spec: an entry of the cache [Sieve], whose source is
    not part of this file: a key, the handle stored under it and the visited
    bit that [Get] sets. *)
Record sieveEntry := {
  se_key : tableCacheKey;
  se_value : Table;
  se_visited : bool
}.

(** Modelled from the spec: the cache [Sieve], a mapping from
    [(tableID, schemaVersion)] to a handle with a capacity in bytes; the
    entries are kept in insertion order. *)
Record Sieve := {
  capacity : Z;
  entries : list sieveEntry
}.

(** Modelled from the spec: [newSieve], an empty cache of the given
    capacity. *)
Definition newSieve (cap : Z) : Sieve := {| capacity := cap; entries := [] |}.

Fixpoint lookupEntry (k : tableCacheKey) (l : list sieveEntry) : option Table :=
  match l with
  | [] => None
  | e :: l' => if tableCacheKey_eqb (se_key e) k then Some (se_value e)
               else lookupEntry k l'
  end.

Definition markVisited (k : tableCacheKey) (e : sieveEntry) : sieveEntry :=
  if tableCacheKey_eqb (se_key e) k
  then {| se_key := se_key e; se_value := se_value e; se_visited := true |}
  else e.

(** Modelled from the spec: [Sieve.Get] returns the current value and sets
    its visited bit, or misses. *)
Definition sieveGet (c : Sieve) (k : tableCacheKey) : option Table * Sieve :=
  match lookupEntry k (entries c) with
  | Some v => (Some v, {| capacity := capacity c;
                          entries := map (markVisited k) (entries c) |})
  | None => (None, c)
  end.

(** The insert-or-replace step of [Sieve.Set], before any eviction. *)
Fixpoint putEntry (k : tableCacheKey) (v : Table) (l : list sieveEntry)
  : list sieveEntry :=
  match l with
  | [] => [{| se_key := k; se_value := v; se_visited := false |}]
  | e :: l' =>
      if tableCacheKey_eqb (se_key e) k
      then {| se_key := k; se_value := v; se_visited := se_visited e |} :: l'
      else e :: putEntry k v l'
  end.

(** Modelled from the spec: [Sieve.Remove] deletes the entry of the key
    unconditionally. *)
Definition sieveRemove (c : Sieve) (k : tableCacheKey) : Sieve :=
  {| capacity := capacity c;
     entries := filter (fun e => negb (tableCacheKey_eqb (se_key e) k)) (entries c) |}.

(** What a lookup would find, without touching the visited bits. *)
Definition cached (c : Sieve) (k : tableCacheKey) : option Table :=
  lookupEntry k (entries c).

(** ** The catalog store *)

Record schemaTables := {
  st_dbInfo : model.DBInfo;
  st_tables : list (string * Table)      (* [map[string]table.Table] *)
}.

Record Data := {
  byName : BTreeG tableItem;
  byID : BTreeG tableItem;
  schemaMap : BTreeG schemaItem;
  schemaID2Name : BTreeG schemaIDName;
  tableCache : Sieve;
  versionTimestamps : list versionAndTimestamp;   (* [mu.versionTimestamps] *)
  specials : list (string * schemaTables);        (* [sync.Map] *)
  pid2tid : BTreeG partitionItem;
  tableInfoResident : BTreeG tableInfoItem
}.

Definition getVersionByTS (isd : Data) (ts : Z) : Z * bool :=
  getVersionByTSNoLock (versionTimestamps isd) ts.

(** ** Errors, effects and results *)

Inductive error :=
| ErrTableNotExists
| ErrDatabaseNotExists
| ErrDatabaseExists
| ErrExternal.           (* an error handed back by a collaborator *)

(** A reply of the metadata store to one read. *)
Inductive kvReply (A : Type) :=
| KvValue (a : A)
| KvFlashback            (* error text contains "in flashback progress" *)
| KvFailure.             (* any other error *)
Arguments KvValue {A} _.
Arguments KvFlashback {A}.
Arguments KvFailure {A}.

(** Calls made on the collaborators of a lookup, in the order they happen. *)
Inductive event :=
| EvCacheGet (k : tableCacheKey)
| EvCacheSet (k : tableCacheKey)
| EvSearchByID (id : Z)
| EvSearchByName (db tbl : string)
| EvLoadTable (tblID dbID ts ver : Z)
| EvDeleteReferredForeignKeys (db : model.CIStr) (tblID : Z).

Inductive outcome (S A : Type) :=
| Returned (a : A) (s : S) (tr : list event)
| Panicked
| OutOfFuel.
Arguments Returned {S A} _ _ _.
Arguments Panicked {S A}.
Arguments OutOfFuel {S A}.

(** State (the shared [*Data]), a log of events and the two ways of not
    returning. *)
Definition M (A : Type) : Type := Data -> outcome Data A.

Definition ret {A : Type} (a : A) : M A := fun d => Returned a d [].

Definition bind {A B : Type} (m : M A) (k : A -> M B) : M B :=
  fun d =>
    match m d with
    | Returned a d' tr =>
        match k a d' with
        | Returned b d'' tr' => Returned b d'' (tr ++ tr')
        | Panicked => Panicked
        | OutOfFuel => OutOfFuel
        end
    | Panicked => Panicked
    | OutOfFuel => OutOfFuel
    end.

Definition gets {A : Type} (f : Data -> A) : M A := fun d => Returned (f d) d [].

Declare Scope m_scope.
Delimit Scope m_scope with m.
Notation "x <- m ;; k" := (bind m (fun x => k))
  (at level 61, m at next level, right associativity) : m_scope.
Notation "m ;;; k" := (bind m (fun _ => k))
  (at level 61, right associativity) : m_scope.

(** ** Collaborators outside this file *)

Record SchemaDiff := {
  sd_Version : Z;
  sd_SchemaID : Z
}.

Record infoschemaV2 := {
  schemaMetaVersion : Z;      (* [is.infoSchema.schemaMetaVersion] *)
  is_ts : Z
}.

Record Builder := {
  b_infoschemaV2 : infoschemaV2;
  infoData : Data;                          (* also [b.infoschemaV2.Data] *)
  temporaryTableIDs : option (list Z)       (* [map[int64]struct{}], or nil *)
}.

Record Env := {
  tableIDIsValid : Z -> bool;
  SystemSchemaIDFlag : Z;                   (* [autoid.SystemSchemaIDFlag] *)
  InformationSchemaName : string;           (* [util.InformationSchemaName.L] *)
  PerformanceSchemaName : string;
  MetricSchemaName : string;
  ToLower : string -> string;               (* [strings.ToLower] *)
  sieveEvict : Sieve -> Sieve;              (* the cache's replacement policy *)
  (* [m.GetTable(dbID, tblID)] on a snapshot at [ts], at the n-th attempt *)
  GetTable : Z -> Z -> Z -> nat -> kvReply (option model.TableInfo);
  (* [tables.TableFromMeta] over the allocators built for the descriptor *)
  TableFromMeta : Z -> model.TableInfo -> option Table;
  (* [m.GetDatabase(id)] *)
  GetDatabase : Z -> (option model.DBInfo) + error;
  (* [b.applyCreateTables(m, diff)] *)
  applyCreateTables : Builder -> SchemaDiff -> outcome Builder (list Z + error)
}.

Section Catalog.
Variable env : Env.

Local Open Scope m_scope.

(** Modelled from the spec: [Sieve.Set] inserts or replaces, then evicts
    until the entries fit the capacity; which entries go is left to the
    replacement policy [sieveEvict]. *)
Definition sieveSet (c : Sieve) (k : tableCacheKey) (v : Table) : Sieve :=
  sieveEvict env {| capacity := capacity c; entries := putEntry k v (entries c) |}.

(** *** Attribute filters *)

Definition specialAttributeFilter := model.TableInfo -> bool.

Definition isStatePublic (s : model.SchemaState) : bool :=
  match s with model.StatePublic => true | _ => false end.

Definition TTLAttribute : specialAttributeFilter :=
  fun t => isStatePublic (model.State t) && model.TTLInfo t.

Definition TiFlashAttribute : specialAttributeFilter :=
  fun t => model.TiFlashReplica t.

Definition PlacementPolicyAttribute : specialAttributeFilter :=
  fun t =>
    if model.PlacementPolicyRef t then true
    else match model.GetPartitionInfo t with
         | Some defs => existsb model.pdPlacementPolicyRef defs
         | None => false
         end.

Definition PartitionAttribute : specialAttributeFilter :=
  fun t => match model.GetPartitionInfo t with Some _ => true | None => false end.

Definition hasSpecialAttributes (t : model.TableInfo) : bool :=
  TTLAttribute t || TiFlashAttribute t || PlacementPolicyAttribute t
  || PartitionAttribute t.

Definition AllSpecialAttribute : specialAttributeFilter := hasSpecialAttributes.

(** *** Mutation primitives *)

Definition NewData : Data :=
  {| byName := NewBTreeG compareByName;
     byID := NewBTreeG compareByID;
     schemaMap := NewBTreeG compareSchemaItem;
     schemaID2Name := NewBTreeG compareSchemaByID;
     tableCache := newSieve (1024 * 1024 * 1048576);
     versionTimestamps := [];
     specials := [];
     pid2tid := NewBTreeG comparePartitionItem;
     tableInfoResident := NewBTreeG compareTableInfoItem |}.

Definition add (isd : Data) (item : tableItem) (tbl : Table) : Data :=
  let ti := Meta tbl in
  let pid2tid' :=
    match model.GetPartitionInfo ti with
    | Some defs =>
        fold_left (fun bt def =>
                     btSet bt {| partitionID := model.pdID def;
                                 pi_schemaVersion := schemaVersion item;
                                 pi_tableID := model.ID (Meta tbl);
                                 pi_tomb := false |})
                  defs (pid2tid isd)
    | None => pid2tid isd
    end in
  let resident' :=
    if hasSpecialAttributes ti then
      btSet (tableInfoResident isd)
            {| tii_dbName := dbName item;
               tii_tableID := tableID item;
               tii_schemaVersion := schemaVersion item;
               tii_tableInfo := Some ti;
               tii_tomb := false |}
    else tableInfoResident isd in
  {| byName := btSet (byName isd) item;
     byID := btSet (byID isd) item;
     schemaMap := schemaMap isd;
     schemaID2Name := schemaID2Name isd;
     tableCache := sieveSet (tableCache isd)
                     {| tck_tableID := tableID item;
                        tck_schemaVersion := schemaVersion item |} tbl;
     versionTimestamps := versionTimestamps isd;
     specials := specials isd;
     pid2tid := pid2tid';
     tableInfoResident := resident' |}.

Definition asTomb (item : tableItem) : tableItem :=
  {| dbName := dbName item; dbID := dbID item; tableName := tableName item;
     tableID := tableID item; schemaVersion := schemaVersion item;
     tomb := true |}.

Definition remove (isd : Data) (item : tableItem) : Data :=
  let item := asTomb item in
  {| byName := btSet (byName isd) item;
     byID := btSet (byID isd) item;
     schemaMap := schemaMap isd;
     schemaID2Name := schemaID2Name isd;
     tableCache := sieveRemove (tableCache isd)
                     {| tck_tableID := tableID item;
                        tck_schemaVersion := schemaVersion item |};
     versionTimestamps := versionTimestamps isd;
     specials := specials isd;
     pid2tid := pid2tid isd;
     tableInfoResident :=
       btSet (tableInfoResident isd)
             {| tii_dbName := dbName item;
                tii_tableID := tableID item;
                tii_schemaVersion := schemaVersion item;
                tii_tableInfo := None;
                tii_tomb := true |} |}.

Definition clearTables (dbInfo : model.DBInfo) : model.DBInfo :=
  {| model.dbiID := model.dbiID dbInfo;
     model.dbiName := model.dbiName dbInfo;
     model.dbiTables := [] |}.

Definition addDB (isd : Data) (ver : Z) (dbInfo : model.DBInfo) : Data :=
  let dbInfo := clearTables dbInfo in
  {| byName := byName isd;
     byID := byID isd;
     schemaMap := btSet (schemaMap isd)
                    {| si_schemaVersion := ver; si_dbInfo := dbInfo;
                       si_tomb := false |};
     schemaID2Name := btSet (schemaID2Name isd)
                        {| sn_schemaVersion := ver;
                           sn_id := model.dbiID dbInfo;
                           sn_name := model.O (model.dbiName dbInfo);
                           sn_tomb := false |};
     tableCache := tableCache isd;
     versionTimestamps := versionTimestamps isd;
     specials := specials isd;
     pid2tid := pid2tid isd;
     tableInfoResident := tableInfoResident isd |}.

Definition deleteDB (isd : Data) (dbInfo : model.DBInfo) (ver : Z) : Data :=
  {| byName := byName isd;
     byID := byID isd;
     schemaMap := btSet (schemaMap isd)
                    {| si_schemaVersion := ver; si_dbInfo := dbInfo;
                       si_tomb := true |};
     schemaID2Name := btSet (schemaID2Name isd)
                        {| sn_schemaVersion := ver;
                           sn_id := model.dbiID dbInfo;
                           sn_name := model.O (model.dbiName dbInfo);
                           sn_tomb := true |};
     tableCache := tableCache isd;
     versionTimestamps := versionTimestamps isd;
     specials := specials isd;
     pid2tid := pid2tid isd;
     tableInfoResident := tableInfoResident isd |}.

(** Writes of one field of the store, as the lookups and the applier make
    them. *)
Definition withTableCache (isd : Data) (c : Sieve) : Data :=
  {| byName := byName isd; byID := byID isd; schemaMap := schemaMap isd;
     schemaID2Name := schemaID2Name isd; tableCache := c;
     versionTimestamps := versionTimestamps isd; specials := specials isd;
     pid2tid := pid2tid isd; tableInfoResident := tableInfoResident isd |}.

Definition withPid2tid (isd : Data) (bt : BTreeG partitionItem) : Data :=
  {| byName := byName isd; byID := byID isd; schemaMap := schemaMap isd;
     schemaID2Name := schemaID2Name isd; tableCache := tableCache isd;
     versionTimestamps := versionTimestamps isd; specials := specials isd;
     pid2tid := bt; tableInfoResident := tableInfoResident isd |}.

(** *** The special-DB registry *)

Fixpoint specialsLoad (l : list (string * schemaTables)) (name : string)
  : option schemaTables :=
  match l with
  | [] => None
  | (k, v) :: l' => if String.eqb k name then Some v else specialsLoad l' name
  end.

Definition addSpecialDB (isd : Data) (di : model.DBInfo) (tables : schemaTables)
  : Data :=
  let name := model.L (model.dbiName di) in
  match specialsLoad (specials isd) name with
  | Some _ => isd
  | None =>
      {| byName := byName isd; byID := byID isd; schemaMap := schemaMap isd;
         schemaID2Name := schemaID2Name isd; tableCache := tableCache isd;
         versionTimestamps := versionTimestamps isd;
         specials := specials isd ++ [(name, tables)];
         pid2tid := pid2tid isd;
         tableInfoResident := tableInfoResident isd |}
  end.

Fixpoint tablesLookup (l : list (string * Table)) (name : string) : option Table :=
  match l with
  | [] => None
  | (k, v) :: l' => if String.eqb k name then Some v else tablesLookup l' name
  end.

Definition IsSpecialDB (name : string) : bool :=
  String.eqb name (InformationSchemaName env)
  || String.eqb name (PerformanceSchemaName env)
  || String.eqb name (MetricSchemaName env).

Definition isTableVirtual (id : Z) : bool :=
  Z.land id (SystemSchemaIDFlag env) >? 0.

Definition NewCIStr (s : string) : model.CIStr :=
  {| model.O := s; model.L := ToLower env s |}.

(** *** Cache access from the lookups *)

Definition cacheGet (k : tableCacheKey) : M (option Table) :=
  fun d =>
    let (r, c) := sieveGet (tableCache d) k in
    Returned r (withTableCache d c) [EvCacheGet k].

Definition cacheSet (k : tableCacheKey) (v : Table) : M unit :=
  fun d =>
    Returned tt (withTableCache d (sieveSet (tableCache d) k v)) [EvCacheSet k].

(** *** Loading a table from the metadata store *)

(** The closure handed to [loadTableSF.Do]; every pass through [retry:]
    takes one unit of [fuel]. *)
Fixpoint loadTableRetry (fuel : nat) (attempt : nat) (tblID dbID ts : Z)
  : option (option (Table + error)) :=
  match fuel with
  | O => None
  | S fuel' =>
      match GetTable env ts dbID tblID attempt with
      | KvFlashback => loadTableRetry fuel' (S attempt) tblID dbID ts
      | KvFailure => Some None                        (* [panic(err)] *)
      | KvValue None => Some (Some (inr ErrTableNotExists))
      | KvValue (Some tblInfo) =>
          match TableFromMeta env dbID tblInfo with
          | Some t => Some (Some (inl t))
          | None => Some (Some (inr ErrExternal))
          end
      end
  end.

Definition loadTableInfo (fuel : nat) (tblID dbID ts ver : Z) : M (Table + error) :=
  fun d =>
    match loadTableRetry fuel O tblID dbID ts with
    | None => OutOfFuel
    | Some None => Panicked
    | Some (Some r) => Returned r d [EvLoadTable tblID dbID ts ver]
    end.

(** *** Table lookups *)

Definition eqByID (a b : tableItem) : bool := tableID a =? tableID b.

Definition eqByName (a b : tableItem) : bool :=
  String.eqb (dbName a) (dbName b) && String.eqb (tableName a) (tableName b).

Definition endByID (id : Z) : tableItem :=
  {| dbName := EmptyString; dbID := 0; tableName := EmptyString;
     tableID := id; schemaVersion := MaxInt64; tomb := false |}.

Definition endByName (schema tbl : string) : tableItem :=
  {| dbName := schema; dbID := 0; tableName := tbl;
     tableID := 0; schemaVersion := MaxInt64; tomb := false |}.

Definition searchByID (ver id : Z) : M (tableItem * bool) :=
  fun d => Returned (search (byID d) ver (endByID id) eqByID) d [EvSearchByID id].

Definition searchByName (ver : Z) (schema tbl : string) : M (tableItem * bool) :=
  fun d => Returned (search (byName d) ver (endByName schema tbl) eqByName) d
                    [EvSearchByName schema tbl].

(** Cached values are never nil handles, so [found && tbl != nil] is
    [found]. *)
Definition tableByID (fuel : nat) (is_ : infoschemaV2) (id : Z) (noRefill : bool)
  : M (option Table * bool) :=
  if negb (tableIDIsValid env id) then ret (None, false)
  else
    let key := {| tck_tableID := id;
                  tck_schemaVersion := schemaMetaVersion is_ |} in
    r <- cacheGet key ;;
    match r with
    | Some tbl => ret (Some tbl, true)
    | None =>
        s <- searchByID (schemaMetaVersion is_) id ;;
        let (itm, ok) := s in
        if negb ok then ret (None, false)
        else if isTableVirtual id then
          sp <- gets specials ;;
          match specialsLoad sp (dbName itm) with
          | Some schTbls =>
              match tablesLookup (st_tables schTbls) (tableName itm) with
              | Some t => ret (Some t, true)
              | None => ret (None, false)
              end
          | None => ret (None, false)
          end
        else
          let oldKey := {| tck_tableID := tableID itm;
                           tck_schemaVersion := schemaVersion itm |} in
          r' <- cacheGet oldKey ;;
          match r' with
          | Some tbl =>
              (if negb noRefill then cacheSet key tbl else ret tt) ;;;
              ret (Some tbl, true)
          | None =>
              l <- loadTableInfo fuel id (dbID itm) (is_ts is_)
                                 (schemaMetaVersion is_) ;;
              match l with
              | inr _ => ret (None, false)
              | inl t =>
                  (if negb noRefill then cacheSet oldKey t else ret tt) ;;;
                  ret (Some t, true)
              end
          end
    end.

Definition TableByID (fuel : nat) (is_ : infoschemaV2) (id : Z)
  : M (option Table * bool) :=
  tableByID fuel is_ id false.

Definition TableByName (fuel : nat) (is_ : infoschemaV2) (schema tbl : model.CIStr)
  : M (Table + error) :=
  if IsSpecialDB (model.L schema) then
    sp <- gets specials ;;
    match specialsLoad sp (model.L schema) with
    | Some tbNames =>
        match tablesLookup (st_tables tbNames) (model.L tbl) with
        | Some t => ret (inl t)
        | None => ret (inr ErrTableNotExists)
        end
    | None => ret (inr ErrTableNotExists)
    end
  else
    s <- searchByName (schemaMetaVersion is_) (model.L schema) (model.L tbl) ;;
    let (itm, ok) := s in
    if negb ok then ret (inr ErrTableNotExists)
    else
      let oldKey := {| tck_tableID := tableID itm;
                       tck_schemaVersion := schemaVersion itm |} in
      r <- cacheGet oldKey ;;
      match r with
      | Some res => ret (inl res)
      | None =>
          l <- loadTableInfo fuel (tableID itm) (dbID itm) (is_ts is_)
                             (schemaMetaVersion is_) ;;
          match l with
          | inr e => ret (inr e)
          | inl t => cacheSet oldKey t ;;; ret (inl t)
          end
      end.

(** *** Schema lookups *)

(** The visitor of [SchemaByName]; its state is [(val, ok)]. *)
Definition schemaByNameIter (ver : Z) (schemaL : string)
           (st : option model.DBInfo * bool) (item : schemaItem)
  : (option model.DBInfo * bool) * bool :=
  if negb (String.eqb (si_Name item) schemaL) then ((fst st, false), false)
  else if si_schemaVersion item <=? ver then
    if negb (si_tomb item) then ((Some (si_dbInfo item), true), false)
    else (st, false)
  else (st, true).

Definition SchemaByName (is_ : infoschemaV2) (d : Data) (schema : model.CIStr)
  : option model.DBInfo * bool :=
  if IsSpecialDB (model.L schema) then
    match specialsLoad (specials d) (model.L schema) with
    | None => (None, false)
    | Some schTbls => (Some (st_dbInfo schTbls), true)
    end
  else
    Descend (schemaMap d)
            {| si_schemaVersion := MaxInt64;
               si_dbInfo := {| model.dbiID := 0; model.dbiName := schema;
                               model.dbiTables := [] |};
               si_tomb := false |}
            (schemaByNameIter (schemaMetaVersion is_) (model.L schema))
            (None, false).

(** The visitor of [SchemaByID]; its state is [(ok, name)]. *)
Definition schemaByIDIter (ver id : Z) (st : bool * string) (item : schemaIDName)
  : (bool * string) * bool :=
  if negb (sn_id item =? id) then ((false, snd st), false)
  else if sn_schemaVersion item <=? ver then
    if negb (sn_tomb item) then ((true, sn_name item), false)
    else (st, false)
  else (st, true).

(** [specials.Range] visits the registry in an order of its own; the list
    order stands for it. *)
Definition SchemaByID (is_ : infoschemaV2) (d : Data) (id : Z)
  : option model.DBInfo * bool :=
  if isTableVirtual id then
    match find (fun kv => model.dbiID (st_dbInfo (snd kv)) =? id) (specials d) with
    | None => (None, false)
    | Some kv => (Some (st_dbInfo (snd kv)), true)
    end
  else
    let (ok, name) :=
      Descend (schemaID2Name d)
              {| sn_schemaVersion := MaxInt64; sn_id := id;
                 sn_name := EmptyString; sn_tomb := false |}
              (schemaByIDIter (schemaMetaVersion is_) id)
              (false, EmptyString) in
    if negb ok then (None, false)
    else SchemaByName is_ d (NewCIStr name).

(** *** Enumeration over the attribute index *)

Record tableInfoResult := {
  DBName : string;
  TableInfos : list model.TableInfo
}.

Record listState := {
  ls_ret : list tableInfoResult;
  ls_currDB : string;
  ls_lastTableID : Z;
  ls_res : tableInfoResult
}.

(** The visitor of [ListTablesWithSpecialAttribute].  [None] is the panic
    of applying the filter to a nil descriptor. *)
Definition listIter (ver : Z) (filter : specialAttributeFilter)
           (st : option listState) (item : tableInfoItem)
  : option listState * bool :=
  match st with
  | None => (None, false)
  | Some s =>
      if tii_schemaVersion item >? ver then (st, true)
      else if negb (ls_lastTableID s =? 0)
              && (ls_lastTableID s =? tii_tableID item) then (st, true)
      else
        let s1 := {| ls_ret := ls_ret s; ls_currDB := ls_currDB s;
                     ls_lastTableID := tii_tableID item; ls_res := ls_res s |} in
        if tii_tomb item then (Some s1, true)
        else
          match tii_tableInfo item with
          | None => (None, false)
          | Some ti =>
              if negb (filter ti) then (Some s1, true)
              else if String.eqb (ls_currDB s1) EmptyString then
                (Some {| ls_ret := ls_ret s1;
                         ls_currDB := tii_dbName item;
                         ls_lastTableID := ls_lastTableID s1;
                         ls_res := {| DBName := tii_dbName item;
                                      TableInfos := [ti] |} |}, true)
              else if String.eqb (ls_currDB s1) (tii_dbName item) then
                (Some {| ls_ret := ls_ret s1;
                         ls_currDB := ls_currDB s1;
                         ls_lastTableID := ls_lastTableID s1;
                         ls_res := {| DBName := DBName (ls_res s1);
                                      TableInfos := TableInfos (ls_res s1) ++ [ti] |} |},
                 true)
              else
                (Some {| ls_ret := ls_ret s1 ++ [ls_res s1];
                         ls_currDB := ls_currDB s1;
                         ls_lastTableID := ls_lastTableID s1;
                         ls_res := {| DBName := tii_dbName item;
                                      TableInfos := [ti] |} |}, true)
          end
  end.

Definition ListTablesWithSpecialAttribute (is_ : infoschemaV2) (d : Data)
           (filter : specialAttributeFilter) : option (list tableInfoResult) :=
  match Reverse (tableInfoResident d)
                (listIter (schemaMetaVersion is_) filter)
                (Some {| ls_ret := []; ls_currDB := EmptyString;
                         ls_lastTableID := 0;
                         ls_res := {| DBName := EmptyString; TableInfos := [] |} |})
  with
  | None => None
  | Some s =>
      if (0 <? Z.of_nat (List.length (TableInfos (ls_res s))))
      then Some (ls_ret s ++ [ls_res s])
      else Some (ls_ret s)
  end.

(** *** The diff applier *)

Definition withInfoData (b : Builder) (d : Data) : Builder :=
  {| b_infoschemaV2 := b_infoschemaV2 b; infoData := d;
     temporaryTableIDs := temporaryTableIDs b |}.

Definition deleteTemporaryTableID (b : Builder) (tableID : Z) : Builder :=
  {| b_infoschemaV2 := b_infoschemaV2 b; infoData := infoData b;
     temporaryTableIDs :=
       match temporaryTableIDs b with
       | Some ids => Some (List.filter (fun i => negb (i =? tableID)) ids)
       | None => None
       end |}.

(** The tomb partition entries [applyDropTableV2] writes for a table. *)
Definition tombPartitions (bt : BTreeG partitionItem) (ver : Z)
           (ti : model.TableInfo) : BTreeG partitionItem :=
  match model.GetPartitionInfo ti with
  | Some defs =>
      fold_left (fun bt def =>
                   btSet bt {| partitionID := model.pdID def;
                               pi_schemaVersion := ver;
                               pi_tableID := model.ID ti;
                               pi_tomb := true |})
                defs bt
  | None => bt
  end.

(** A nil result slice is the empty list. *)
Definition applyDropTableV2 (fuel : nat) (b : Builder) (diff : SchemaDiff)
           (dbInfo : model.DBInfo) (tableID : Z) (affected : list Z)
  : outcome Builder (list Z) :=
  let b := deleteTemporaryTableID b tableID in
  match TableByID fuel (b_infoschemaV2 b) tableID (infoData b) with
  | Panicked => Panicked
  | OutOfFuel => OutOfFuel
  | Returned (Some table, true) d tr =>
      let d1 := withPid2tid d (tombPartitions (pid2tid d) (sd_Version diff)
                                              (Meta table)) in
      let d2 := remove d1 {| dbName := model.L (model.dbiName dbInfo);
                             dbID := model.dbiID dbInfo;
                             tableName := model.L (model.Name (Meta table));
                             tableID := model.ID (Meta table);
                             schemaVersion := sd_Version diff;
                             tomb := false |} in
      Returned affected (withInfoData b d2)
               (tr ++ [EvDeleteReferredForeignKeys (model.dbiName dbInfo)
                                                   (model.ID (Meta table))])
  | Returned _ d tr => Returned [] (withInfoData b d) tr
  end.

(** [addDB] on the nil descriptor that [GetDatabase] may hand back
    dereferences it. *)
Definition applyRecoverSchemaV2 (b : Builder) (diff : SchemaDiff)
  : outcome Builder (list Z + error) :=
  match SchemaByID (b_infoschemaV2 b) (infoData b) (sd_SchemaID diff) with
  | (_, true) => Returned (inr ErrDatabaseExists) b []
  | (_, false) =>
      match GetDatabase env (sd_SchemaID diff) with
      | inr e => Returned (inr e) b []
      | inl None => Panicked
      | inl (Some di) =>
          applyCreateTables env
            (withInfoData b (addDB (infoData b) (sd_Version diff) di)) diff
      end
  end.

End Catalog.

(** ** Further lookups of the snapshot view *)

(** A reply of the metadata store to [ListSimpleTables]. *)
Inductive kvListReply :=
| KlTables (l : list (Z * model.CIStr))   (* the [{id, name}] of the tables *)
| KlDBNotExists                           (* [meta.ErrDBNotExists] *)
| KlFlashback                             (* "in flashback progress" *)
| KlFailure.                              (* any other error *)

Definition CIStr_eqb (a b : model.CIStr) : bool :=
  String.eqb (model.O a) (model.O b) && String.eqb (model.L a) (model.L b).

Section Snapshot.
Variable env : Env.

(** [m.ListSimpleTables(dbID)] on a snapshot at [ts], at the n-th attempt. *)
Variable ListSimpleTables : Z -> Z -> nat -> kvListReply.

Local Open Scope m_scope.

(** [EvictTable]: both removals act on the cache only. *)
Definition EvictTable (is_ : infoschemaV2) (d : Data) (schema tbl : string) : Data :=
  let (itm, ok) := search (byName d) (schemaMetaVersion is_)
                          (endByName schema tbl) eqByName in
  if negb ok then d
  else
    withTableCache d
      (sieveRemove
         (sieveRemove (tableCache d)
                      {| tck_tableID := tableID itm;
                         tck_schemaVersion := schemaMetaVersion is_ |})
         {| tck_tableID := tableID itm; tck_schemaVersion := schemaVersion itm |}).

Definition SchemaExists (is_ : infoschemaV2) (d : Data) (schema : model.CIStr) : bool :=
  snd (SchemaByName env is_ d schema).

(** *** All schemas *)

(** The visitor of the reverse traversal in [allSchemas]; its state is
    [last] and the descriptors visited so far. *)
Definition allSchemasIter (ver : Z)
           (st : option model.DBInfo * list model.DBInfo) (item : schemaItem)
  : (option model.DBInfo * list model.DBInfo) * bool :=
  let (last, acc) := st in
  if si_schemaVersion item >? ver then (st, true)
  else
    match last with
    | Some l =>
        if CIStr_eqb (model.dbiName l) (model.dbiName (si_dbInfo item))
        then (st, true)
        else if negb (si_tomb item)
             then ((Some (si_dbInfo item), acc ++ [si_dbInfo item]), true)
             else ((Some (si_dbInfo item), acc), true)
    | None =>
        if negb (si_tomb item)
        then ((Some (si_dbInfo item), acc ++ [si_dbInfo item]), true)
        else ((Some (si_dbInfo item), acc), true)
    end.

(** The descriptors [allSchemas] hands to [visit], in order: those of the
    versioned index, then those of the registry. *)
Definition allSchemas (is_ : infoschemaV2) (d : Data) : list model.DBInfo :=
  snd (Reverse (schemaMap d) (allSchemasIter (schemaMetaVersion is_)) (None, []))
  ++ map (fun kv => st_dbInfo (snd kv)) (specials d).

Definition AllSchemas (is_ : infoschemaV2) (d : Data) : list model.DBInfo :=
  allSchemas is_ d.

Definition AllSchemaNames (is_ : infoschemaV2) (d : Data) : list model.CIStr :=
  map model.dbiName (allSchemas is_ d).

(** *** Partition lookup *)

Definition zeroPartitionItem : partitionItem :=
  {| partitionID := 0; pi_schemaVersion := 0; pi_tableID := 0; pi_tomb := false |}.

(** The visitor of the descent in [FindTableByPartitionID]; its state is
    [(ok, pi)]. *)
Definition partitionIter (ver pid : Z) (st : bool * partitionItem)
           (item : partitionItem) : (bool * partitionItem) * bool :=
  if negb (partitionID item =? pid) then (st, false)
  else if pi_schemaVersion item >? ver then (st, true)
  else if pi_schemaVersion item <=? ver then ((negb (pi_tomb item), item), false)
  else (st, true).

Definition endPartition (pid : Z) : partitionItem :=
  {| partitionID := pid; pi_schemaVersion := MaxInt64; pi_tableID := 0;
     pi_tomb := false |}.

(** The descent over [pid2tid] that opens [FindTableByPartitionID]. *)
Definition partitionDescent (is_ : infoschemaV2) (d : Data) (pid : Z)
  : bool * partitionItem :=
  Descend (pid2tid d) (endPartition pid)
          (partitionIter (schemaMetaVersion is_) pid) (false, zeroPartitionItem).

(** [None] is the triple of nils.  A table found without partition info
    makes the loop over [partInfo.Definitions] dereference nil. *)
Definition FindTableByPartitionID (fuel : nat) (is_ : infoschemaV2) (pid : Z)
  : M (option (Table * model.DBInfo * option model.PartitionDefinition)) :=
  fun d =>
    let (ok, pi) := partitionDescent is_ d pid in
    if negb ok then Returned None d []
    else
      (r <- TableByID env fuel is_ (pi_tableID pi) ;;
       match r with
       | (Some tbl, true) =>
           fun d' =>
             match SchemaByID env is_ d' (model.DBID (Meta tbl)) with
             | (Some dbInfo, true) =>
                 match model.GetPartitionInfo (Meta tbl) with
                 | None => Panicked
                 | Some defs =>
                     Returned (Some (tbl, dbInfo,
                                     find (fun def => model.pdID def =? pid) defs))
                              d' []
                 end
             | _ => Returned None d' []
             end
       | _ => ret None
       end) d.

(** *** The tables of a schema *)

(** The loop of [SchemaTables] over the table ids the store listed. *)
Fixpoint collectTables (fuel : nat) (is_ : infoschemaV2) (ids : list Z)
         (acc : list Table) : M (list Table) :=
  match ids with
  | [] => ret acc
  | id :: ids' =>
      r <- tableByID env fuel is_ id true ;;
      match r with
      | (Some tbl, true) => collectTables fuel is_ ids' (acc ++ [tbl])
      | _ => collectTables fuel is_ ids' acc
      end
  end.

(** From the label [retry:] on; every pass takes one unit of [retries]. *)
Fixpoint schemaTablesRetry (retries attempt fuel : nat) (is_ : infoschemaV2)
         (schema : model.CIStr) : M (list Table) :=
  match retries with
  | O => fun _ => OutOfFuel
  | S retries' =>
      fun d =>
        match SchemaByName env is_ d schema with
        | (Some dbInfo, true) =>
            match ListSimpleTables (is_ts is_) (model.dbiID dbInfo) attempt with
            | KlTables l => collectTables fuel is_ (map fst l) [] d
            | KlDBNotExists => Returned [] d []
            | KlFlashback =>
                schemaTablesRetry retries' (S attempt) fuel is_ schema d
            | KlFailure => Panicked
            end
        | _ => Returned [] d []
        end
  end.

(** The tables of a registry bundle come out in the order of the list that
    stands for the map. *)
Definition SchemaTables (fuel : nat) (is_ : infoschemaV2) (schema : model.CIStr)
  : M (list Table) :=
  fun d =>
    match (if IsSpecialDB env (model.L schema)
           then specialsLoad (specials d) (model.L schema) else None) with
    | Some schTbls => Returned (map snd (st_tables schTbls)) d []
    | None => schemaTablesRetry fuel O fuel is_ schema d
    end.

End Snapshot.

(** * Specification predicates *)

(** ** The version-timestamp log *)

(** An entry the scan of [getVersionByTSNoLock] passes over. *)
Definition skipped (ts : Z) (vt : versionAndTimestamp) : Prop :=
  timestamp vt = 0 \/ ts < timestamp vt.

(** The reading of "the containing interval is found" that ignores version
    gaps: some entry of the log has version [V], a known timestamp not after
    [ts], and is either the first entry or preceded by an entry whose
    timestamp is after [ts]. *)
Definition containingInterval (log : list versionAndTimestamp) (ts V : Z) : Prop :=
  exists i vt,
    nth_error log i = Some vt /\ vt_schemaVersion vt = V /\
    timestamp vt <> 0 /\ timestamp vt <= ts /\
    (i = O \/ exists p, nth_error log (Nat.pred i) = Some p /\ timestamp p > ts).

(** What the scan accepts: the first entry it does not pass over has version
    [V], and it is either the head of the log or directly preceded by the
    entry of version [V+1], whose timestamp is after [ts]. *)
Definition suitable (log : list versionAndTimestamp) (ts V : Z) : Prop :=
  exists pre vt post,
    log = pre ++ vt :: post /\
    Forall (skipped ts) pre /\ ~ skipped ts vt /\
    vt_schemaVersion vt = V /\
    (pre = [] \/
     exists pre' p, pre = pre' ++ [p] /\
                    vt_schemaVersion p = wrapInt64 (V + 1) /\ timestamp p > ts).

(** The entry just before position [length pre] when the scan entered the
    list with [prev] behind it. *)
Fixpoint lastSeen (prev : option versionAndTimestamp)
         (pre : list versionAndTimestamp) : option versionAndTimestamp :=
  match pre with
  | [] => prev
  | x :: pre' => lastSeen (Some x) pre'
  end.

Definition neighbourOK (ts V : Z) (o : option versionAndTimestamp) : Prop :=
  match o with
  | None => True
  | Some p => vt_schemaVersion p = wrapInt64 (V + 1) /\ timestamp p > ts
  end.

(** The log keeps its versions strictly decreasing. *)
Definition versionsDescend (log : list versionAndTimestamp) : Prop :=
  StronglySorted (fun a b => vt_schemaVersion a > vt_schemaVersion b) log.

(** ** Ordered indices *)

(** A total strict order on keys, decided by [ltK]. *)
Record TotalLt {K : Type} (ltK : K -> K -> bool) : Prop := {
  ltK_irrefl : forall a, ltK a a = false;
  ltK_trans : forall a b c, ltK a b = true -> ltK b c = true -> ltK a c = true;
  ltK_total : forall a b, ltK a b = false -> ltK b a = false -> a = b
}.

(** The lexicographic product, written the way the comparators are. *)
Definition lexLt {A B : Type} (ltA : A -> A -> bool) (ltB : B -> B -> bool)
           (x y : A * B) : bool :=
  if ltA (fst x) (fst y) then true
  else if ltA (fst y) (fst x) then false
  else ltB (snd x) (snd y).

(** The items of an index are in strictly ascending order. *)
Definition sortedIndex {T : Type} (bt : BTreeG T) : Prop :=
  StronglySorted (fun a b => less bt a b = true) (items bt).

Definition keyByID (a : tableItem) : Z * Z := (tableID a, schemaVersion a).

Definition keyByName (a : tableItem) : string * (string * Z) :=
  (dbName a, (tableName a, schemaVersion a)).

(** A table index as the store keeps it: built on its comparator, sorted,
    with [int64] versions. *)
Definition wfTableIndex (cmp : tableItem -> tableItem -> bool)
           (bt : BTreeG tableItem) : Prop :=
  less bt = cmp /\ sortedIndex bt /\
  Forall (fun e => schemaVersion e <= MaxInt64) (items bt).

(** [e] is, among the items of [l] that satisfy [P] and have a version at
    most [V], one of the largest version. *)
Definition latestMatching (l : list tableItem) (P : tableItem -> bool) (V : Z)
           (e : tableItem) : Prop :=
  In e l /\ P e = true /\ schemaVersion e <= V /\
  forall e', In e' l -> P e' = true -> schemaVersion e' <= V ->
             schemaVersion e' <= schemaVersion e.

(** No item of [l] satisfying [P] has a version at most [V]. *)
Definition noneMatching (l : list tableItem) (P : tableItem -> bool) (V : Z) : Prop :=
  forall e, In e l -> P e = true -> V < schemaVersion e.

(** ** The two table lookups

    [TableByID] searches [byID] from [{tableID: id, schemaVersion: MaxInt64}]
    with equality on the table id; [TableByName] searches [byName] from
    [{dbName, tableName, schemaVersion: MaxInt64}] with equality on both
    names. *)

Inductive tableKey :=
| ByID (id : Z)
| ByName (db tbl : string).

Definition keyCompare (k : tableKey) : tableItem -> tableItem -> bool :=
  match k with ByID _ => compareByID | ByName _ _ => compareByName end.

Definition keyEnd (k : tableKey) : tableItem :=
  match k with ByID id => endByID id | ByName db tbl => endByName db tbl end.

Definition keyEq (k : tableKey) : tableItem -> tableItem -> bool :=
  match k with ByID _ => eqByID | ByName _ _ => eqByName end.

Definition keyMatches (k : tableKey) : tableItem -> bool := keyEq k (keyEnd k).

(** What the snapshot at version [V] should find under key [k]: [Some e] when
    [e] is the entry of largest version at most [V] among those matching [k],
    [None] when no matching entry has a version at most [V]. *)
Definition selects (l : list tableItem) (k : tableKey) (V : Z)
           (r : option tableItem) : Prop :=
  match r with
  | Some e => latestMatching l (keyMatches k) V e
  | None => noneMatching l (keyMatches k) V
  end.

(** The answer of [search] for a selection: a tomb is reported absent. *)
Definition reported (r : option tableItem) : tableItem * bool :=
  match r with
  | Some e => (e, negb (tomb e))
  | None => (zeroTableItem, false)
  end.

(** ** States of the store *)

(** Both table indices are as the store keeps them. *)
Definition wfTables (d : Data) : Prop :=
  wfTableIndex compareByID (byID d) /\ wfTableIndex compareByName (byName d).

(** What a call leaves to its caller once the store is put aside: the
    value and the calls made, or the way it failed to return. *)
Definition observe {S A : Type} (o : outcome S A) : outcome unit A :=
  match o with
  | Returned a _ tr => Returned a tt tr
  | Panicked => Panicked
  | OutOfFuel => OutOfFuel
  end.

(** Nothing is recorded for the table of [item] above the version of
    [item]: no entry of its id, no entry of its name, no cached handle. *)
Definition newestFor (d : Data) (item : tableItem) : Prop :=
  (forall e, In e (items (byID d)) -> tableID e = tableID item ->
             schemaVersion e <= schemaVersion item) /\
  (forall e, In e (items (byName d)) ->
             dbName e = dbName item -> tableName e = tableName item ->
             schemaVersion e <= schemaVersion item) /\
  (forall v, schemaVersion item < v ->
             cached (tableCache d)
                    {| tck_tableID := tableID item; tck_schemaVersion := v |} = None).

(** A computation that changes nothing of the store but its cache. *)
Definition cacheOnly {A : Type} (m : M A) : Prop :=
  forall d a d' tr, m d = Returned a d' tr -> exists c, d' = withTableCache d c.

(** ** Sequences of mutations *)

Inductive mutation :=
| Add (item : tableItem) (tbl : Table)
| Remove (item : tableItem).

Definition mutItem (m : mutation) : tableItem :=
  match m with Add item _ => item | Remove item => item end.

Definition mutVersion (m : mutation) : Z := schemaVersion (mutItem m).

Definition applyMutation (env : Env) (d : Data) (m : mutation) : Data :=
  match m with
  | Add item tbl => add env d item tbl
  | Remove item => remove d item
  end.

Definition run (env : Env) (d : Data) (ms : list mutation) : Data :=
  fold_left (applyMutation env) ms d.

(** Strictly increasing [int64] schema versions. *)
Definition increasing (ms : list mutation) : Prop :=
  StronglySorted Z.lt (map mutVersion ms) /\
  Forall (fun m => mutVersion m <= MaxInt64) ms.

(** The entry that is about to be written does not clash with what is
    visible: its id is either not visible or visible under the entry's own
    names, and its names are either not visible or bound to the entry's own
    id. *)
Definition noConflict (d : Data) (item : tableItem) : bool :=
  (let (e, ok) := search (byID d) (schemaVersion item)
                         (endByID (tableID item)) eqByID in
   if ok then eqByName item e else true)
  &&
  (let (e, ok) := search (byName d) (schemaVersion item)
                         (endByName (dbName item) (tableName item)) eqByName in
   if ok then tableID e =? tableID item else true).

Fixpoint disciplined (env : Env) (d : Data) (ms : list mutation) : bool :=
  match ms with
  | [] => true
  | m :: ms' => noConflict d (mutItem m) && disciplined env (applyMutation env d m) ms'
  end.

(** The two lookups agree at version [V]: whichever index reports an entry
    present, the other one, asked for that entry's own key, reports the same
    entry present. *)
Definition lookupsAgree (d : Data) (V : Z) : Prop :=
  (forall id e,
      search (byID d) V (endByID id) eqByID = (e, true) ->
      search (byName d) V (endByName (dbName e) (tableName e)) eqByName = (e, true)) /\
  (forall db tbl e,
      search (byName d) V (endByName db tbl) eqByName = (e, true) ->
      search (byID d) V (endByID (tableID e)) eqByID = (e, true)).

(** The same agreement, on selections: a live entry is the selection under
    its id exactly when it is the selection under its names. *)
Definition agreeAt (d : Data) (V : Z) : Prop :=
  forall e, tomb e = false ->
    (selects (items (byID d)) (ByID (tableID e)) V (Some e) <->
     selects (items (byName d)) (ByName (dbName e) (tableName e)) V (Some e)).

(** Every entry of both table indices has a version below [v]. *)
Definition below (d : Data) (v : Z) : Prop :=
  (forall e, In e (items (byID d)) -> schemaVersion e < v) /\
  (forall e, In e (items (byName d)) -> schemaVersion e < v).

(** [d'] is [d] with [n] written to both table indices. *)
Definition writesBoth (d : Data) (n : tableItem) (d' : Data) : Prop :=
  byID d' = btSet (byID d) n /\ byName d' = btSet (byName d) n.

(** ** Sample data *)

Definition sampleEnv : Env :=
  {| tableIDIsValid := fun id => 0 <? id;
     SystemSchemaIDFlag := 2 ^ 62;
     InformationSchemaName := "information_schema"%string;
     PerformanceSchemaName := "performance_schema"%string;
     MetricSchemaName := "metrics_schema"%string;
     ToLower := fun s => s;
     sieveEvict := fun c => c;
     GetTable := fun _ _ _ _ => KvValue None;
     TableFromMeta := fun _ ti => Some {| Meta := ti |};
     GetDatabase := fun _ => inl None;
     applyCreateTables := fun b _ => Returned (inl []) b [] |}.

Definition sampleCIStr (s : string) : model.CIStr :=
  {| model.O := s; model.L := s |}.

Definition sampleInfo (id : Z) (name : string) (ttl : bool) : model.TableInfo :=
  {| model.ID := id; model.Name := sampleCIStr name; model.DBID := 1;
     model.State := model.StatePublic; model.TTLInfo := ttl;
     model.TiFlashReplica := false; model.PlacementPolicyRef := false;
     model.Partition := None |}.

Definition sampleTable (id : Z) (name : string) (ttl : bool) : Table :=
  {| Meta := sampleInfo id name ttl |}.

Definition sampleItem (db : string) (name : string) (id ver : Z) : tableItem :=
  {| dbName := db; dbID := 1; tableName := name; tableID := id;
     schemaVersion := ver; tomb := false |}.

(** ** Partition entries *)

Definition keyPartition (a : partitionItem) : Z * Z :=
  (partitionID a, pi_schemaVersion a).

(** The tomb entry of partition [def] of table [ti] at version [ver]. *)
Definition tombPartition (ver : Z) (ti : model.TableInfo)
           (def : model.PartitionDefinition) : partitionItem :=
  {| partitionID := model.pdID def; pi_schemaVersion := ver;
     pi_tableID := model.ID ti; pi_tomb := true |}.

(** The tomb entry [remove] writes to the attribute index. *)
Definition tombResident (item : tableItem) : tableInfoItem :=
  {| tii_dbName := dbName item; tii_tableID := tableID item;
     tii_schemaVersion := schemaVersion item; tii_tableInfo := None;
     tii_tomb := true |}.

(** The entry [applyDropTableV2] hands to [remove]. *)
Definition droppedItem (diff : SchemaDiff) (dbInfo : model.DBInfo) (table : Table)
  : tableItem :=
  {| dbName := model.L (model.dbiName dbInfo); dbID := model.dbiID dbInfo;
     tableName := model.L (model.Name (Meta table));
     tableID := model.ID (Meta table);
     schemaVersion := sd_Version diff; tomb := false |}.

(** Every tomb among the partition entries of [bt'] was already in [bt]. *)
Definition noNewPartitionTomb (bt bt' : BTreeG partitionItem) : Prop :=
  forall e, In e (items bt') -> pi_tomb e = true -> In e (items bt).

(** ** Enumeration over the attribute index *)

(** The table [ti] of database [db] bears the attribute at version [V]: its
    latest attribute entry with a version at most [V] is live, carries [ti]
    and passes the filter. *)
Definition attributeVisible (d : Data) (V : Z) (filter : specialAttributeFilter)
           (db : string) (ti : model.TableInfo) : Prop :=
  exists item,
    In item (items (tableInfoResident d)) /\
    tii_dbName item = db /\ tii_tableInfo item = Some ti /\
    tii_tomb item = false /\ tii_schemaVersion item <= V /\ filter ti = true /\
    forall item', In item' (items (tableInfoResident d)) ->
                  tii_dbName item' = db -> tii_tableID item' = tii_tableID item ->
                  tii_schemaVersion item' <= V ->
                  tii_schemaVersion item' <= tii_schemaVersion item.

(** More sample data. *)

Definition sampleSnapshot (ver : Z) : infoschemaV2 :=
  {| schemaMetaVersion := ver; is_ts := 0 |}.

Definition sampleLog : Data :=
  {| byName := byName NewData; byID := byID NewData;
     schemaMap := schemaMap NewData; schemaID2Name := schemaID2Name NewData;
     tableCache := tableCache NewData;
     versionTimestamps := [ {| vt_schemaVersion := 10; timestamp := 100 |};
                            {| vt_schemaVersion := 9; timestamp := 50 |} ];
     specials := specials NewData; pid2tid := pid2tid NewData;
     tableInfoResident := tableInfoResident NewData |}.

Definition samplePartitioned : Table :=
  {| Meta :=
       {| model.ID := 1; model.Name := sampleCIStr "t"; model.DBID := 1;
          model.State := model.StatePublic; model.TTLInfo := false;
          model.TiFlashReplica := false; model.PlacementPolicyRef := false;
          model.Partition :=
            Some [ {| model.pdID := 100; model.pdPlacementPolicyRef := false |};
                   {| model.pdID := 200; model.pdPlacementPolicyRef := false |} ] |} |}.

Definition sampleDB : model.DBInfo :=
  {| model.dbiID := 1; model.dbiName := sampleCIStr "test"; model.dbiTables := [] |}.

Definition sampleBuilder (d : Data) (ver : Z) : Builder :=
  {| b_infoschemaV2 := sampleSnapshot ver; infoData := d;
     temporaryTableIDs := None |}.

(** A table moved from database "b" to database "a" at version 7. *)
Definition renamedAcrossDBs : Data :=
  run sampleEnv NewData
      [ Add (sampleItem "b" "t" 5 3) (sampleTable 5 "t" true);
        Remove (sampleItem "b" "t" 5 7);
        Add (sampleItem "a" "t" 5 7) (sampleTable 5 "t" true) ].

(** Four tables with a TTL, two of them in database "b". *)
Definition fourTables : Data :=
  run sampleEnv NewData
      [ Add (sampleItem "a" "t1" 1 1) (sampleTable 1 "t1" true);
        Add (sampleItem "b" "t2" 2 2) (sampleTable 2 "t2" true);
        Add (sampleItem "b" "t3" 3 3) (sampleTable 3 "t3" true);
        Add (sampleItem "c" "t4" 4 4) (sampleTable 4 "t4" true) ].

(** * Further specification predicates *)

(** Nothing is recorded in the table indices for the id or for the names of
    [item] above the version of [item]. *)
Definition newestEntry (d : Data) (item : tableItem) : Prop :=
  (forall e, In e (items (byID d)) -> tableID e = tableID item ->
             schemaVersion e <= schemaVersion item) /\
  (forall e, In e (items (byName d)) ->
             dbName e = dbName item -> tableName e = tableName item ->
             schemaVersion e <= schemaVersion item).

(** [cmp] is a strict order whose incomparable items are those of equal
    [key]. *)
Definition strictOrderOn {T K : Type} (cmp : T -> T -> bool) (key : T -> K) : Prop :=
  (forall a, cmp a a = false) /\
  (forall a b c, cmp a b = true -> cmp b c = true -> cmp a c = true) /\
  (forall a b, cmp a b = false -> cmp b a = false -> key a = key b) /\
  (forall a b, key a = key b -> cmp a b = false).

Definition keyTableInfoItem (a : tableInfoItem) : (string * Z) * Z :=
  ((tii_dbName a, tii_tableID a), tii_schemaVersion a).

Definition keySchemaItem (a : schemaItem) : string * Z :=
  (si_Name a, si_schemaVersion a).

Definition keySchemaByID (a : schemaIDName) : Z * Z :=
  (sn_id a, sn_schemaVersion a).

(** The two table indices hold the same entries. *)
Definition sameEntries (d : Data) : Prop :=
  forall e, In e (items (byID d)) <-> In e (items (byName d)).

(** ** Selections over any index *)

(** [e] is, among the items of [l] that satisfy [P] and have a version at
    most [V], the one of largest version. *)
Definition latestIn {T : Type} (version : T -> Z) (l : list T) (P : T -> bool)
           (V : Z) (e : T) : Prop :=
  In e l /\ P e = true /\ version e <= V /\
  forall e', In e' l -> P e' = true -> version e' <= V -> version e' <= version e.

Definition picks {T : Type} (version : T -> Z) (l : list T) (P : T -> bool)
           (V : Z) (r : option T) : Prop :=
  match r with
  | Some e => latestIn version l P V e
  | None => forall e, In e l -> P e = true -> V < version e
  end.

(** An index as the store keeps it: built on its comparator, sorted, with
    [int64] versions. *)
Definition wfIndex {T : Type} (cmp : T -> T -> bool) (version : T -> Z)
           (bt : BTreeG T) : Prop :=
  less bt = cmp /\ sortedIndex bt /\
  Forall (fun e => version e <= MaxInt64) (items bt).

(** A visitor that stops at the first item it can use: it gives up on an
    item outside the key region, passes over an item newer than the
    snapshot and stops on the first item that is not. *)
Definition firstHit {T S : Type} (matches : T -> bool) (version : T -> Z) (V : Z)
           (miss : S -> S) (hit : S -> T -> S) (st : S) (x : T) : S * bool :=
  if negb (matches x) then (miss st, false)
  else if version x >? V then (st, true)
  else (hit st x, false).

(** Matching predicates of the schema and partition lookups. *)
Definition schemaNamed (name : string) (item : schemaItem) : bool :=
  String.eqb (si_Name item) name.

Definition schemaWithID (id : Z) (item : schemaIDName) : bool :=
  sn_id item =? id.

Definition partitionWithID (pid : Z) (item : partitionItem) : bool :=
  partitionID item =? pid.

(** ** Schema lookups *)

(** What [SchemaByName] answers for a selection of the name-keyed index. *)
Definition answerSchema (r : option schemaItem) : option model.DBInfo * bool :=
  match r with
  | Some item => if si_tomb item then (None, false)
                 else (Some (si_dbInfo item), true)
  | None => (None, false)
  end.

(** Both schema indices are as the store keeps them. *)
Definition wfSchemas (d : Data) : Prop :=
  wfIndex compareSchemaItem si_schemaVersion (schemaMap d) /\
  wfIndex compareSchemaByID sn_schemaVersion (schemaID2Name d).

(** Nothing is recorded in the schema indices for the name or for the id of
    [dbInfo] above version [v]. *)
Definition newestSchema (d : Data) (dbInfo : model.DBInfo) (v : Z) : Prop :=
  (forall e, In e (items (schemaMap d)) ->
             si_Name e = model.L (model.dbiName dbInfo) -> si_schemaVersion e <= v) /\
  (forall e, In e (items (schemaID2Name d)) ->
             sn_id e = model.dbiID dbInfo -> sn_schemaVersion e <= v).

(** The name of [dbInfo] is that of an ordinary database whose lower-case
    form is the lower-casing of its original form, and its id is not a
    system id. *)
Definition ordinaryDB (env : Env) (dbInfo : model.DBInfo) : Prop :=
  IsSpecialDB env (model.L (model.dbiName dbInfo)) = false /\
  isTableVirtual env (model.dbiID dbInfo) = false /\
  ToLower env (model.O (model.dbiName dbInfo)) = model.L (model.dbiName dbInfo).

(** ** Lookups and the cache *)

(** A computation that leaves every cached handle in place and never calls
    [Set] on the cache. *)
Definition readsOnly {A : Type} (m : M A) : Prop :=
  forall d a d' tr,
    m d = Returned a d' tr ->
    (exists c, d' = withTableCache d c) /\
    (forall k, cached (tableCache d') k = cached (tableCache d) k) /\
    (forall k, ~ In (EvCacheSet k) tr).

(** ** Partition lookups *)

(** What the descent over [pid2tid] leaves in [(ok, pi)] for a selection. *)
Definition answerPartition (r : option partitionItem) : bool * partitionItem :=
  match r with
  | Some item => (negb (pi_tomb item), item)
  | None => (false, zeroPartitionItem)
  end.

(** The live entry [add] writes for partition [def] of a table. *)
Definition livePartition (ver tid : Z) (def : model.PartitionDefinition)
  : partitionItem :=
  {| partitionID := model.pdID def; pi_schemaVersion := ver;
     pi_tableID := tid; pi_tomb := false |}.

Definition wfPartitions (d : Data) : Prop :=
  wfIndex comparePartitionItem pi_schemaVersion (pid2tid d).

(** Nothing is recorded for partition [pid] above version [v]. *)
Definition newestPartition (d : Data) (pid v : Z) : Prop :=
  forall e, In e (items (pid2tid d)) -> partitionID e = pid ->
            pi_schemaVersion e <= v.

(** ** Enumeration over the attribute index *)

(** What the visitor of [ListTablesWithSpecialAttribute] maintains once it
    has visited the items [pre]: the buckets hold visible tables only; the
    open bucket is for the current database unless an item of a smaller
    database has been visited; the current database is that of a visited
    item; and the last table id is that of the last visited item of a
    version at most [V]. *)
Definition listInv (d : Data) (V : Z) (filter : specialAttributeFilter)
           (s : listState) (pre : list tableInfoItem) : Prop :=
  (forall bucket ti, In bucket (ls_ret s ++ [ls_res s]) ->
                     In ti (TableInfos bucket) ->
                     attributeVisible d V filter (DBName bucket) ti) /\
  (DBName (ls_res s) = ls_currDB s \/
   exists y, In y pre /\ String.ltb (tii_dbName y) (ls_currDB s) = true) /\
  (ls_currDB s = EmptyString \/
   exists z, In z pre /\ tii_dbName z = ls_currDB s) /\
  ((forall z, In z pre -> V < tii_schemaVersion z) \/
   exists y, In y pre /\ ls_lastTableID s = tii_tableID y /\
             forall z, In z pre -> tii_schemaVersion z <= V ->
                       compareTableInfoItem y z = true \/ y = z).

Definition listInvOpt (d : Data) (V : Z) (filter : specialAttributeFilter)
           (st : option listState) (pre : list tableInfoItem) : Prop :=
  match st with
  | Some s => listInv d V filter s pre
  | None => True
  end.

(** Every live entry of the attribute index carries a descriptor. *)
Definition liveEntriesDescribed (d : Data) : Prop :=
  forall e, In e (items (tableInfoResident d)) -> tii_tomb e = false ->
            tii_tableInfo e <> None.

(** ** All schemas *)

(** Entries of the name-keyed schema index under one lower-case name carry
    one name. *)
Definition namesAgree (d : Data) : Prop :=
  forall a b, In a (items (schemaMap d)) -> In b (items (schemaMap d)) ->
              si_Name a = si_Name b ->
              model.dbiName (si_dbInfo a) = model.dbiName (si_dbInfo b).

(** The entry under its name that is live and the latest at version [V]. *)
Definition liveLatest (d : Data) (V : Z) (item : schemaItem) : Prop :=
  latestIn si_schemaVersion (items (schemaMap d)) (schemaNamed (si_Name item))
           V item /\
  si_tomb item = false.

(** What the visitor of [allSchemas] maintains once it has visited the items
    [pre]: the descriptors handed to [visit] are those of the live latest
    entries among [pre], and [last] bears the name of the last visited item
    of a version at most [V]. *)
Definition allSchemasInv (d : Data) (V : Z)
           (st : option model.DBInfo * list model.DBInfo)
           (pre : list schemaItem) : Prop :=
  (forall di, In di (snd st) <->
              exists item, In item pre /\ liveLatest d V item /\
                           si_dbInfo item = di) /\
  match fst st with
  | None => forall z, In z pre -> V < si_schemaVersion z
  | Some l =>
      exists y, In y pre /\ model.dbiName l = model.dbiName (si_dbInfo y) /\
                si_schemaVersion y <= V /\
                forall z, In z pre -> si_schemaVersion z <= V ->
                          compareSchemaItem y z = true \/ y = z
  end.

(** * Properties *)

(** ** The version-timestamp log *)

Lemma skipped_dec (ts : Z) (vt : versionAndTimestamp) :
  (timestamp vt =? 0) || (ts <? timestamp vt) = true <-> skipped ts vt.
Proof.
  unfold skipped. rewrite orb_true_iff, Z.eqb_eq, Z.ltb_lt. tauto.
Qed.

Lemma skipped_dec_false (ts : Z) (vt : versionAndTimestamp) :
  (timestamp vt =? 0) || (ts <? timestamp vt) = false <-> ~ skipped ts vt.
Proof.
  rewrite <- skipped_dec. destruct (_ || _); split; intros; congruence.
Qed.

Lemma lastSeen_snoc prev pre p : lastSeen prev (pre ++ [p]) = Some p.
Proof.
  revert prev. induction pre as [|x pre IH]; intros prev; simpl; auto.
Qed.

Lemma lastSeen_None pre : lastSeen None pre = None -> pre = [].
Proof.
  destruct pre as [|x pre]; auto. simpl.
  destruct (@exists_last _ (x :: pre)) as (l' & a & E); [discriminate|].
  intros H. assert (lastSeen None (x :: pre) = Some a)
    by (rewrite E; apply lastSeen_snoc).
  simpl in H0. congruence.
Qed.

Lemma getVersionByTSLoop_found ts :
  forall l prev V,
    getVersionByTSLoop ts prev l = (V, true) <->
    exists pre vt post,
      l = pre ++ vt :: post /\ Forall (skipped ts) pre /\ ~ skipped ts vt /\
      vt_schemaVersion vt = V /\ neighbourOK ts V (lastSeen prev pre).
Proof.
  induction l as [|vt l IH]; intros prev V; simpl.
  - split; [discriminate|]. intros (pre & x & post & E & _).
    destruct pre; discriminate.
  - destruct ((timestamp vt =? 0) || (ts <? timestamp vt)) eqn:Hs.
    + apply skipped_dec in Hs. rewrite IH. split.
      * intros (pre & x & post & -> & Hp & Hx & HV & Hn).
        exists (vt :: pre), x, post. simpl. auto.
      * intros (pre & x & post & E & Hp & Hx & HV & Hn).
        destruct pre as [|y pre]; simpl in E; inversion E; subst.
        -- contradiction.
        -- inversion Hp; subst. exists pre, x, post. simpl in Hn. auto.
    + apply skipped_dec_false in Hs. split.
      * intros H. exists [], vt, l. simpl.
        destruct prev as [p|].
        -- destruct ((vt_schemaVersion p =? wrapInt64 (vt_schemaVersion vt + 1))
                     && (timestamp p >? ts)) eqn:Hc; [|discriminate].
           inversion H; subst. apply andb_true_iff in Hc. destruct Hc as [Hc1 Hc2].
           apply Z.eqb_eq in Hc1. rewrite Z.gtb_ltb in Hc2. apply Z.ltb_lt in Hc2.
           repeat split; auto. lia.
        -- inversion H; subst. repeat split; auto.
      * intros (pre & x & post & E & Hp & Hx & HV & Hn).
        destruct pre as [|y pre]; simpl in E; inversion E; subst.
        -- simpl in Hn. destruct prev as [p|]; auto.
           destruct Hn as [Hn1 Hn2]. rewrite Hn1, Z.eqb_refl. simpl.
           rewrite Z.gtb_ltb. destruct (Z.ltb_spec ts (timestamp p)); auto. lia.
        -- inversion Hp; subst. contradiction.
Qed.

Lemma getVersionByTSLoop_cases ts :
  forall l prev,
    getVersionByTSLoop ts prev l = (0, false) \/
    exists vt, In vt l /\ getVersionByTSLoop ts prev l = (vt_schemaVersion vt, true).
Proof.
  induction l as [|vt l IH]; intros prev; simpl; auto.
  destruct ((timestamp vt =? 0) || (ts <? timestamp vt)).
  - destruct (IH (Some vt)) as [H | (x & Hx & H)]; auto.
    right. exists x. auto.
  - destruct prev as [p|].
    + destruct (_ && _); auto. right. exists vt. auto.
    + right. exists vt. auto.
Qed.

Lemma suitable_iff log ts V :
  suitable log ts V <->
  exists pre vt post,
    log = pre ++ vt :: post /\ Forall (skipped ts) pre /\ ~ skipped ts vt /\
    vt_schemaVersion vt = V /\ neighbourOK ts V (lastSeen None pre).
Proof.
  unfold suitable. split.
  - intros (pre & vt & post & E & Hp & Hx & HV & [-> | (pre' & p & -> & Hn)]).
    + exists [], vt, post. simpl. auto.
    + exists (pre' ++ [p]), vt, post. rewrite lastSeen_snoc. simpl. auto.
  - intros (pre & vt & post & E & Hp & Hx & HV & Hn).
    exists pre, vt, post. repeat split; auto.
    destruct (lastSeen None pre) as [p|] eqn:Hl.
    + right. destruct pre as [|y pre]; [discriminate|].
      destruct (@exists_last _ (y :: pre)) as (pre' & a & Ea); [discriminate|].
      rewrite Ea in Hl. rewrite lastSeen_snoc in Hl. inversion Hl; subst.
      exists pre', p. auto.
    + left. apply lastSeen_None; auto.
Qed.

(** C4, as amended: [getVersionByTSNoLock] answers [(V, true)] exactly when
    the first log entry whose timestamp is known and not after [ts] has
    version [V] and is either the head of the log or directly preceded by the
    entry of version [V+1] with a timestamp after [ts]; in every other case it
    answers [(0, false)]. *)
Theorem C4_getVersionByTS_characterised :
  forall (log : list versionAndTimestamp) (ts : Z),
    (forall V, getVersionByTSNoLock log ts = (V, true) <-> suitable log ts V) /\
    ((forall V, ~ suitable log ts V) -> getVersionByTSNoLock log ts = (0, false)).
Proof.
  intros log ts. unfold getVersionByTSNoLock. split.
  - intros V. rewrite suitable_iff. apply getVersionByTSLoop_found.
  - intros Hno. destruct (getVersionByTSLoop_cases ts log None) as [H | (vt & _ & H)]; auto.
    exfalso. apply (Hno (vt_schemaVersion vt)). rewrite suitable_iff.
    apply getVersionByTSLoop_found. exact H.
Qed.

(** C4, as stated, fails on a log with a version gap: version 8 has a known
    timestamp not after 70 and the next newer entry is after 70, yet the scan
    gives up because that entry is version 10, not 9. *)
Lemma C4_counterexample :
  let log := [ {| vt_schemaVersion := 10; timestamp := 100 |};
               {| vt_schemaVersion := 8; timestamp := 50 |} ] in
  containingInterval log 70 8 /\ getVersionByTSNoLock log 70 = (0, false).
Proof.
  split; [|reflexivity].
  exists 1%nat, {| vt_schemaVersion := 8; timestamp := 50 |}. simpl.
  repeat split; try lia. right.
  exists {| vt_schemaVersion := 10; timestamp := 100 |}. split; [reflexivity|simpl; lia].
Qed.

Lemma getVersionByTSLoop_monotone ts1 ts2 :
  ts1 <= ts2 ->
  forall l prev1 prev2 v1 v2,
    versionsDescend l ->
    getVersionByTSLoop ts1 prev1 l = (v1, true) ->
    getVersionByTSLoop ts2 prev2 l = (v2, true) ->
    v1 <= v2.
Proof.
  intros Hts. induction l as [|vt l IH]; intros prev1 prev2 v1 v2 Hs H1 H2.
  - discriminate.
  - apply StronglySorted_inv in Hs. destruct Hs as [Hs Hall].
    simpl in H1, H2.
    destruct ((timestamp vt =? 0) || (ts2 <? timestamp vt)) eqn:S2.
    + assert (S1 : (timestamp vt =? 0) || (ts1 <? timestamp vt) = true).
      { apply skipped_dec. apply skipped_dec in S2. unfold skipped in *. lia. }
      rewrite S1 in H1. eapply IH; eauto.
    + assert (E2 : v2 = vt_schemaVersion vt).
      { destruct prev2 as [p|]; [destruct (_ && _)|]; congruence. }
      subst v2.
      destruct ((timestamp vt =? 0) || (ts1 <? timestamp vt)) eqn:S1.
      * destruct (getVersionByTSLoop_cases ts1 l (Some vt)) as [H | (x & Hx & H)];
          rewrite H in H1; [discriminate|].
        inversion H1; subst. rewrite Forall_forall in Hall.
        specialize (Hall x Hx). lia.
      * assert (v1 = vt_schemaVersion vt).
        { destruct prev1 as [p|]; [destruct (_ && _)|]; congruence. }
        lia.
Qed.

(** C6: over a log whose versions strictly decrease, [getVersionByTS] is
    monotone in its timestamp wherever it is defined. *)
Theorem C6_getVersionByTS_monotone :
  forall (isd : Data) (ts1 ts2 v1 v2 : Z),
    versionsDescend (versionTimestamps isd) ->
    ts1 <= ts2 ->
    getVersionByTS isd ts1 = (v1, true) ->
    getVersionByTS isd ts2 = (v2, true) ->
    v1 <= v2.
Proof.
  intros isd ts1 ts2 v1 v2 Hs Hts H1 H2.
  unfold getVersionByTS, getVersionByTSNoLock in *.
  eapply getVersionByTSLoop_monotone; eauto.
Qed.

(** ** Orders on keys *)

Lemma string_ltb_lt (a b : string) :
  String.ltb a b = true <-> String_as_OT.lt a b.
Proof.
  unfold String.ltb. rewrite <- String_as_OT.cmp_lt. unfold String_as_OT.cmp.
  destruct (String.compare a b); split; intros; congruence.
Qed.

Lemma TotalLt_string : TotalLt String.ltb.
Proof.
  split.
  - intros a. destruct (String.ltb a a) eqn:E; auto.
    apply string_ltb_lt in E. exfalso.
    apply (String_as_OT.lt_not_eq _ _ E). reflexivity.
  - intros a b c H1 H2. apply string_ltb_lt in H1, H2. apply string_ltb_lt.
    eapply String_as_OT.lt_trans; eauto.
  - intros a b H1 H2. unfold String.ltb in *.
    rewrite String.compare_antisym in H2.
    destruct (String.compare a b) eqn:E; simpl in *; try discriminate.
    apply String.compare_eq_iff; auto.
Qed.

Lemma TotalLt_Z : TotalLt Z.ltb.
Proof.
  split.
  - intros a. apply Z.ltb_irrefl.
  - intros a b c H1 H2. apply Z.ltb_lt in H1, H2. apply Z.ltb_lt. lia.
  - intros a b H1 H2. apply Z.ltb_ge in H1, H2. lia.
Qed.

Lemma TotalLt_lex {A B : Type} (ltA : A -> A -> bool) (ltB : B -> B -> bool) :
  TotalLt ltA -> TotalLt ltB -> TotalLt (lexLt ltA ltB).
Proof.
  intros [iA tA oA] [iB tB oB]. split.
  - intros [a b]. unfold lexLt. simpl. rewrite iA. apply iB.
  - intros [a1 b1] [a2 b2] [a3 b3]. unfold lexLt. simpl.
    destruct (ltA a1 a2) eqn:E12.
    + intros _. destruct (ltA a2 a3) eqn:E23.
      * intros _. rewrite (tA _ _ _ E12 E23). reflexivity.
      * destruct (ltA a3 a2) eqn:E32; [discriminate|].
        rewrite (oA _ _ E23 E32) in E12. rewrite E12. reflexivity.
    + destruct (ltA a2 a1) eqn:E21; [discriminate|].
      rewrite (oA _ _ E12 E21). intros H1.
      destruct (ltA a2 a3); auto. destruct (ltA a3 a2); auto.
      intros H2. eapply tB; eauto.
  - intros [a1 b1] [a2 b2]. unfold lexLt. simpl.
    destruct (ltA a1 a2) eqn:E12; [discriminate|].
    destruct (ltA a2 a1) eqn:E21; [discriminate|].
    intros H1 H2. rewrite (oA _ _ E12 E21), (oB _ _ H1 H2). reflexivity.
Qed.

Lemma compareByID_lex (a b : tableItem) :
  compareByID a b = lexLt Z.ltb Z.ltb (keyByID a) (keyByID b).
Proof.
  unfold compareByID, lexLt, keyByID. simpl. rewrite Z.gtb_ltb. reflexivity.
Qed.

Lemma compareByName_lex (a b : tableItem) :
  compareByName a b =
  lexLt String.ltb (lexLt String.ltb Z.ltb) (keyByName a) (keyByName b).
Proof. reflexivity. Qed.

Lemma TotalLt_keyByID : TotalLt (lexLt Z.ltb Z.ltb).
Proof. apply TotalLt_lex; apply TotalLt_Z. Qed.

Lemma TotalLt_keyByName : TotalLt (lexLt String.ltb (lexLt String.ltb Z.ltb)).
Proof.
  apply TotalLt_lex; [apply TotalLt_string|].
  apply TotalLt_lex; [apply TotalLt_string | apply TotalLt_Z].
Qed.

(** ** Sorted indices *)

Section SortedIndex.
Context {T K : Type}.
Variable key : T -> K.
Variable ltK : K -> K -> bool.
Variable lt : T -> T -> bool.
Hypothesis HK : TotalLt ltK.
Hypothesis Hlt : forall a b, lt a b = ltK (key a) (key b).

Let sorted := StronglySorted (fun a b => lt a b = true).

Lemma sorted_filter (f : T -> bool) (l : list T) :
  sorted l -> sorted (filter f l).
Proof.
  induction 1 as [|a l Hs IH Ha]; simpl; [constructor|].
  destruct (f a); auto. constructor; auto.
  rewrite Forall_forall in *. intros x Hx. apply filter_In in Hx. apply Ha, Hx.
Qed.

Lemma sorted_same_key (l : list T) (x y : T) :
  sorted l -> In x l -> In y l -> key x = key y -> x = y.
Proof.
  induction 1 as [|a l Hs IH Ha]; simpl; [tauto|].
  rewrite Forall_forall in Ha.
  intros [-> | Hx] [-> | Hy] E; auto.
  - specialize (Ha _ Hy). rewrite Hlt, E, (ltK_irrefl _ HK) in Ha. discriminate.
  - specialize (Ha _ Hx). rewrite Hlt, E, (ltK_irrefl _ HK) in Ha. discriminate.
Qed.

Lemma setItems_In (x z : T) (l : list T) :
  In z (setItems lt x l) -> z = x \/ In z l.
Proof.
  induction l as [|y l IH]; simpl.
  - intros [<- | []]. auto.
  - destruct (lt x y).
    + simpl. intros [<- | [<- | H]]; auto.
    + destruct (lt y x); simpl.
      * intros [<- | H]; auto. apply IH in H. tauto.
      * intros [<- | H]; auto.
Qed.

Lemma setItems_new (x : T) (l : list T) : In x (setItems lt x l).
Proof.
  induction l as [|y l IH]; simpl; auto.
  destruct (lt x y); simpl; auto. destruct (lt y x); simpl; auto.
Qed.

Lemma setItems_old (x z : T) (l : list T) :
  In z l -> key z <> key x -> In z (setItems lt x l).
Proof.
  induction l as [|y l IH]; simpl; [tauto|].
  intros Hz Hk. destruct (lt x y) eqn:E1; simpl.
  - tauto.
  - destruct (lt y x) eqn:E2; simpl.
    + destruct Hz; auto.
    + destruct Hz as [-> | Hz]; auto.
      rewrite Hlt in E1, E2. exfalso. apply Hk.
      apply (ltK_total _ HK); auto.
Qed.

Lemma setItems_sorted (x : T) (l : list T) :
  sorted l -> sorted (setItems lt x l).
Proof.
  induction 1 as [|y l Hs IH Hy]; simpl.
  - repeat constructor.
  - rewrite Forall_forall in Hy. destruct (lt x y) eqn:E1.
    + constructor; [constructor; auto; apply Forall_forall; auto|].
      constructor; auto. apply Forall_forall. intros z Hz.
      specialize (Hy _ Hz). rewrite Hlt in *. eapply (ltK_trans _ HK); eauto.
    + destruct (lt y x) eqn:E2.
      * constructor; auto. apply Forall_forall. intros z Hz.
        apply setItems_In in Hz. destruct Hz as [-> | Hz]; auto.
      * constructor; auto. apply Forall_forall. intros z Hz.
        specialize (Hy _ Hz). rewrite Hlt in *.
        rewrite (ltK_total _ HK _ _ E1 E2). exact Hy.
Qed.

(** When whatever lies above a matching item matches too, the matching
    items are the upper end of the list. *)
Variable matches : T -> bool.

Lemma sorted_split (l : list T) :
  sorted l ->
  (forall x y, In x l -> In y l -> lt x y = true ->
               matches x = true -> matches y = true) ->
  l = filter (fun x => negb (matches x)) l ++ filter matches l.
Proof.
  induction 1 as [|a l Hs IH Ha]; intros Hup; simpl; auto.
  rewrite Forall_forall in Ha.
  destruct (matches a) eqn:Ma; simpl.
  - assert (Hall : forall y, In y l -> matches y = true).
    { intros y Hy. apply (Hup a y); simpl; auto. }
    assert (E1 : filter (fun x => negb (matches x)) l = []).
    { clear - Hall. induction l as [|b l IH]; simpl; auto.
      rewrite (Hall b) by (simpl; auto). simpl. apply IH.
      intros y Hy. apply Hall. simpl; auto. }
    assert (E2 : filter matches l = l).
    { clear - Hall. induction l as [|b l IH]; simpl; auto.
      rewrite (Hall b) by (simpl; auto). f_equal. apply IH.
      intros y Hy. apply Hall. simpl; auto. }
    rewrite E1, E2. reflexivity.
  - f_equal. apply IH. intros x y Hx Hy. apply Hup; simpl; auto.
Qed.

End SortedIndex.

(** ** The versioned lookup *)

Section SearchWalk.
Variable ver : Z.
Variable end_ : tableItem.
Variable matchFn : tableItem -> tableItem -> bool.

Lemma walk_search_stop (vis rest : list tableItem) (st : bool * tableItem) :
  Forall (fun x => matchFn end_ x = true) vis ->
  Forall (fun x => matchFn end_ x = false) rest ->
  walk (searchIter ver end_ matchFn) st (vis ++ rest) =
  walk (searchIter ver end_ matchFn) st vis.
Proof.
  intros Hv Hr. revert st. induction Hv as [|x vis Hx Hv IH]; intros [ok tg]; simpl.
  - destruct Hr as [|y rest Hy Hr]; simpl; auto. rewrite Hy. reflexivity.
  - rewrite Hx. simpl.
    destruct (schemaVersion x >? ver); [apply IH|].
    destruct (negb ok); [apply IH|].
    destruct (schemaVersion x >? schemaVersion tg); apply IH.
Qed.

Lemma walk_search_inv (vis : list tableItem) :
  Forall (fun x => matchFn end_ x = true) vis ->
  forall ok tg ok' tg',
    walk (searchIter ver end_ matchFn) (ok, tg) vis = (ok', tg') ->
    (ok = false ->
     (ok' = false /\ tg' = tg /\ forall x, In x vis -> ver < schemaVersion x) \/
     (ok' = true /\ In tg' vis /\ schemaVersion tg' <= ver /\
      forall x, In x vis -> schemaVersion x <= ver ->
                schemaVersion x <= schemaVersion tg')) /\
    (ok = true ->
     ok' = true /\ (tg' = tg \/ In tg' vis /\ schemaVersion tg' <= ver) /\
     schemaVersion tg <= schemaVersion tg' /\
     forall x, In x vis -> schemaVersion x <= ver ->
               schemaVersion x <= schemaVersion tg').
Proof.
  induction 1 as [|x vis Hx Hv IH]; intros ok tg ok' tg' Hw; simpl in Hw.
  - inversion Hw; subst. split; intros ->.
    + left. simpl. tauto.
    + simpl. repeat split; auto; try lia; tauto.
  - rewrite Hx in Hw. simpl in Hw. rewrite Z.gtb_ltb in Hw.
    destruct (Z.ltb_spec ver (schemaVersion x)) as [Hgt | Hle].
    + destruct (IH _ _ _ _ Hw) as [IH1 IH2]. split; intros Hok.
      * destruct (IH1 Hok) as [(-> & -> & Hall) | (-> & Hin & Hle & Hmax)].
        -- left. repeat split; auto. intros y [<- | Hy]; auto.
        -- right. simpl. repeat split; auto.
           intros y [<- | Hy] Hyv; [lia | auto].
      * destruct (IH2 Hok) as (-> & Hor & Hge & Hmax).
        split; [reflexivity|]. split; [|split; [exact Hge|]].
        -- destruct Hor as [-> | [Hin Hl]]; simpl; auto.
        -- intros y [<- | Hy] Hyv; [lia | auto].
    + destruct ok; simpl in Hw.
      * rewrite Z.gtb_ltb in Hw. split; [discriminate|]. intros _.
        destruct (Z.ltb_spec (schemaVersion tg) (schemaVersion x)) as [Hn | Ho];
          destruct (IH _ _ _ _ Hw) as [_ IH2];
          destruct (IH2 eq_refl) as (-> & Hor & Hge & Hmax).
        -- split; [reflexivity|]. split; [|split; [lia|]].
           ++ right. destruct Hor as [-> | [Hin Hl]]; simpl; auto.
           ++ intros y [<- | Hy] Hyv; [lia | auto].
        -- split; [reflexivity|]. split; [|split; [exact Hge|]].
           ++ destruct Hor as [-> | [Hin Hl]]; simpl; auto.
           ++ intros y [<- | Hy] Hyv; [lia | auto].
      * split; [|discriminate]. intros _. right.
        destruct (IH _ _ _ _ Hw) as [_ IH2].
        destruct (IH2 eq_refl) as (-> & Hor & Hge & Hmax).
        split; [reflexivity|]. split; [|split].
        -- destruct Hor as [-> | [Hin Hl]]; simpl; auto.
        -- destruct Hor as [-> | [Hin Hl]]; auto.
        -- intros y [<- | Hy] Hyv; [lia | auto].
Qed.

End SearchWalk.

Section SearchSorted.
Context {K : Type}.
Variable key : tableItem -> K.
Variable ltK : K -> K -> bool.
Hypothesis HK : TotalLt ltK.

Variable bt : BTreeG tableItem.
Hypothesis Hlt : forall a b, less bt a b = ltK (key a) (key b).
Hypothesis Hsorted : sortedIndex bt.

Variable ver : Z.
Variable end_ : tableItem.
Variable matchFn : tableItem -> tableItem -> bool.
Hypothesis Hbelow :
  forall x, In x (items bt) -> matchFn end_ x = true -> less bt end_ x = false.
Hypothesis Hconvex :
  forall x y, less bt x y = true -> less bt end_ y = false ->
              matchFn end_ x = true -> matchFn end_ y = true.
Hypothesis Hkey :
  forall x y, matchFn end_ x = true -> matchFn end_ y = true ->
              schemaVersion x = schemaVersion y -> key x = key y.

Lemma filter_below (l : list tableItem) :
  (forall x, In x l -> matchFn end_ x = true -> less bt end_ x = false) ->
  filter (matchFn end_) l =
  filter (matchFn end_) (filter (fun y => negb (less bt end_ y)) l).
Proof.
  induction l as [|a l IH]; intros Hb; simpl; auto.
  destruct (matchFn end_ a) eqn:Ma.
  - rewrite (Hb a) by (simpl; auto). simpl. rewrite Ma. f_equal.
    apply IH. intros x Hx. apply Hb. simpl; auto.
  - destruct (negb (less bt end_ a)); simpl; [rewrite Ma|];
      apply IH; intros x Hx; apply Hb; simpl; auto.
Qed.

Lemma search_walk :
  Descend bt end_ (searchIter ver end_ matchFn) (false, zeroTableItem) =
  walk (searchIter ver end_ matchFn) (false, zeroTableItem)
       (rev (filter (matchFn end_) (items bt))).
Proof.
  unfold Descend, descendFrom.
  rewrite (filter_below (items bt) Hbelow).
  set (below := filter (fun y => negb (less bt end_ y)) (items bt)).
  assert (Hsb : StronglySorted (fun a b => less bt a b = true) below).
  { apply sorted_filter. exact Hsorted. }
  assert (E : rev below =
              rev (filter (matchFn end_) below) ++
              rev (filter (fun x => negb (matchFn end_ x)) below)).
  { rewrite <- rev_app_distr. f_equal.
    apply (sorted_split (less bt) (matchFn end_) below Hsb).
    intros x y Hx Hy Hxy Mx. apply filter_In in Hy. destruct Hy as [_ Hy].
    apply negb_true_iff in Hy. eapply Hconvex; eauto. }
  rewrite E. apply walk_search_stop.
  - apply Forall_rev. apply Forall_forall. intros x Hx.
    apply filter_In in Hx. tauto.
  - apply Forall_rev. apply Forall_forall. intros x Hx.
    apply filter_In in Hx. destruct Hx as [_ Hx].
    apply negb_true_iff in Hx. exact Hx.
Qed.

Lemma search_latest (e : tableItem) :
  latestMatching (items bt) (matchFn end_) ver e ->
  search bt ver end_ matchFn = (e, negb (tomb e)).
Proof.
  intros (Hin & Hm & Hle & Hmax). unfold search. rewrite search_walk.
  destruct (walk _ _ _) as [ok tg] eqn:Hw.
  assert (Hall : Forall (fun x => matchFn end_ x = true)
                        (rev (filter (matchFn end_) (items bt)))).
  { apply Forall_rev, Forall_forall. intros x Hx. apply filter_In in Hx. tauto. }
  destruct (walk_search_inv ver end_ matchFn _ Hall _ _ _ _ Hw) as [H1 _].
  assert (Hvis : forall x, In x (rev (filter (matchFn end_) (items bt))) <->
                           In x (items bt) /\ matchFn end_ x = true).
  { intros x. rewrite <- in_rev. apply filter_In. }
  destruct (H1 eq_refl) as [(-> & -> & Hnone) | (-> & Htg & Htle & Htmax)].
  - exfalso. specialize (Hnone e). rewrite Hvis in Hnone.
    specialize (Hnone (conj Hin Hm)). lia.
  - apply Hvis in Htg. destruct Htg as [Htin Htm].
    assert (schemaVersion tg = schemaVersion e).
    { apply Z.le_antisymm.
      - apply Hmax; auto.
      - apply Htmax; auto. apply Hvis. auto. }
    assert (tg = e).
    { eapply (sorted_same_key key ltK (less bt) HK Hlt); eauto. }
    subst tg. simpl. destruct (tomb e); reflexivity.
Qed.

Lemma search_none :
  noneMatching (items bt) (matchFn end_) ver ->
  search bt ver end_ matchFn = (zeroTableItem, false).
Proof.
  intros Hnone. unfold search. rewrite search_walk.
  destruct (walk _ _ _) as [ok tg] eqn:Hw.
  assert (Hall : Forall (fun x => matchFn end_ x = true)
                        (rev (filter (matchFn end_) (items bt)))).
  { apply Forall_rev, Forall_forall. intros x Hx. apply filter_In in Hx. tauto. }
  destruct (walk_search_inv ver end_ matchFn _ Hall _ _ _ _ Hw) as [H1 _].
  destruct (H1 eq_refl) as [(-> & -> & _) | (-> & Htg & Htle & _)].
  - reflexivity.
  - rewrite <- in_rev in Htg. apply filter_In in Htg. destruct Htg as [Hi Hm].
    specialize (Hnone _ Hi Hm). lia.
Qed.

End SearchSorted.

Lemma keyMatches_ByID (id : Z) (x : tableItem) :
  keyMatches (ByID id) x = true <-> tableID x = id.
Proof.
  unfold keyMatches, keyEq, keyEnd, eqByID, endByID. simpl.
  rewrite Z.eqb_eq. split; congruence.
Qed.

Lemma keyMatches_ByName (db tbl : string) (x : tableItem) :
  keyMatches (ByName db tbl) x = true <-> dbName x = db /\ tableName x = tbl.
Proof.
  unfold keyMatches, keyEq, keyEnd, eqByName, endByName. simpl.
  rewrite andb_true_iff, !String.eqb_eq. split; intros [? ?]; split; congruence.
Qed.

Lemma keyCompare_lex (k : tableKey) :
  exists (K : Type) (key : tableItem -> K) (ltK : K -> K -> bool),
    TotalLt ltK /\
    (forall a b, keyCompare k a b = ltK (key a) (key b)) /\
    (forall x y, keyMatches k x = true -> keyMatches k y = true ->
                 schemaVersion x = schemaVersion y -> key x = key y).
Proof.
  destruct k as [id | db tbl].
  - exists (Z * Z)%type, keyByID, (lexLt Z.ltb Z.ltb).
    split; [apply TotalLt_keyByID|]. split; [apply compareByID_lex|].
    intros x y Hx Hy Hv. apply keyMatches_ByID in Hx, Hy.
    unfold keyByID. congruence.
  - exists (string * (string * Z))%type, keyByName,
           (lexLt String.ltb (lexLt String.ltb Z.ltb)).
    split; [apply TotalLt_keyByName|]. split; [apply compareByName_lex|].
    intros x y Hx Hy Hv. apply keyMatches_ByName in Hx, Hy.
    unfold keyByName. destruct Hx, Hy. congruence.
Qed.

Lemma keyEnd_below (k : tableKey) (x : tableItem) :
  schemaVersion x <= MaxInt64 ->
  keyMatches k x = true -> keyCompare k (keyEnd k) x = false.
Proof.
  intros Hv Hm. destruct k as [id | db tbl]; simpl.
  - apply keyMatches_ByID in Hm. unfold compareByID, endByID. simpl.
    rewrite Hm, Z.ltb_irrefl, Z.gtb_ltb, Z.ltb_irrefl.
    apply Z.ltb_ge. exact Hv.
  - apply keyMatches_ByName in Hm. destruct Hm as [Hd Ht].
    unfold compareByName, endByName. simpl.
    rewrite Hd, Ht, !(ltK_irrefl _ TotalLt_string).
    apply Z.ltb_ge. exact Hv.
Qed.

Lemma keyEnd_convex (k : tableKey) (x y : tableItem) :
  keyCompare k x y = true -> keyCompare k (keyEnd k) y = false ->
  keyMatches k x = true -> keyMatches k y = true.
Proof.
  destruct k as [id | db tbl]; simpl; intros Hxy Hey Hm.
  - apply keyMatches_ByID in Hm. apply keyMatches_ByID.
    unfold compareByID, endByID in *. simpl in *. rewrite !Z.gtb_ltb in *.
    destruct (Z.ltb_spec (tableID x) (tableID y));
      destruct (Z.ltb_spec (tableID y) (tableID x));
      destruct (Z.ltb_spec id (tableID y));
      destruct (Z.ltb_spec (tableID y) id); try discriminate; lia.
  - apply keyMatches_ByName in Hm. destruct Hm as [Hd Ht]. apply keyMatches_ByName.
    unfold compareByName, endByName in *. simpl in *. subst db tbl.
    pose proof TotalLt_string as [Si St So].
    destruct (String.ltb (dbName y) (dbName x)) eqn:E1.
    + destruct (String.ltb (dbName x) (dbName y)) eqn:E2; [|discriminate].
      pose proof (St _ _ _ E1 E2) as F. rewrite Si in F. discriminate.
    + destruct (String.ltb (dbName x) (dbName y)) eqn:E2; [discriminate|].
      pose proof (So _ _ E1 E2) as Ed. split; [exact Ed|].
      rewrite Ed in *.
      destruct (String.ltb (tableName y) (tableName x)) eqn:E3.
      * destruct (String.ltb (tableName x) (tableName y)) eqn:E4; [|discriminate].
        pose proof (St _ _ _ E3 E4) as F. rewrite Si in F. discriminate.
      * destruct (String.ltb (tableName x) (tableName y)) eqn:E4; [discriminate|].
        apply So; auto.
Qed.

Lemma selects_total (l : list tableItem) (k : tableKey) (V : Z) :
  exists r, selects l k V r.
Proof.
  induction l as [|a l [r Hr]].
  - exists None. intros e [].
  - destruct (keyMatches k a && (schemaVersion a <=? V)) eqn:Ea.
    + apply andb_true_iff in Ea. destruct Ea as [Ma Va]. apply Z.leb_le in Va.
      destruct r as [e|]; simpl in Hr.
      * destruct Hr as (Hin & Hm & Hle & Hmax).
        destruct (Z.le_gt_cases (schemaVersion a) (schemaVersion e)).
        -- exists (Some e). split; [right; exact Hin|]. split; [exact Hm|].
           split; [exact Hle|]. intros e' [<- | He'] Hm' Hv'; auto.
        -- exists (Some a). split; [left; reflexivity|]. split; [exact Ma|].
           split; [exact Va|].
           intros e' [<- | He'] Hm' Hv'; [lia|]. specialize (Hmax _ He' Hm' Hv'). lia.
      * exists (Some a). split; [left; reflexivity|]. split; [exact Ma|].
        split; [exact Va|].
        intros e' [<- | He'] Hm' Hv'; [lia|]. specialize (Hr _ He' Hm'). lia.
    + exists r. destruct r as [e|]; simpl in *.
      * destruct Hr as (Hin & Hm & Hle & Hmax).
        split; [right; exact Hin|]. split; [exact Hm|]. split; [exact Hle|].
        intros e' [<- | He'] Hm' Hv'; auto.
        rewrite Hm' in Ea. simpl in Ea. apply Z.leb_gt in Ea. lia.
      * intros e' [<- | He'] Hm'; auto.
        rewrite Hm' in Ea. simpl in Ea. apply Z.leb_gt in Ea. lia.
Qed.

Lemma search_selects (bt : BTreeG tableItem) (V : Z) (k : tableKey)
      (r : option tableItem) :
  wfTableIndex (keyCompare k) bt ->
  selects (items bt) k V r ->
  search bt V (keyEnd k) (keyEq k) = reported r.
Proof.
  intros (Hless & Hsorted & Hver) Hsel.
  destruct (keyCompare_lex k) as (K & key & ltK & HK & Hlex & Hkey).
  rewrite Forall_forall in Hver.
  assert (Hlt : forall a b, less bt a b = ltK (key a) (key b)).
  { intros a b. rewrite Hless. apply Hlex. }
  assert (Hbelow : forall x, In x (items bt) -> keyEq k (keyEnd k) x = true ->
                             less bt (keyEnd k) x = false).
  { intros x Hx Hm. rewrite Hless. apply keyEnd_below; auto. }
  assert (Hconvex : forall x y, less bt x y = true -> less bt (keyEnd k) y = false ->
                                keyEq k (keyEnd k) x = true ->
                                keyEq k (keyEnd k) y = true).
  { rewrite Hless. apply keyEnd_convex. }
  destruct r as [e|]; simpl in *.
  - eapply (search_latest key ltK HK bt Hlt Hsorted); eauto.
  - eapply (search_none bt Hsorted); eauto.
Qed.

Lemma selects_unique (bt : BTreeG tableItem) (k : tableKey) (V : Z)
      (r1 r2 : option tableItem) :
  wfTableIndex (keyCompare k) bt ->
  selects (items bt) k V r1 -> selects (items bt) k V r2 -> r1 = r2.
Proof.
  intros Hwf H1 H2.
  destruct r1 as [e1|], r2 as [e2|]; simpl in *; auto.
  - pose proof (search_selects bt V k (Some e1) Hwf H1) as E1.
    pose proof (search_selects bt V k (Some e2) Hwf H2) as E2.
    rewrite E1 in E2. simpl in E2. congruence.
  - destruct H1 as (Hin & Hm & Hle & _). specialize (H2 _ Hin Hm). lia.
  - destruct H2 as (Hin & Hm & Hle & _). specialize (H1 _ Hin Hm). lia.
Qed.

(** C3: over a table index, the lookup seeded at the key with the largest
    version selects, among the entries matching the key whose version is at
    most [V], the one of largest version; it reports it present unless it is
    a tomb, and reports absent when there is no such entry. *)
Theorem C3_search_selects_latest :
  forall (bt : BTreeG tableItem) (V : Z) (k : tableKey) (r : option tableItem),
    wfTableIndex (keyCompare k) bt ->
    selects (items bt) k V r ->
    search bt V (keyEnd k) (keyEq k) = reported r /\
    (forall r', selects (items bt) k V r' -> r' = r).
Proof.
  intros bt V k r Hwf Hsel. split.
  - apply search_selects; assumption.
  - intros r' Hsel'. eapply selects_unique; eauto.
Qed.

(** ** Writing to a table index *)

Lemma btSet_wf (k : tableKey) (bt : BTreeG tableItem) (n : tableItem) :
  wfTableIndex (keyCompare k) bt ->
  schemaVersion n <= MaxInt64 ->
  wfTableIndex (keyCompare k) (btSet bt n).
Proof.
  intros (Hless & Hsorted & Hver) Hn.
  destruct (keyCompare_lex k) as (K & key & ltK & HK & Hlex & _).
  assert (Hlt : forall a b, less bt a b = ltK (key a) (key b)).
  { intros a b. rewrite Hless. apply Hlex. }
  split; [exact Hless|]. split.
  - unfold sortedIndex, btSet. simpl.
    apply (setItems_sorted key ltK (less bt) HK Hlt). exact Hsorted.
  - unfold btSet. simpl. apply Forall_forall. intros z Hz.
    apply setItems_In in Hz. rewrite Forall_forall in Hver.
    destruct Hz as [-> | Hz]; auto.
Qed.

Lemma btSet_In (bt : BTreeG tableItem) (n z : tableItem) :
  In z (items (btSet bt n)) -> z = n \/ In z (items bt).
Proof. unfold btSet. simpl. apply setItems_In. Qed.

Lemma btSet_new (bt : BTreeG tableItem) (n : tableItem) :
  In n (items (btSet bt n)).
Proof. unfold btSet. simpl. apply setItems_new. Qed.

Lemma btSet_old (k : tableKey) (bt : BTreeG tableItem) (n z : tableItem) :
  less bt = keyCompare k ->
  In z (items bt) -> schemaVersion z <> schemaVersion n ->
  In z (items (btSet bt n)).
Proof.
  intros Hless Hz Hv.
  destruct k as [id | db tbl]; simpl in Hless.
  - apply (setItems_old keyByID (lexLt Z.ltb Z.ltb) (less bt) TotalLt_keyByID); auto.
    + intros a b. rewrite Hless. apply compareByID_lex.
    + unfold keyByID. congruence.
  - apply (setItems_old keyByName (lexLt String.ltb (lexLt String.ltb Z.ltb))
                        (less bt) TotalLt_keyByName); auto.
    + intros a b. rewrite Hless. apply compareByName_lex.
    + unfold keyByName. congruence.
Qed.

Lemma NewData_wf : wfTables NewData.
Proof.
  split; (split; [reflexivity|]; split; [constructor|constructor]).
Qed.

Lemma add_wf (env : Env) (d : Data) (item : tableItem) (tbl : Table) :
  wfTables d -> schemaVersion item <= MaxInt64 -> wfTables (add env d item tbl).
Proof.
  intros [H1 H2] Hv. split; simpl.
  - apply (btSet_wf (ByID 0)); auto.
  - apply (btSet_wf (ByName EmptyString EmptyString)); auto.
Qed.

Lemma remove_wf (d : Data) (item : tableItem) :
  wfTables d -> schemaVersion item <= MaxInt64 -> wfTables (remove d item).
Proof.
  intros [H1 H2] Hv. split; simpl.
  - apply (btSet_wf (ByID 0)); auto.
  - apply (btSet_wf (ByName EmptyString EmptyString)); auto.
Qed.

(** A write at a version leaves every selection below that version as it
    was. *)
Lemma selects_btSet_below (k k' : tableKey) (bt : BTreeG tableItem)
      (n : tableItem) (V : Z) (r : option tableItem) :
  less bt = keyCompare k' ->
  V < schemaVersion n ->
  selects (items (btSet bt n)) k V r <-> selects (items bt) k V r.
Proof.
  intros Hless HV.
  assert (Hfwd : forall z, In z (items (btSet bt n)) -> schemaVersion z <= V ->
                           In z (items bt)).
  { intros z Hz Hzv. apply btSet_In in Hz. destruct Hz as [-> | Hz]; auto. lia. }
  assert (Hbwd : forall z, In z (items bt) -> schemaVersion z <= V ->
                           In z (items (btSet bt n))).
  { intros z Hz Hzv. apply (btSet_old k'); auto. lia. }
  destruct r as [e|]; simpl.
  - split; intros (Hin & Hm & Hle & Hmax).
    + split; [auto|]. split; [auto|]. split; [auto|].
      intros e' He' Hm' Hv'. apply Hmax; auto.
    + split; [auto|]. split; [auto|]. split; [auto|].
      intros e' He' Hm' Hv'. apply Hmax; auto.
  - split; intros Hnone e He Hm.
    + destruct (Z.le_gt_cases (schemaVersion e) V); [|lia].
      apply Hnone; auto.
    + destruct (Z.le_gt_cases (schemaVersion e) V); [|lia].
      apply Hnone; auto.
Qed.

(** A write at a version above everything recorded for its key is what
    every snapshot from that version on selects under that key. *)
Lemma selects_btSet_newest (k : tableKey) (bt : BTreeG tableItem)
      (n : tableItem) (V : Z) :
  keyMatches k n = true ->
  (forall e, In e (items bt) -> keyMatches k e = true ->
             schemaVersion e <= schemaVersion n) ->
  schemaVersion n <= V ->
  selects (items (btSet bt n)) k V (Some n).
Proof.
  intros Hm Hnew HV. simpl. split; [apply btSet_new|]. split; [exact Hm|].
  split; [exact HV|]. intros e' He' Hm' Hv'.
  apply btSet_In in He'. destruct He' as [-> | He']; [lia|]. apply Hnew; auto.
Qed.

(** A write under another key leaves the selection untouched, provided its
    version is new to the index. *)
Lemma selects_btSet_other (k k' : tableKey) (bt : BTreeG tableItem)
      (n : tableItem) (V : Z) (r : option tableItem) :
  less bt = keyCompare k' ->
  keyMatches k n = false ->
  (forall e, In e (items bt) -> schemaVersion e <> schemaVersion n) ->
  selects (items (btSet bt n)) k V r <-> selects (items bt) k V r.
Proof.
  intros Hless Hn Hfresh.
  assert (Hfwd : forall z, In z (items (btSet bt n)) -> keyMatches k z = true ->
                           In z (items bt)).
  { intros z Hz Hzm. apply btSet_In in Hz. destruct Hz as [-> | Hz]; auto. congruence. }
  assert (Hbwd : forall z, In z (items bt) -> In z (items (btSet bt n))).
  { intros z Hz. apply (btSet_old k'); auto. }
  destruct r as [e|]; simpl.
  - split; intros (Hin & Hm & Hle & Hmax).
    + split; [auto|]. split; [auto|]. split; [auto|].
      intros e' He' Hm' Hv'. apply Hmax; auto.
    + split; [auto|]. split; [auto|]. split; [auto|].
      intros e' He' Hm' Hv'. apply Hmax; auto.
  - split; intros Hnone e He Hm; apply Hnone; auto.
Qed.

Lemma search_reported_present (bt : BTreeG tableItem) (V : Z) (k : tableKey)
      (e : tableItem) :
  wfTableIndex (keyCompare k) bt ->
  (search bt V (keyEnd k) (keyEq k) = (e, true) <->
   selects (items bt) k V (Some e) /\ tomb e = false).
Proof.
  intros Hwf. split.
  - intros Hs. destruct (selects_total (items bt) k V) as [r Hr].
    rewrite (search_selects bt V k r Hwf Hr) in Hs.
    destruct r as [e'|]; simpl in Hs; [|discriminate].
    inversion Hs; subst. split; auto. destruct (tomb e); auto; discriminate.
  - intros [Hsel Ht]. rewrite (search_selects bt V k (Some e) Hwf Hsel).
    simpl. rewrite Ht. reflexivity.
Qed.

Lemma selects_above (l : list tableItem) (k : tableKey) (V1 V2 : Z)
      (r : option tableItem) :
  (forall e, In e l -> schemaVersion e <= V1) -> V1 <= V2 ->
  selects l k V2 r <-> selects l k V1 r.
Proof.
  intros Hall HV. destruct r as [e|]; simpl.
  - split; intros (Hin & Hm & Hle & Hmax).
    + split; [auto|]. split; [auto|]. split; [auto|].
      intros e' He' Hm' Hv'. apply Hmax; auto. lia.
    + split; [auto|]. split; [auto|]. split; [lia|].
      intros e' He' Hm' Hv'. apply Hmax; auto.
  - split; intros Hnone e He Hm.
    + specialize (Hnone _ He Hm). lia.
    + specialize (Hnone _ He Hm). specialize (Hall _ He). lia.
Qed.

Lemma keyMatches_own_id (e : tableItem) : keyMatches (ByID (tableID e)) e = true.
Proof. apply keyMatches_ByID. reflexivity. Qed.

Lemma keyMatches_own_name (e : tableItem) :
  keyMatches (ByName (dbName e) (tableName e)) e = true.
Proof. apply keyMatches_ByName. auto. Qed.

Lemma noConflict_id (d : Data) (item e : tableItem) :
  wfTables d ->
  noConflict d item = true ->
  selects (items (byID d)) (ByID (tableID item)) (schemaVersion item) (Some e) ->
  tomb e = false ->
  dbName e = dbName item /\ tableName e = tableName item.
Proof.
  intros [Hwf _] Hc Hsel Ht. unfold noConflict in Hc.
  apply andb_true_iff in Hc. destruct Hc as [Hc _].
  assert (E : search (byID d) (schemaVersion item) (endByID (tableID item)) eqByID
              = (e, true)).
  { apply (search_reported_present (byID d) _ (ByID (tableID item))); auto. }
  rewrite E in Hc. unfold eqByName in Hc. apply andb_true_iff in Hc.
  destruct Hc as [H1 H2]. apply String.eqb_eq in H1, H2. auto.
Qed.

Lemma noConflict_name (d : Data) (item e : tableItem) :
  wfTables d ->
  noConflict d item = true ->
  selects (items (byName d)) (ByName (dbName item) (tableName item))
          (schemaVersion item) (Some e) ->
  tomb e = false ->
  tableID e = tableID item.
Proof.
  intros [_ Hwf] Hc Hsel Ht. unfold noConflict in Hc.
  apply andb_true_iff in Hc. destruct Hc as [_ Hc].
  assert (E : search (byName d) (schemaVersion item)
                     (endByName (dbName item) (tableName item)) eqByName
              = (e, true)).
  { apply (search_reported_present (byName d) _
             (ByName (dbName item) (tableName item))); auto. }
  rewrite E in Hc. apply Z.eqb_eq in Hc. exact Hc.
Qed.

Lemma below_le (d : Data) (v : Z) :
  below d v ->
  (forall e, In e (items (byID d)) -> schemaVersion e <= v) /\
  (forall e, In e (items (byName d)) -> schemaVersion e <= v).
Proof.
  intros [H1 H2]. split; intros e He; [specialize (H1 _ He)|specialize (H2 _ He)]; lia.
Qed.

(** One write that respects [noConflict], at a version above everything
    recorded, keeps the two indices in agreement. *)
Lemma agreeAt_step (d d' : Data) (item n : tableItem) :
  wfTables d -> wfTables d' ->
  (forall V, agreeAt d V) ->
  below d (schemaVersion item) ->
  noConflict d item = true ->
  tableID n = tableID item -> dbName n = dbName item ->
  tableName n = tableName item -> schemaVersion n = schemaVersion item ->
  writesBoth d n d' ->
  forall V, agreeAt d' V.
Proof.
  intros Hwf Hwf' Hag Hbelow Hnc Hid Hdb Htb Hv [EI EN] V e Hlive.
  destruct Hwf as [WI WN]. destruct Hwf' as [WI' WN'].
  pose proof WI as (LI & _ & _). pose proof WN as (LN & _ & _).
  destruct (below_le _ _ Hbelow) as [BI BN]. destruct Hbelow as [SI SN].
  rewrite EI, EN in *.
  destruct (Z.lt_ge_cases V (schemaVersion n)) as [Hlt | Hge].
  - rewrite (selects_btSet_below _ (ByID 0)) by auto.
    rewrite (selects_btSet_below _ (ByName EmptyString EmptyString)) by auto.
    apply (Hag V e Hlive).
  - assert (FI : forall x, In x (items (byID d)) -> schemaVersion x <> schemaVersion n).
    { intros x Hx. specialize (SI _ Hx). lia. }
    assert (FN : forall x, In x (items (byName d)) -> schemaVersion x <> schemaVersion n).
    { intros x Hx. specialize (SN _ Hx). lia. }
    assert (NI : forall k, keyMatches k n = true ->
                           selects (items (btSet (byID d) n)) k V (Some n)).
    { intros k Hk. apply selects_btSet_newest; auto.
      intros x Hx _. specialize (SI _ Hx). lia. }
    assert (NN : forall k, keyMatches k n = true ->
                           selects (items (btSet (byName d) n)) k V (Some n)).
    { intros k Hk. apply selects_btSet_newest; auto.
      intros x Hx _. specialize (SN _ Hx). lia. }
    split; intros Hsel.
    + destruct (keyMatches (ByID (tableID e)) n) eqn:Mi.
      * assert (Some e = Some n).
        { eapply (selects_unique _ (ByID (tableID e))); eauto. }
        inversion H; subst e. apply NN. apply keyMatches_own_name.
      * rewrite (selects_btSet_other _ (ByID 0)) in Hsel; auto.
        apply (Hag V e Hlive) in Hsel.
        destruct (keyMatches (ByName (dbName e) (tableName e)) n) eqn:Mn.
        -- exfalso. apply keyMatches_ByName in Mn. destruct Mn as [Md Mt].
           assert (tableID e = tableID item).
           { apply (noConflict_name d item e); auto; [split; auto|].
             rewrite <- Hdb, <- Htb, Md, Mt, <- Hv.
             apply (selects_above _ _ (schemaVersion n) V); auto.
             rewrite Hv. exact BN. }
           assert (keyMatches (ByID (tableID e)) n = true)
             by (apply keyMatches_ByID; congruence).
           congruence.
        -- rewrite (selects_btSet_other _ (ByName EmptyString EmptyString)); auto.
    + destruct (keyMatches (ByName (dbName e) (tableName e)) n) eqn:Mn.
      * assert (Some e = Some n).
        { eapply (selects_unique _ (ByName (dbName e) (tableName e))); eauto. }
        inversion H; subst e. apply NI. apply keyMatches_own_id.
      * rewrite (selects_btSet_other _ (ByName EmptyString EmptyString)) in Hsel; auto.
        apply (Hag V e Hlive) in Hsel.
        destruct (keyMatches (ByID (tableID e)) n) eqn:Mi.
        -- exfalso. apply keyMatches_ByID in Mi.
           assert (dbName e = dbName item /\ tableName e = tableName item).
           { apply (noConflict_id d item e); auto; [split; auto|].
             rewrite <- Hid, Mi, <- Hv.
             apply (selects_above _ _ (schemaVersion n) V); auto.
             rewrite Hv. exact BI. }
           assert (keyMatches (ByName (dbName e) (tableName e)) n = true).
           { apply keyMatches_ByName. destruct H. split; congruence. }
           congruence.
        -- rewrite (selects_btSet_other _ (ByID 0)); auto.
Qed.

(** ** Sequences of mutations *)

Lemma applyMutation_writesBoth (env : Env) (d : Data) (m : mutation) :
  exists n,
    writesBoth d n (applyMutation env d m) /\
    tableID n = tableID (mutItem m) /\ dbName n = dbName (mutItem m) /\
    tableName n = tableName (mutItem m) /\
    schemaVersion n = schemaVersion (mutItem m).
Proof.
  destruct m as [item tbl | item]; simpl.
  - exists item. repeat split.
  - exists (asTomb item). repeat split.
Qed.

Lemma applyMutation_wf (env : Env) (d : Data) (m : mutation) :
  wfTables d -> mutVersion m <= MaxInt64 -> wfTables (applyMutation env d m).
Proof.
  destruct m; simpl; intros; [apply add_wf | apply remove_wf]; auto.
Qed.

Lemma applyMutation_below (env : Env) (d : Data) (m : mutation) (v : Z) :
  below d v -> mutVersion m < v -> below (applyMutation env d m) v.
Proof.
  intros [H1 H2] Hv.
  destruct (applyMutation_writesBoth env d m) as (n & [EI EN] & _ & _ & _ & Hn).
  split; intros e He; [rewrite EI in He | rewrite EN in He];
    apply btSet_In in He; destruct He as [-> | He]; auto;
    unfold mutVersion in Hv; lia.
Qed.

Lemma run_agree (env : Env) :
  forall ms d,
    wfTables d -> (forall V, agreeAt d V) ->
    (forall m, In m ms -> below d (mutVersion m)) ->
    increasing ms -> disciplined env d ms = true ->
    wfTables (run env d ms) /\ forall V, agreeAt (run env d ms) V.
Proof.
  induction ms as [|m ms IH]; intros d Hwf Hag Hbel [Hinc Hmax] Hdis; simpl.
  - auto.
  - simpl in Hdis. apply andb_true_iff in Hdis. destruct Hdis as [Hnc Hdis].
    simpl in Hinc. apply StronglySorted_inv in Hinc. destruct Hinc as [Hinc Hm].
    inversion Hmax as [|? ? Hm0 Hmax']; subst.
    assert (Hwf' : wfTables (applyMutation env d m))
      by (apply applyMutation_wf; auto).
    destruct (applyMutation_writesBoth env d m) as (n & Hw & Hid & Hdb & Htb & Hv).
    apply IH; auto.
    + apply (agreeAt_step d (applyMutation env d m) (mutItem m) n); auto.
      apply (Hbel m). simpl. auto.
    + intros m' Hm'. apply applyMutation_below.
      * apply Hbel. simpl. auto.
      * rewrite Forall_forall in Hm. apply Hm. apply in_map. exact Hm'.
    + split; auto.
Qed.

Lemma agreeAt_NewData (V : Z) : agreeAt NewData V.
Proof.
  intros e _. simpl. split; intros (Hin & _); destruct Hin.
Qed.

Lemma agreeAt_lookupsAgree (d : Data) (V : Z) :
  wfTables d -> agreeAt d V -> lookupsAgree d V.
Proof.
  intros [WI WN] Hag. split.
  - intros id e Hs.
    apply (search_reported_present (byID d) V (ByID id) e WI) in Hs.
    destruct Hs as [Hsel Ht].
    assert (tableID e = id).
    { destruct Hsel as (_ & Hm & _). apply keyMatches_ByID in Hm. exact Hm. }
    subst id. apply Hag in Hsel; auto.
    apply (search_reported_present (byName d) V
             (ByName (dbName e) (tableName e)) e WN). auto.
  - intros db tbl e Hs.
    apply (search_reported_present (byName d) V (ByName db tbl) e WN) in Hs.
    destruct Hs as [Hsel Ht].
    assert (dbName e = db /\ tableName e = tbl).
    { destruct Hsel as (_ & Hm & _). apply keyMatches_ByName in Hm. exact Hm. }
    destruct H; subst db tbl. apply Hag in Hsel; auto.
    apply (search_reported_present (byID d) V (ByID (tableID e)) e WI). auto.
Qed.

(** C2, as amended: for every sequence of [add] / [remove] at strictly
    increasing versions in which no mutation clashes with a visible binding
    of its id or of its names, and for every snapshot version, the by-id and
    the by-name lookup agree on existence and on the entry they find. *)
Theorem C2_lookups_agree :
  forall (env : Env) (ms : list mutation) (V : Z),
    increasing ms ->
    disciplined env NewData ms = true ->
    lookupsAgree (run env NewData ms) V.
Proof.
  intros env ms V Hinc Hdis.
  destruct (run_agree env ms NewData) as [Hwf Hag]; auto.
  - apply NewData_wf.
  - apply agreeAt_NewData.
  - intros m _. split; intros e [].
  - apply agreeAt_lookupsAgree; auto.
Qed.

(** C2, as stated, fails: two tables added under the same name at versions 1
    and 2 leave table 1 visible by id while its name finds table 2. *)
Lemma C2_counterexample :
  let ms := [ Add (sampleItem "test" "t" 1 1) (sampleTable 1 "t" false);
              Add (sampleItem "test" "t" 2 2) (sampleTable 2 "t" false) ] in
  increasing ms /\ ~ lookupsAgree (run sampleEnv NewData ms) 2.
Proof.
  split.
  - split; repeat constructor; unfold mutVersion; simpl; unfold MaxInt64; lia.
  - intros [H _].
    specialize (H 1 (sampleItem "test" "t" 1 1) eq_refl).
    vm_compute in H. discriminate.
Qed.

Lemma C2_lookups_agree_witness :
  let ms := [ Add (sampleItem "test" "t" 1 1) (sampleTable 1 "t" false);
              Remove (sampleItem "test" "t" 1 2);
              Add (sampleItem "test" "t" 2 3) (sampleTable 2 "t" false) ] in
  lookupsAgree (run sampleEnv NewData ms) 3.
Proof.
  apply C2_lookups_agree.
  - split; repeat constructor; unfold mutVersion; simpl; unfold MaxInt64; lia.
  - vm_compute. reflexivity.
Defined.

(** ** The cache *)

Lemma tableCacheKey_eqb_eq (a b : tableCacheKey) :
  tableCacheKey_eqb a b = true <-> a = b.
Proof.
  unfold tableCacheKey_eqb. rewrite andb_true_iff, !Z.eqb_eq.
  destruct a, b; simpl. split.
  - intros [-> ->]. reflexivity.
  - intros E. inversion E. auto.
Qed.

Lemma cached_sieveRemove_same (c : Sieve) (k : tableCacheKey) :
  cached (sieveRemove c k) k = None.
Proof.
  unfold cached, sieveRemove. simpl.
  induction (entries c) as [|e l IH]; simpl; auto.
  destruct (tableCacheKey_eqb (se_key e) k) eqn:E; simpl; auto.
  rewrite E. exact IH.
Qed.

Lemma cached_sieveRemove_other (c : Sieve) (k k' : tableCacheKey) :
  k' <> k -> cached (sieveRemove c k) k' = cached c k'.
Proof.
  intros Hne. unfold cached, sieveRemove. simpl.
  induction (entries c) as [|e l IH]; simpl; auto.
  destruct (tableCacheKey_eqb (se_key e) k) eqn:E; simpl.
  - apply tableCacheKey_eqb_eq in E.
    destruct (tableCacheKey_eqb (se_key e) k') eqn:E'; auto.
    apply tableCacheKey_eqb_eq in E'. congruence.
  - destruct (tableCacheKey_eqb (se_key e) k'); auto.
Qed.

Lemma withTableCache_same (d : Data) : withTableCache d (tableCache d) = d.
Proof. destruct d. reflexivity. Qed.

Lemma sieveGet_miss (c : Sieve) (k : tableCacheKey) :
  cached c k = None -> sieveGet c k = (None, c).
Proof. unfold sieveGet, cached. intros ->. reflexivity. Qed.

Lemma cacheGet_miss (d : Data) (k : tableCacheKey) :
  cached (tableCache d) k = None ->
  cacheGet k d = Returned None d [EvCacheGet k].
Proof.
  intros H. unfold cacheGet. rewrite (sieveGet_miss _ _ H), withTableCache_same.
  reflexivity.
Qed.

Lemma cacheGet_hit (d : Data) (k : tableCacheKey) (t : Table) :
  cached (tableCache d) k = Some t ->
  exists d', cacheGet k d = Returned (Some t) d' [EvCacheGet k].
Proof.
  intros H. unfold cacheGet, sieveGet. unfold cached in H. rewrite H.
  eexists. reflexivity.
Qed.

(** ** What the lookups answer *)

Lemma walk_search_le (ver : Z) (end_ : tableItem)
      (matchFn : tableItem -> tableItem -> bool) (l : list tableItem) :
  forall ok tg ok' tg',
    walk (searchIter ver end_ matchFn) (ok, tg) l = (ok', tg') ->
    (ok = true -> schemaVersion tg <= ver) ->
    ok' = true -> schemaVersion tg' <= ver.
Proof.
  induction l as [|x l IH]; intros ok tg ok' tg' Hw Hinv Hok'; simpl in Hw.
  - inversion Hw; subst. auto.
  - destruct (matchFn end_ x); simpl in Hw.
    + rewrite Z.gtb_ltb in Hw.
      destruct (Z.ltb_spec ver (schemaVersion x)).
      * eapply IH; eauto.
      * destruct ok; simpl in Hw.
        -- destruct (schemaVersion x >? schemaVersion tg); eapply IH; eauto.
        -- eapply IH; eauto.
    + inversion Hw; subst. auto.
Qed.

Lemma search_version_le (bt : BTreeG tableItem) (ver : Z) (end_ : tableItem)
      (matchFn : tableItem -> tableItem -> bool) (itm : tableItem) :
  search bt ver end_ matchFn = (itm, true) -> schemaVersion itm <= ver.
Proof.
  unfold search, Descend.
  destruct (walk _ _ _) as [ok tg] eqn:Hw. intros Hs.
  assert (ok = true /\ tg = itm).
  { destruct ok; simpl in Hs; [destruct (tomb tg)|]; inversion Hs; auto. }
  destruct H as [-> ->].
  eapply walk_search_le; eauto. discriminate.
Qed.

Section LookupAnswers.
Variable env : Env.
Variable fuel : nat.
Variable is_ : infoschemaV2.

Lemma tableByID_invalid (id : Z) (noRefill : bool) (d : Data) :
  tableIDIsValid env id = false ->
  tableByID env fuel is_ id noRefill d = Returned (None, false) d [].
Proof. intros H. unfold tableByID. rewrite H. reflexivity. Qed.

Lemma tableByID_absent (id : Z) (noRefill : bool) (d : Data) :
  tableIDIsValid env id = true ->
  cached (tableCache d)
         {| tck_tableID := id; tck_schemaVersion := schemaMetaVersion is_ |} = None ->
  snd (search (byID d) (schemaMetaVersion is_) (endByID id) eqByID) = false ->
  tableByID env fuel is_ id noRefill d =
  Returned (None, false) d
           [EvCacheGet {| tck_tableID := id;
                          tck_schemaVersion := schemaMetaVersion is_ |};
            EvSearchByID id].
Proof.
  intros Hv Hc Hs. unfold tableByID. rewrite Hv. simpl.
  unfold bind. rewrite (cacheGet_miss _ _ Hc). unfold searchByID.
  destruct (search _ _ _ _) as [itm ok]. simpl in Hs. subst ok. reflexivity.
Qed.

Lemma TableByName_absent (schema tbl : model.CIStr) (d : Data) :
  IsSpecialDB env (model.L schema) = false ->
  snd (search (byName d) (schemaMetaVersion is_)
              (endByName (model.L schema) (model.L tbl)) eqByName) = false ->
  TableByName env fuel is_ schema tbl d =
  Returned (inr ErrTableNotExists) d
           [EvSearchByName (model.L schema) (model.L tbl)].
Proof.
  intros Hsp Hs. unfold TableByName. rewrite Hsp. unfold bind, searchByName.
  destruct (search _ _ _ _) as [itm ok]. simpl in Hs. subst ok. reflexivity.
Qed.

End LookupAnswers.

(** ** Lookups over stores that look alike *)

Lemma observe_bind_ext {A B : Type} (m1 m2 : M A) (k1 k2 : A -> M B)
      (d1 d2 d1' d2' : Data) (a : A) (tr : list event) :
  m1 d1 = Returned a d1' tr -> m2 d2 = Returned a d2' tr ->
  observe (k1 a d1') = observe (k2 a d2') ->
  observe (bind m1 k1 d1) = observe (bind m2 k2 d2).
Proof.
  intros E1 E2 Hk. unfold bind. rewrite E1, E2.
  destruct (k1 a d1'), (k2 a d2'); simpl in *; congruence.
Qed.

Lemma observe_refill (env : Env) (b : bool) (k : tableCacheKey) (t : Table)
      {A : Type} (a : A) (d1 d2 : Data) :
  observe (bind (if b then cacheSet env k t else ret tt) (fun _ => ret a) d1) =
  observe (bind (if b then cacheSet env k t else ret tt) (fun _ => ret a) d2).
Proof. destruct b; reflexivity. Qed.

Section LookupExt.
Variable env : Env.
Variable fuel : nat.
Variable is_ : infoschemaV2.
Variables d1 d2 : Data.

Hypothesis Hspecials : specials d1 = specials d2.
Hypothesis Hcache :
  forall k, tck_schemaVersion k <= schemaMetaVersion is_ ->
            cached (tableCache d1) k = cached (tableCache d2) k.

Lemma cacheGet_ext (k : tableCacheKey) :
  tck_schemaVersion k <= schemaMetaVersion is_ ->
  (cached (tableCache d1) k = None /\
   cacheGet k d1 = Returned None d1 [EvCacheGet k] /\
   cacheGet k d2 = Returned None d2 [EvCacheGet k]) \/
  (exists t d1' d2',
      cacheGet k d1 = Returned (Some t) d1' [EvCacheGet k] /\
      cacheGet k d2 = Returned (Some t) d2' [EvCacheGet k]).
Proof.
  intros Hk. pose proof (Hcache k Hk) as E.
  destruct (cached (tableCache d1) k) as [t|] eqn:C1.
  - right. symmetry in E.
    destruct (cacheGet_hit d1 k t C1) as [d1' E1].
    destruct (cacheGet_hit d2 k t E) as [d2' E2].
    exists t, d1', d2'. auto.
  - left. symmetry in E. split; [reflexivity|].
    split; apply cacheGet_miss; auto.
Qed.

Lemma loadTableInfo_ext {A : Type} (tblID dbID ts ver : Z)
      (k1 k2 : Table + error -> M A) :
  (forall r e1 e2, observe (k1 r e1) = observe (k2 r e2)) ->
  observe (bind (loadTableInfo env fuel tblID dbID ts ver) k1 d1) =
  observe (bind (loadTableInfo env fuel tblID dbID ts ver) k2 d2).
Proof.
  intros Hk. unfold bind, loadTableInfo.
  destruct (loadTableRetry env fuel 0 tblID dbID ts) as [[r|]|]; try reflexivity.
  specialize (Hk r d1 d2).
  destruct (k1 r d1), (k2 r d2); simpl in *; congruence.
Qed.

Lemma tableByID_ext (id : Z) (noRefill : bool) :
  search (byID d1) (schemaMetaVersion is_) (endByID id) eqByID =
  search (byID d2) (schemaMetaVersion is_) (endByID id) eqByID ->
  observe (tableByID env fuel is_ id noRefill d1) =
  observe (tableByID env fuel is_ id noRefill d2).
Proof.
  intros Hs. unfold tableByID.
  destruct (tableIDIsValid env id); simpl; [|reflexivity].
  set (key := {| tck_tableID := id; tck_schemaVersion := schemaMetaVersion is_ |}).
  destruct (cacheGet_ext key) as [(_ & E1 & E2) | (t & d1' & d2' & E1 & E2)];
    [simpl; lia | |].
  2:{ eapply observe_bind_ext; eauto. }
  eapply observe_bind_ext; eauto. simpl.
  destruct (search (byID d1) (schemaMetaVersion is_) (endByID id) eqByID)
    as [itm ok] eqn:S1.
  eapply observe_bind_ext.
  { unfold searchByID. rewrite S1. reflexivity. }
  { unfold searchByID. rewrite <- Hs. reflexivity. }
  destruct ok; simpl; [|reflexivity].
  destruct (isTableVirtual env id).
  { eapply observe_bind_ext.
    - reflexivity.
    - unfold gets. rewrite <- Hspecials. reflexivity.
    - destruct (specialsLoad (specials d1) (dbName itm)) as [schTbls|];
        [|reflexivity].
      destruct (tablesLookup (st_tables schTbls) (tableName itm)); reflexivity. }
  set (oldKey := {| tck_tableID := tableID itm;
                    tck_schemaVersion := schemaVersion itm |}).
  destruct (cacheGet_ext oldKey) as [(_ & F1 & F2) | (t & e1 & e2 & F1 & F2)].
  { simpl. eapply search_version_le; eauto. }
  - eapply observe_bind_ext; eauto. simpl.
    apply loadTableInfo_ext. intros [t | e] e1 e2; [|reflexivity].
    apply observe_refill.
  - eapply observe_bind_ext; eauto. simpl. apply observe_refill.
Qed.

Lemma TableByName_ext (schema tbl : model.CIStr) :
  search (byName d1) (schemaMetaVersion is_)
         (endByName (model.L schema) (model.L tbl)) eqByName =
  search (byName d2) (schemaMetaVersion is_)
         (endByName (model.L schema) (model.L tbl)) eqByName ->
  observe (TableByName env fuel is_ schema tbl d1) =
  observe (TableByName env fuel is_ schema tbl d2).
Proof.
  intros Hs. unfold TableByName.
  destruct (IsSpecialDB env (model.L schema)).
  { eapply observe_bind_ext.
    - reflexivity.
    - unfold gets. rewrite <- Hspecials. reflexivity.
    - destruct (specialsLoad (specials d1) (model.L schema)) as [tbNames|];
        [|reflexivity].
      destruct (tablesLookup (st_tables tbNames) (model.L tbl)); reflexivity. }
  destruct (search (byName d1) (schemaMetaVersion is_)
                   (endByName (model.L schema) (model.L tbl)) eqByName)
    as [itm ok] eqn:S1.
  eapply observe_bind_ext.
  { unfold searchByName. rewrite S1. reflexivity. }
  { unfold searchByName. rewrite <- Hs. reflexivity. }
  destruct ok; simpl; [|reflexivity].
  set (oldKey := {| tck_tableID := tableID itm;
                    tck_schemaVersion := schemaVersion itm |}).
  destruct (cacheGet_ext oldKey) as [(_ & F1 & F2) | (t & e1 & e2 & F1 & F2)].
  { simpl. eapply search_version_le; eauto. }
  - eapply observe_bind_ext; eauto. simpl.
    apply loadTableInfo_ext. intros [t | e] e1 e2; reflexivity.
  - eapply observe_bind_ext; eauto.
Qed.

End LookupExt.

(** ** Removing a table *)

Lemma remove_search_byID_below (d : Data) (item : tableItem) (V id : Z) :
  wfTables d -> schemaVersion item <= MaxInt64 -> V < schemaVersion item ->
  search (byID (remove d item)) V (endByID id) eqByID =
  search (byID d) V (endByID id) eqByID.
Proof.
  intros Hwf Hmax HV. pose proof (remove_wf d item Hwf Hmax) as [WI' _].
  destruct Hwf as [WI _].
  destruct (selects_total (items (byID d)) (ByID id) V) as [r Hr].
  assert (E : search (byID d) V (endByID id) eqByID = reported r)
    by exact (search_selects (byID d) V (ByID id) r WI Hr).
  rewrite E. apply (search_selects _ V (ByID id) r WI').
  simpl. apply (selects_btSet_below _ (ByID 0)); auto. apply WI.
Qed.

Lemma remove_search_byName_below (d : Data) (item : tableItem) (V : Z)
      (db tbl : string) :
  wfTables d -> schemaVersion item <= MaxInt64 -> V < schemaVersion item ->
  search (byName (remove d item)) V (endByName db tbl) eqByName =
  search (byName d) V (endByName db tbl) eqByName.
Proof.
  intros Hwf Hmax HV. pose proof (remove_wf d item Hwf Hmax) as [_ WN'].
  destruct Hwf as [_ WN].
  destruct (selects_total (items (byName d)) (ByName db tbl) V) as [r Hr].
  assert (E : search (byName d) V (endByName db tbl) eqByName = reported r)
    by exact (search_selects (byName d) V (ByName db tbl) r WN Hr).
  rewrite E. apply (search_selects _ V (ByName db tbl) r WN').
  simpl. apply (selects_btSet_below _ (ByName EmptyString EmptyString)); auto.
  apply WN.
Qed.

Lemma remove_search_byID_from (d : Data) (item : tableItem) (V : Z) :
  wfTables d -> schemaVersion item <= MaxInt64 -> newestFor d item ->
  schemaVersion item <= V ->
  search (byID (remove d item)) V (endByID (tableID item)) eqByID =
  (asTomb item, false).
Proof.
  intros Hwf Hmax (Hnew & _ & _) HV.
  pose proof (remove_wf d item Hwf Hmax) as [WI' _].
  apply (search_selects _ V (ByID (tableID item)) (Some (asTomb item)) WI').
  simpl byID. apply selects_btSet_newest; auto.
  - apply keyMatches_ByID. reflexivity.
  - intros e He Hm. apply keyMatches_ByID in Hm. simpl. apply Hnew; auto.
Qed.

Lemma remove_search_byName_from (d : Data) (item : tableItem) (V : Z) :
  wfTables d -> schemaVersion item <= MaxInt64 -> newestFor d item ->
  schemaVersion item <= V ->
  search (byName (remove d item)) V
         (endByName (dbName item) (tableName item)) eqByName =
  (asTomb item, false).
Proof.
  intros Hwf Hmax (_ & Hnew & _) HV.
  pose proof (remove_wf d item Hwf Hmax) as [_ WN'].
  apply (search_selects _ V (ByName (dbName item) (tableName item))
                        (Some (asTomb item)) WN').
  simpl byName. apply selects_btSet_newest; auto.
  - apply keyMatches_ByName. auto.
  - intros e He Hm. apply keyMatches_ByName in Hm. destruct Hm.
    simpl. apply Hnew; auto.
Qed.

Lemma remove_cached_from (d : Data) (item : tableItem) (V : Z) :
  newestFor d item -> schemaVersion item <= V ->
  cached (tableCache (remove d item))
         {| tck_tableID := tableID item; tck_schemaVersion := V |} = None.
Proof.
  intros (_ & _ & Hc) HV. simpl.
  destruct (Z.eq_dec V (schemaVersion item)) as [-> | Hne].
  - apply cached_sieveRemove_same.
  - rewrite cached_sieveRemove_other.
    + apply Hc. lia.
    + intros E. inversion E. congruence.
Qed.

Lemma remove_cached_below (d : Data) (item : tableItem) (k : tableCacheKey) :
  tck_schemaVersion k < schemaVersion item ->
  cached (tableCache (remove d item)) k = cached (tableCache d) k.
Proof.
  intros Hk. simpl. apply cached_sieveRemove_other.
  intros E. subst k. simpl in Hk. lia.
Qed.

(** C1: once [remove] has written the tomb of a table at version [V], with
    nothing recorded for that table above [V], every snapshot pinned at [V]
    or later misses the table by id and by name, and every snapshot pinned
    below [V] gets from both lookups exactly what it got before. *)
Theorem C1_remove_shadows_from_its_version :
  forall (env : Env) (fuel : nat) (d : Data) (item : tableItem)
         (is_ : infoschemaV2) (schema tbl : model.CIStr),
    wfTables d ->
    schemaVersion item <= MaxInt64 ->
    newestFor d item ->
    IsSpecialDB env (dbName item) = false ->
    model.L schema = dbName item ->
    model.L tbl = tableName item ->
    let d' := remove d item in
    let V' := schemaMetaVersion is_ in
    (schemaVersion item <= V' ->
     search (byID d') V' (endByID (tableID item)) eqByID = (asTomb item, false) /\
     search (byName d') V' (endByName (dbName item) (tableName item)) eqByName
     = (asTomb item, false) /\
     (exists tr, TableByID env fuel is_ (tableID item) d'
                 = Returned (None, false) d' tr) /\
     TableByName env fuel is_ schema tbl d'
     = Returned (inr ErrTableNotExists) d'
                [EvSearchByName (dbName item) (tableName item)])
    /\
    (V' < schemaVersion item ->
     forall (id : Z) (sch tb : model.CIStr),
       search (byID d') V' (endByID id) eqByID
       = search (byID d) V' (endByID id) eqByID /\
       search (byName d') V' (endByName (model.L sch) (model.L tb)) eqByName
       = search (byName d) V' (endByName (model.L sch) (model.L tb)) eqByName /\
       observe (TableByID env fuel is_ id d') = observe (TableByID env fuel is_ id d) /\
       observe (TableByName env fuel is_ sch tb d')
       = observe (TableByName env fuel is_ sch tb d)).
Proof.
  intros env fuel d item is_ schema tbl Hwf Hmax Hnew Hsp Hsch Htbl d' V'.
  subst d' V'. split.
  - intros HV.
    pose proof (remove_search_byID_from d item _ Hwf Hmax Hnew HV) as SI.
    pose proof (remove_search_byName_from d item _ Hwf Hmax Hnew HV) as SN.
    split; [exact SI|]. split; [exact SN|]. split.
    + unfold TableByID.
      destruct (tableIDIsValid env (tableID item)) eqn:Hval.
      * eexists. apply tableByID_absent; auto.
        -- apply remove_cached_from; auto.
        -- rewrite SI. reflexivity.
      * eexists. apply tableByID_invalid; auto.
    + rewrite <- Hsch, <- Htbl. apply TableByName_absent.
      * rewrite Hsch. exact Hsp.
      * rewrite Hsch, Htbl, SN. reflexivity.
  - intros HV id sch tb.
    pose proof (remove_search_byID_below d item _ id Hwf Hmax HV) as SI.
    pose proof (remove_search_byName_below d item _ (model.L sch) (model.L tb)
                                           Hwf Hmax HV) as SN.
    assert (Hc : forall k, tck_schemaVersion k <= schemaMetaVersion is_ ->
                           cached (tableCache (remove d item)) k
                           = cached (tableCache d) k).
    { intros k Hk. apply remove_cached_below. lia. }
    split; [exact SI|]. split; [exact SN|]. split.
    + apply tableByID_ext; auto.
    + apply TableByName_ext; auto.
Qed.

(** C10: [remove] deletes from the cache the handle stored under the key
    made of the entry's table id and version, and leaves every other cached
    handle, those under older versions of the same table among them, where
    it was. *)
Theorem C10_remove_evicts_exact_key :
  forall (d : Data) (item : tableItem),
    let key := {| tck_tableID := tableID item;
                  tck_schemaVersion := schemaVersion item |} in
    tableCache (remove d item) = sieveRemove (tableCache d) key /\
    cached (tableCache (remove d item)) key = None /\
    (forall k, k <> key ->
               cached (tableCache (remove d item)) k = cached (tableCache d) k) /\
    (forall v, v <> schemaVersion item ->
               cached (tableCache (remove d item))
                      {| tck_tableID := tableID item; tck_schemaVersion := v |}
               = cached (tableCache d)
                        {| tck_tableID := tableID item; tck_schemaVersion := v |}).
Proof.
  intros d item key. split; [reflexivity|]. split; [|split].
  - apply cached_sieveRemove_same.
  - intros k Hk. simpl. apply cached_sieveRemove_other. exact Hk.
  - intros v Hv. simpl. apply cached_sieveRemove_other.
    intros E. inversion E. congruence.
Qed.

(** C9: for an id the validity predicate rejects, [TableByID] returns
    [(nil, false)] at once: the store is left as it was and no call is made
    on the cache, on an index or on the loader, whatever they hold. *)
Theorem C9_invalid_id_returns_at_once :
  forall (env : Env) (fuel : nat) (is_ : infoschemaV2) (id : Z) (d : Data),
    tableIDIsValid env id = false ->
    TableByID env fuel is_ id d = Returned (None, false) d [].
Proof.
  intros env fuel is_ id d H. apply tableByID_invalid. exact H.
Qed.

(** ** Lookups touch nothing but the cache *)

Lemma cacheOnly_pure {A : Type} (m : M A) :
  (forall d a d' tr, m d = Returned a d' tr -> d' = d) -> cacheOnly m.
Proof.
  intros Hm d a d' tr H. rewrite (Hm _ _ _ _ H). exists (tableCache d).
  symmetry. apply withTableCache_same.
Qed.

Lemma cacheOnly_ret {A : Type} (a : A) : cacheOnly (ret a).
Proof.
  apply cacheOnly_pure. intros d a' d' tr H. inversion H; auto.
Qed.

Lemma cacheOnly_bind {A B : Type} (m : M A) (k : A -> M B) :
  cacheOnly m -> (forall a, cacheOnly (k a)) -> cacheOnly (bind m k).
Proof.
  intros Hm Hk d b d' tr H. unfold bind in H.
  destruct (m d) as [a d1 tr1| |] eqn:E1; try discriminate.
  destruct (k a d1) as [b' d2 tr2| |] eqn:E2; try discriminate.
  inversion H; subst.
  destruct (Hm _ _ _ _ E1) as [c1 ->]. destruct (Hk a _ _ _ _ E2) as [c2 ->].
  exists c2. reflexivity.
Qed.

Lemma cacheOnly_cacheGet (k : tableCacheKey) : cacheOnly (cacheGet k).
Proof.
  intros d a d' tr H. unfold cacheGet in H.
  destruct (sieveGet (tableCache d) k) as [r c]. inversion H; subst.
  exists c. reflexivity.
Qed.

Lemma cacheOnly_cacheSet (env : Env) (k : tableCacheKey) (v : Table) :
  cacheOnly (cacheSet env k v).
Proof.
  intros d a d' tr H. unfold cacheSet in H. inversion H; subst.
  eexists. reflexivity.
Qed.

Lemma cacheOnly_loadTableInfo (env : Env) (fuel : nat) (tblID dbID ts ver : Z) :
  cacheOnly (loadTableInfo env fuel tblID dbID ts ver).
Proof.
  apply cacheOnly_pure. intros d a d' tr H. unfold loadTableInfo in H.
  destruct (loadTableRetry env fuel 0 tblID dbID ts) as [[r|]|]; inversion H; auto.
Qed.

Lemma cacheOnly_tableByID (env : Env) (fuel : nat) (is_ : infoschemaV2)
      (id : Z) (noRefill : bool) :
  cacheOnly (tableByID env fuel is_ id noRefill).
Proof.
  unfold tableByID.
  destruct (tableIDIsValid env id); simpl; [|apply cacheOnly_ret].
  apply cacheOnly_bind; [apply cacheOnly_cacheGet|]. intros [t|].
  { apply cacheOnly_ret. }
  apply cacheOnly_bind.
  { apply cacheOnly_pure. intros d a d' tr H. inversion H; auto. }
  intros [itm ok]. destruct ok; simpl; [|apply cacheOnly_ret].
  destruct (isTableVirtual env id).
  { apply cacheOnly_bind.
    - apply cacheOnly_pure. intros d a d' tr H. inversion H; auto.
    - intros sp. destruct (specialsLoad sp (dbName itm)) as [s|];
        [|apply cacheOnly_ret].
      destruct (tablesLookup (st_tables s) (tableName itm)); apply cacheOnly_ret. }
  apply cacheOnly_bind; [apply cacheOnly_cacheGet|]. intros [t|].
  - apply cacheOnly_bind; [|intros; apply cacheOnly_ret].
    destruct (negb noRefill); [apply cacheOnly_cacheSet | apply cacheOnly_ret].
  - apply cacheOnly_bind; [apply cacheOnly_loadTableInfo|]. intros [t|e].
    + apply cacheOnly_bind; [|intros; apply cacheOnly_ret].
      destruct (negb noRefill); [apply cacheOnly_cacheSet | apply cacheOnly_ret].
    + apply cacheOnly_ret.
Qed.

(** ** Partition tombs *)

Lemma comparePartitionItem_lex (a b : partitionItem) :
  comparePartitionItem a b = lexLt Z.ltb Z.ltb (keyPartition a) (keyPartition b).
Proof.
  unfold comparePartitionItem, lexLt, keyPartition. simpl.
  rewrite Z.gtb_ltb. reflexivity.
Qed.

Lemma tombPartitions_In (ver : Z) (ti : model.TableInfo)
      (defs : list model.PartitionDefinition) (def : model.PartitionDefinition) :
  forall bt,
    less bt = comparePartitionItem ->
    In (tombPartition ver ti def) (items bt) \/ In def defs ->
    In (tombPartition ver ti def)
       (items (fold_left (fun bt d => btSet bt (tombPartition ver ti d)) defs bt)).
Proof.
  induction defs as [|d defs IH]; intros bt Hless H; simpl.
  - destruct H as [H | []]. exact H.
  - apply IH; [exact Hless|].
    destruct H as [H | [-> | H]]; auto.
    + left. destruct (Z.eq_dec (model.pdID d) (model.pdID def)) as [E | NE].
      * assert (tombPartition ver ti d = tombPartition ver ti def)
          by (unfold tombPartition; rewrite E; reflexivity).
        rewrite <- H0. apply setItems_new.
      * apply (setItems_old keyPartition (lexLt Z.ltb Z.ltb) (less bt)
                            TotalLt_keyByID); auto.
        -- intros a b. rewrite Hless. apply comparePartitionItem_lex.
        -- unfold keyPartition, tombPartition. simpl. congruence.
    + left. apply setItems_new.
Qed.

Lemma add_noNewPartitionTomb (env : Env) (d : Data) (item : tableItem) (tbl : Table) :
  noNewPartitionTomb (pid2tid d) (pid2tid (add env d item tbl)).
Proof.
  unfold noNewPartitionTomb. simpl.
  destruct (model.GetPartitionInfo (Meta tbl)) as [defs|]; [|auto].
  generalize (pid2tid d). induction defs as [|def defs IH]; intros bt e He Ht; simpl in He.
  - exact He.
  - specialize (IH _ _ He Ht). apply setItems_In in IH.
    destruct IH as [-> | IH]; [discriminate|exact IH].
Qed.

(** C7: [remove] writes to the by-id and to the by-name index the entry of
    its argument with the tomb flag set, and to the attribute index an entry
    with the tomb flag set and no descriptor; these are the only entries it
    adds, and it leaves the partition index as it is; no primitive of the
    store writes a partition tomb; [applyDropTableV2], once it has found the
    table, writes one partition entry with the tomb flag set per partition
    definition at the version of the diff and then calls [remove]. *)
Theorem C7_partition_tombs_come_from_the_applier :
  forall (env : Env) (d : Data) (item : tableItem),
    let written :=
      {| dbName := dbName item; dbID := dbID item; tableName := tableName item;
         tableID := tableID item; schemaVersion := schemaVersion item;
         tomb := true |} in
    let writtenAttr :=
      {| tii_dbName := dbName item; tii_tableID := tableID item;
         tii_schemaVersion := schemaVersion item; tii_tableInfo := None;
         tii_tomb := true |} in
    (byID (remove d item) = btSet (byID d) written /\
     byName (remove d item) = btSet (byName d) written /\
     tableInfoResident (remove d item)
     = btSet (tableInfoResident d) writtenAttr /\
     In written (items (byID (remove d item))) /\
     In written (items (byName (remove d item))) /\
     In writtenAttr (items (tableInfoResident (remove d item))) /\
     (forall e, In e (items (byID (remove d item))) ->
                In e (items (byID d)) \/ (e = written /\ tomb e = true)) /\
     (forall e, In e (items (byName (remove d item))) ->
                In e (items (byName d)) \/ (e = written /\ tomb e = true)) /\
     (forall e, In e (items (tableInfoResident (remove d item))) ->
                In e (items (tableInfoResident d)) \/
                (e = writtenAttr /\ tii_tomb e = true)) /\
     pid2tid (remove d item) = pid2tid d) /\
    ((forall it tbl, noNewPartitionTomb (pid2tid d) (pid2tid (add env d it tbl))) /\
     (forall v di, pid2tid (addDB d v di) = pid2tid d) /\
     (forall v di, pid2tid (deleteDB d di v) = pid2tid d) /\
     (forall di tables, pid2tid (addSpecialDB d di tables) = pid2tid d)) /\
    (forall (fuel : nat) (b : Builder) (diff : SchemaDiff) (dbInfo : model.DBInfo)
            (id : Z) (affected : list Z) (table : Table) (d0 : Data)
            (tr0 : list event),
        infoData b = d ->
        less (pid2tid d) = comparePartitionItem ->
        TableByID env fuel (b_infoschemaV2 b) id d = Returned (Some table, true) d0 tr0 ->
        exists b' tr,
          applyDropTableV2 env fuel b diff dbInfo id affected = Returned affected b' tr /\
          pid2tid (infoData b')
          = tombPartitions (pid2tid d) (sd_Version diff) (Meta table) /\
          (forall defs def,
              model.GetPartitionInfo (Meta table) = Some defs -> In def defs ->
              In {| partitionID := model.pdID def;
                    pi_schemaVersion := sd_Version diff;
                    pi_tableID := model.ID (Meta table);
                    pi_tomb := true |}
                 (items (pid2tid (infoData b')))) /\
          (forall e, In e (items (pid2tid (infoData b'))) ->
                     In e (items (pid2tid d)) \/
                     (pi_tomb e = true /\ pi_schemaVersion e = sd_Version diff /\
                      pi_tableID e = model.ID (Meta table))) /\
          let dropped :=
            {| dbName := model.L (model.dbiName dbInfo);
               dbID := model.dbiID dbInfo;
               tableName := model.L (model.Name (Meta table));
               tableID := model.ID (Meta table);
               schemaVersion := sd_Version diff;
               tomb := true |} in
          byID (infoData b') = btSet (byID d) dropped /\
          byName (infoData b') = btSet (byName d) dropped /\
          In dropped (items (byID (infoData b'))) /\
          In dropped (items (byName (infoData b')))).
Proof.
  intros env d item written writtenAttr. split; [|split].
  - split; [reflexivity|]. split; [reflexivity|]. split; [reflexivity|].
    split; [apply btSet_new|]. split; [apply btSet_new|].
    split; [simpl; apply setItems_new|].
    split; [|split; [|split; [|reflexivity]]].
    + intros e He. apply btSet_In in He.
      destruct He as [-> | He]; [right; split; reflexivity | left; exact He].
    + intros e He. apply btSet_In in He.
      destruct He as [-> | He]; [right; split; reflexivity | left; exact He].
    + intros e He. simpl in He. apply setItems_In in He.
      destruct He as [-> | He]; [right; split; reflexivity | left; exact He].
  - split; [apply add_noNewPartitionTomb|]. split; [reflexivity|].
    split; [reflexivity|]. intros di tables. unfold addSpecialDB.
    destruct (specialsLoad _ _); reflexivity.
  - intros fuel b diff dbInfo id affected table d0 tr0 Hb Hless Hfind.
    destruct (cacheOnly_tableByID env fuel (b_infoschemaV2 b) id false
                                  d _ d0 tr0 Hfind) as [c Hd0].
    unfold applyDropTableV2. simpl. rewrite Hb, Hfind.
    eexists. eexists. split; [reflexivity|].
    assert (Hp : pid2tid d0 = pid2tid d) by (rewrite Hd0; reflexivity).
    simpl. rewrite Hp. split; [reflexivity|]. split; [|split].
    + intros defs def Hdefs Hin. unfold tombPartitions. rewrite Hdefs.
      apply (tombPartitions_In (sd_Version diff) (Meta table) defs def); auto.
    + intros e He. unfold tombPartitions in He.
      destruct (model.GetPartitionInfo (Meta table)) as [defs|]; [|left; exact He].
      revert He. generalize (pid2tid d).
      induction defs as [|def defs IH]; intros bt He; simpl in He.
      * left. exact He.
      * apply IH in He. destruct He as [He | He]; [|right; exact He].
        apply setItems_In in He.
        destruct He as [-> | He]; [right; repeat split | left; exact He].
    + rewrite Hd0. split; [reflexivity|]. split; [reflexivity|].
      split; apply btSet_new.
Qed.

(** ** Recovering a schema *)

(** C8: when [SchemaByID] finds the database of a recover-schema diff, the
    applier fails with [ErrDatabaseExists] and hands back the store
    unchanged; whenever it hands back a changed store the database was not
    visible, and in that case it calls [addDB] at the version of the diff and
    then creates the tables. *)
Theorem C8_recover_schema_refuses_visible_db :
  forall (env : Env) (b : Builder) (diff : SchemaDiff),
    (forall di,
        SchemaByID env (b_infoschemaV2 b) (infoData b) (sd_SchemaID diff) = (di, true) ->
        applyRecoverSchemaV2 env b diff = Returned (inr ErrDatabaseExists) b []) /\
    (forall r b' tr,
        applyRecoverSchemaV2 env b diff = Returned r b' tr ->
        b' <> b ->
        snd (SchemaByID env (b_infoschemaV2 b) (infoData b) (sd_SchemaID diff)) = false) /\
    (forall di0 di,
        SchemaByID env (b_infoschemaV2 b) (infoData b) (sd_SchemaID diff) = (di0, false) ->
        GetDatabase env (sd_SchemaID diff) = inl (Some di) ->
        applyRecoverSchemaV2 env b diff
        = applyCreateTables env
            (withInfoData b (addDB (infoData b) (sd_Version diff) di)) diff /\
        In {| si_schemaVersion := sd_Version diff; si_dbInfo := clearTables di;
              si_tomb := false |}
           (items (schemaMap (addDB (infoData b) (sd_Version diff) di)))).
Proof.
  intros env b diff. split; [|split].
  - intros di H. unfold applyRecoverSchemaV2. rewrite H. reflexivity.
  - intros r b' tr H Hne. unfold applyRecoverSchemaV2 in H.
    destruct (SchemaByID env (b_infoschemaV2 b) (infoData b) (sd_SchemaID diff))
      as [di ok].
    destruct ok; [|reflexivity]. inversion H; subst. congruence.
  - intros di0 di H Hg. unfold applyRecoverSchemaV2. rewrite H, Hg.
    split; [reflexivity|]. simpl. apply setItems_new.
Qed.

(** ** Enumeration over the attribute index *)

(** C5 fails on the code.  After a table with a TTL has moved from database
    "b" to database "a" at version 7, the snapshot at 7 sees it by id and its
    attribute entry in "a" is live, yet the enumeration returns nothing: the
    tomb left in "b" has the same table id and comes first in the reverse
    traversal.  And with two tables in the second database met, the result
    holds two buckets for that database. *)
Theorem C5_enumeration_misses_moved_table :
  attributeVisible renamedAcrossDBs 7 TTLAttribute "a" (sampleInfo 5 "t" true) /\
  search (byID renamedAcrossDBs) 7 (endByID 5) eqByID = (sampleItem "a" "t" 5 7, true) /\
  ListTablesWithSpecialAttribute (sampleSnapshot 7) renamedAcrossDBs TTLAttribute
  = Some [] /\
  ListTablesWithSpecialAttribute (sampleSnapshot 4) fourTables TTLAttribute
  = Some [ {| DBName := "c"; TableInfos := [sampleInfo 4 "t4" true] |};
           {| DBName := "b"; TableInfos := [sampleInfo 3 "t3" true] |};
           {| DBName := "b"; TableInfos := [sampleInfo 2 "t2" true] |};
           {| DBName := "a"; TableInfos := [sampleInfo 1 "t1" true] |} ].
Proof.
  split; [|split; [|split]]; try (vm_compute; reflexivity).
  exists {| tii_dbName := "a"; tii_tableID := 5; tii_schemaVersion := 7;
            tii_tableInfo := Some (sampleInfo 5 "t" true); tii_tomb := false |}.
  split; [vm_compute; auto|]. repeat (split; [reflexivity || (simpl; lia)|]).
  intros item' Hin Hdb Hid Hv. vm_compute in Hin.
  destruct Hin as [<- | [<- | [<- | []]]]; simpl in *; try lia; discriminate.
Qed.

(** ** The theorems at work on sample data *)

Lemma C6_getVersionByTS_monotone_witness :
  getVersionByTS sampleLog 60 = (9, true) /\
  getVersionByTS sampleLog 120 = (10, true) /\
  9 <= 10.
Proof.
  split; [reflexivity|]. split; [reflexivity|].
  apply (C6_getVersionByTS_monotone sampleLog 60 120 9 10).
  - repeat constructor.
  - lia.
  - reflexivity.
  - reflexivity.
Defined.

Lemma C3_search_selects_latest_witness :
  search {| less := compareByID;
            items := [ sampleItem "test" "t" 1 5;
                       asTomb (sampleItem "test" "t" 1 8) ] |}
         7 (endByID 1) eqByID
  = (sampleItem "test" "t" 1 5, true).
Proof.
  apply (fun H1 H2 =>
           proj1 (C3_search_selects_latest
                    {| less := compareByID;
                       items := [ sampleItem "test" "t" 1 5;
                                  asTomb (sampleItem "test" "t" 1 8) ] |}
                    7 (ByID 1) (Some (sampleItem "test" "t" 1 5)) H1 H2)).
  - split; [reflexivity|]. split.
    + repeat constructor.
    + repeat constructor; unfold MaxInt64; simpl; lia.
  - split; [simpl; auto|]. split; [reflexivity|]. split; [simpl; lia|].
    intros e' [<- | [<- | []]] _ Hv; simpl in *; lia.
Defined.

Lemma C9_invalid_id_returns_at_once_witness :
  TableByID sampleEnv 0 (sampleSnapshot 3) 0 NewData
  = Returned (None, false) NewData [].
Proof.
  apply C9_invalid_id_returns_at_once. reflexivity.
Defined.

Lemma C1_remove_shadows_from_its_version_witness :
  let d := add sampleEnv NewData (sampleItem "test" "t" 1 5) (sampleTable 1 "t" false) in
  let item := sampleItem "test" "t" 1 8 in
  search (byID (remove d item)) 8 (endByID 1) eqByID = (asTomb item, false) /\
  TableByName sampleEnv 0 (sampleSnapshot 8) (sampleCIStr "test") (sampleCIStr "t")
              (remove d item)
  = Returned (inr ErrTableNotExists) (remove d item) [EvSearchByName "test" "t"].
Proof.
  intros d item.
  destruct (C1_remove_shadows_from_its_version
              sampleEnv 0 d item (sampleSnapshot 8)
              (sampleCIStr "test") (sampleCIStr "t")) as [H _].
  - apply add_wf; [apply NewData_wf | unfold MaxInt64; simpl; lia].
  - unfold MaxInt64; simpl; lia.
  - split; [|split].
    + intros e [<- | []] _. simpl. lia.
    + intros e [<- | []] _ _. simpl. lia.
    + intros v Hv. simpl in Hv.
      change (cached (tableCache d)
                     {| tck_tableID := tableID item; tck_schemaVersion := v |})
        with (if (1 =? 1) && (5 =? v)
              then Some (sampleTable 1 "t" false) else None).
      assert (E : (5 =? v) = false) by (apply Z.eqb_neq; lia).
      rewrite E. reflexivity.
  - reflexivity.
  - reflexivity.
  - reflexivity.
  - simpl in H. destruct H as (H1 & _ & _ & H4); [lia|]. split; assumption.
Defined.

Lemma C7_partition_tombs_come_from_the_applier_witness :
  let d := add sampleEnv NewData (sampleItem "test" "t" 1 3) samplePartitioned in
  let diff := {| sd_Version := 9; sd_SchemaID := 1 |} in
  exists b' tr,
    applyDropTableV2 sampleEnv 0 (sampleBuilder d 9) diff sampleDB 1 []
    = Returned [] b' tr /\
    In {| partitionID := 100; pi_schemaVersion := 9; pi_tableID := 1;
          pi_tomb := true |}
       (items (pid2tid (infoData b'))) /\
    In {| dbName := "test"; dbID := 1; tableName := "t"; tableID := 1;
          schemaVersion := 9; tomb := true |}
       (items (byID (infoData b'))).
Proof.
  intros d diff.
  destruct (C7_partition_tombs_come_from_the_applier
              sampleEnv d (sampleItem "test" "t" 1 9)) as (_ & _ & H).
  edestruct (H 0%nat (sampleBuilder d 9) diff sampleDB 1 [])
    as (b' & tr & E & _ & Hin & _ & _ & _ & Hid & _).
  - reflexivity.
  - reflexivity.
  - lazy. reflexivity.
  - exists b', tr. split; [exact E|]. split; [|exact Hid].
    apply (Hin _ {| model.pdID := 100; model.pdPlacementPolicyRef := false |}
               eq_refl).
    simpl. auto.
Defined.

Lemma C8_recover_schema_refuses_visible_db_witness :
  let b := sampleBuilder (addDB NewData 1 sampleDB) 1 in
  applyRecoverSchemaV2 sampleEnv b {| sd_Version := 2; sd_SchemaID := 1 |}
  = Returned (inr ErrDatabaseExists) b [].
Proof.
  intros b.
  apply (proj1 (C8_recover_schema_refuses_visible_db
                  sampleEnv b {| sd_Version := 2; sd_SchemaID := 1 |})
               (Some sampleDB)).
  reflexivity.
Defined.

(** * Further properties *)

(** ** The table indices *)

Lemma walk_search_sound (ver : Z) (end_ : tableItem)
      (matchFn : tableItem -> tableItem -> bool) (l : list tableItem) :
  forall ok tg ok' tg',
    walk (searchIter ver end_ matchFn) (ok, tg) l = (ok', tg') ->
    ok' = true ->
    (ok = true /\ tg' = tg) \/
    (In tg' l /\ matchFn end_ tg' = true /\ schemaVersion tg' <= ver).
Proof.
  induction l as [|x l IH]; intros ok tg ok' tg' Hw Hok'; simpl in Hw.
  - inversion Hw; subst. auto.
  - destruct (matchFn end_ x) eqn:Mx; simpl in Hw.
    + rewrite Z.gtb_ltb in Hw.
      destruct (Z.ltb_spec ver (schemaVersion x)) as [Hgt | Hle].
      * destruct (IH _ _ _ _ Hw Hok') as [H | (Hin & Hm & Hv)]; auto.
        right. simpl. auto.
      * destruct ok; simpl in Hw.
        -- destruct (schemaVersion x >? schemaVersion tg);
             destruct (IH _ _ _ _ Hw Hok') as [[_ H] | (Hin & Hm & Hv)];
             try (right; simpl; auto; fail); auto.
           subst tg'. right. simpl. auto.
        -- destruct (IH _ _ _ _ Hw Hok') as [[_ H] | (Hin & Hm & Hv)].
           ++ subst tg'. right. simpl. auto.
           ++ right. simpl. auto.
    + inversion Hw; subst. auto.
Qed.

(** X1: whatever the index holds, an entry that [search] reports present is
    an entry of the index that matches the key, is not newer than the
    snapshot and is not a tomb. *)
Theorem X1_search_present_is_sound :
  forall (bt : BTreeG tableItem) (ver : Z) (end_ : tableItem)
         (matchFn : tableItem -> tableItem -> bool) (itm : tableItem),
    search bt ver end_ matchFn = (itm, true) ->
    In itm (items bt) /\ matchFn end_ itm = true /\
    schemaVersion itm <= ver /\ tomb itm = false.
Proof.
  intros bt ver end_ matchFn itm Hs. unfold search, Descend in Hs.
  destruct (walk _ _ _) as [ok tg] eqn:Hw.
  assert (ok = true /\ tg = itm /\ tomb itm = false).
  { destruct ok; simpl in Hs.
    - destruct (tomb tg) eqn:Ht; inversion Hs; subst; auto.
    - inversion Hs. }
  destruct H as (-> & -> & Ht).
  destruct (walk_search_sound _ _ _ _ _ _ _ _ Hw eq_refl) as [[H _] | (Hin & Hm & Hv)];
    [discriminate|].
  unfold descendFrom in Hin. rewrite <- in_rev in Hin. apply filter_In in Hin.
  tauto.
Qed.

Lemma X1_search_present_is_sound_witness :
  In (sampleItem "test" "t" 1 5)
     (items (byID (add sampleEnv NewData (sampleItem "test" "t" 1 5)
                       (sampleTable 1 "t" false)))) /\
  5 <= 7.
Proof.
  destruct (X1_search_present_is_sound
              (byID (add sampleEnv NewData (sampleItem "test" "t" 1 5)
                         (sampleTable 1 "t" false)))
              7 (endByID 1) eqByID (sampleItem "test" "t" 1 5) eq_refl)
    as (H1 & _ & H3 & _).
  split; [exact H1 | exact H3].
Defined.

(** X2: a table that no entry touches between two snapshot versions is
    looked up alike at both: the older entry keeps applying across version
    bumps. *)
Theorem X2_lookup_unchanged_across_bumps :
  forall (bt : BTreeG tableItem) (k : tableKey) (V1 V2 : Z),
    wfTableIndex (keyCompare k) bt ->
    V1 <= V2 ->
    (forall e, In e (items bt) -> keyMatches k e = true ->
               schemaVersion e <= V1 \/ V2 < schemaVersion e) ->
    search bt V2 (keyEnd k) (keyEq k) = search bt V1 (keyEnd k) (keyEq k).
Proof.
  intros bt k V1 V2 Hwf HV Hgap.
  destruct (selects_total (items bt) k V1) as [r Hr].
  rewrite (search_selects bt V1 k r Hwf Hr).
  apply (search_selects bt V2 k r Hwf).
  destruct r as [e|]; simpl in *.
  - destruct Hr as (Hin & Hm & Hle & Hmax).
    split; [exact Hin|]. split; [exact Hm|]. split; [lia|].
    intros e' He' Hm' Hv'. destruct (Hgap e' He' Hm'); [auto | lia].
  - intros e He Hm. specialize (Hr e He Hm). destruct (Hgap e He Hm); lia.
Qed.

Lemma X2_lookup_unchanged_across_bumps_witness :
  let bt := byName (add sampleEnv NewData (sampleItem "db" "t1" 1 5)
                        (sampleTable 1 "t1" false)) in
  search bt 7 (endByName "db" "t1") eqByName
  = search bt 5 (endByName "db" "t1") eqByName.
Proof.
  intros bt.
  apply (X2_lookup_unchanged_across_bumps bt (ByName "db" "t1") 5 7).
  - apply (add_wf sampleEnv NewData _ _ NewData_wf). unfold MaxInt64. simpl. lia.
  - lia.
  - intros e [<- | []] _. left. simpl. lia.
Defined.

Lemma add_search_byID (env : Env) (d : Data) (item : tableItem) (tbl : Table) (V : Z) :
  wfTables d -> schemaVersion item <= MaxInt64 ->
  (forall e, In e (items (byID d)) -> tableID e = tableID item ->
             schemaVersion e <= schemaVersion item) ->
  schemaVersion item <= V ->
  search (byID (add env d item tbl)) V (endByID (tableID item)) eqByID
  = (item, negb (tomb item)).
Proof.
  intros Hwf Hmax Hnew HV.
  pose proof (add_wf env d item tbl Hwf Hmax) as [WI' _].
  apply (search_selects _ V (ByID (tableID item)) (Some item) WI').
  simpl byID. apply selects_btSet_newest; auto.
  - apply keyMatches_own_id.
  - intros e He Hm. apply keyMatches_ByID in Hm. auto.
Qed.

Lemma add_search_byName (env : Env) (d : Data) (item : tableItem) (tbl : Table) (V : Z) :
  wfTables d -> schemaVersion item <= MaxInt64 ->
  (forall e, In e (items (byName d)) ->
             dbName e = dbName item -> tableName e = tableName item ->
             schemaVersion e <= schemaVersion item) ->
  schemaVersion item <= V ->
  search (byName (add env d item tbl)) V
         (endByName (dbName item) (tableName item)) eqByName
  = (item, negb (tomb item)).
Proof.
  intros Hwf Hmax Hnew HV.
  pose proof (add_wf env d item tbl Hwf Hmax) as [_ WN'].
  apply (search_selects _ V (ByName (dbName item) (tableName item)) (Some item) WN').
  simpl byName. apply selects_btSet_newest; auto.
  - apply keyMatches_own_name.
  - intros e He Hm. apply keyMatches_ByName in Hm. destruct Hm. auto.
Qed.

Lemma btSet_old_byName (bt : BTreeG tableItem) (n z : tableItem) :
  less bt = compareByName ->
  In z (items bt) -> keyByName z <> keyByName n ->
  In z (items (btSet bt n)).
Proof.
  intros Hless Hz Hk.
  apply (setItems_old keyByName (lexLt String.ltb (lexLt String.ltb Z.ltb))
                      (less bt) TotalLt_keyByName); auto.
  intros a b. rewrite Hless. apply compareByName_lex.
Qed.

(** X3: once [add] has written an entry at a version, with nothing recorded
    for its id or its names above that version, every snapshot from that
    version on finds that very entry by id and by name. *)
Theorem X3_add_then_lookup :
  forall (env : Env) (d : Data) (item : tableItem) (tbl : Table) (V : Z),
    wfTables d ->
    schemaVersion item <= MaxInt64 ->
    newestEntry d item ->
    tomb item = false ->
    schemaVersion item <= V ->
    search (byID (add env d item tbl)) V (endByID (tableID item)) eqByID
    = (item, true) /\
    search (byName (add env d item tbl)) V
           (endByName (dbName item) (tableName item)) eqByName
    = (item, true).
Proof.
  intros env d item tbl V Hwf Hmax [HI HN] Ht HV. split.
  - rewrite add_search_byID; auto. rewrite Ht. reflexivity.
  - rewrite add_search_byName; auto. rewrite Ht. reflexivity.
Qed.

Lemma X3_add_then_lookup_witness :
  let item := sampleItem "db" "t1" 1 5 in
  search (byName (add sampleEnv NewData item (sampleTable 1 "t1" false))) 7
         (endByName "db" "t1") eqByName
  = (item, true).
Proof.
  intros item.
  apply (X3_add_then_lookup sampleEnv NewData item (sampleTable 1 "t1" false) 7).
  - apply NewData_wf.
  - unfold MaxInt64. simpl. lia.
  - split; intros e [].
  - reflexivity.
  - simpl. lia.
Defined.

(** X4: a rename applied as [remove] of the old entry and [add] of the new
    one at the same version, with the same table id: from that version on the
    id finds the new entry, the new names find it too, and the old names
    report the table absent. *)
Theorem X4_rename_at_one_version :
  forall (env : Env) (d : Data) (old new : tableItem) (tbl : Table) (V : Z),
    wfTables d ->
    schemaVersion old <= MaxInt64 ->
    newestEntry d old ->
    newestEntry d new ->
    tableID new = tableID old ->
    schemaVersion new = schemaVersion old ->
    (dbName new <> dbName old \/ tableName new <> tableName old) ->
    tomb new = false ->
    schemaVersion old <= V ->
    let d' := add env (remove d old) new tbl in
    search (byID d') V (endByID (tableID old)) eqByID = (new, true) /\
    search (byName d') V (endByName (dbName new) (tableName new)) eqByName
    = (new, true) /\
    search (byName d') V (endByName (dbName old) (tableName old)) eqByName
    = (asTomb old, false).
Proof.
  intros env d old new tbl V Hwf Hmax [OI ON] [NI NN] Hid Hv Hne Ht HV d'.
  pose proof (remove_wf d old Hwf Hmax) as Hwf1.
  assert (Hmax' : schemaVersion new <= MaxInt64) by lia.
  pose proof (add_wf env (remove d old) new tbl Hwf1 Hmax') as [_ WN'].
  split; [|split].
  - subst d'. rewrite <- Hid. rewrite add_search_byID; auto; try lia.
    + rewrite Ht. reflexivity.
    + intros e He Hie. simpl in He. apply btSet_In in He.
      destruct He as [-> | He]; [simpl; lia|]. rewrite Hv. apply OI; congruence.
  - subst d'. rewrite add_search_byName; auto; try lia.
    + rewrite Ht. reflexivity.
    + intros e He Hd Hn. simpl in He. apply btSet_In in He.
      destruct He as [-> | He]; [simpl; lia|]. apply NN; auto.
  - apply (search_selects _ V (ByName (dbName old) (tableName old))
                          (Some (asTomb old)) WN').
    subst d'.
    change (byName (add env (remove d old) new tbl))
      with (btSet (btSet (byName d) (asTomb old)) new).
    assert (Hk : keyMatches (ByName (dbName old) (tableName old)) new = false).
    { destruct (keyMatches (ByName (dbName old) (tableName old)) new) eqn:E; auto.
      apply keyMatches_ByName in E. destruct E. destruct Hne; congruence. }
    unfold selects, latestMatching. split; [|split; [|split]].
    + apply btSet_old_byName.
      * simpl. apply Hwf.
      * apply btSet_new.
      * unfold keyByName. simpl. intros E. inversion E.
        destruct Hne; congruence.
    + apply keyMatches_ByName. auto.
    + simpl. exact HV.
    + intros e' He' Hm' Hv'. apply btSet_In in He'.
      destruct He' as [-> | He']; [congruence|].
      apply btSet_In in He'. destruct He' as [-> | He']; [simpl; lia|].
      apply keyMatches_ByName in Hm'. destruct Hm'. simpl. apply ON; auto.
Qed.

Lemma X4_rename_at_one_version_witness :
  let d := add sampleEnv NewData (sampleItem "db" "t1" 1 5) (sampleTable 1 "t1" false) in
  let d' := add sampleEnv (remove d (sampleItem "db" "t1" 1 8))
                (sampleItem "db" "t2" 1 8) (sampleTable 1 "t2" false) in
  search (byID d') 9 (endByID 1) eqByID = (sampleItem "db" "t2" 1 8, true) /\
  search (byName d') 9 (endByName "db" "t1") eqByName
  = (asTomb (sampleItem "db" "t1" 1 8), false).
Proof.
  intros d d'.
  destruct (X4_rename_at_one_version
              sampleEnv d (sampleItem "db" "t1" 1 8) (sampleItem "db" "t2" 1 8)
              (sampleTable 1 "t2" false) 9) as (H1 & _ & H3).
  - apply (add_wf sampleEnv NewData _ _ NewData_wf). unfold MaxInt64. simpl. lia.
  - unfold MaxInt64. simpl. lia.
  - split.
    + intros e [<- | []] _. simpl. lia.
    + intros e [<- | []] _ _. simpl. lia.
  - split.
    + intros e [<- | []] _. simpl. lia.
    + intros e [<- | []] _ _. simpl. lia.
  - reflexivity.
  - reflexivity.
  - right. simpl. discriminate.
  - reflexivity.
  - simpl. lia.
  - split; [exact H1 | exact H3].
Defined.

Lemma run_sameEntries (env : Env) :
  forall ms d,
    wfTables d -> sameEntries d ->
    (forall m, In m ms -> below d (mutVersion m)) ->
    increasing ms ->
    wfTables (run env d ms) /\ sameEntries (run env d ms).
Proof.
  induction ms as [|m ms IH]; intros d Hwf Hsame Hbel [Hinc Hmax]; simpl.
  - auto.
  - simpl in Hinc. apply StronglySorted_inv in Hinc. destruct Hinc as [Hinc Hm].
    inversion Hmax as [|? ? Hm0 Hmax']; subst.
    destruct (applyMutation_writesBoth env d m) as (n & [EI EN] & _ & _ & _ & Hv).
    assert (Hb : below d (schemaVersion n)).
    { rewrite Hv. apply (Hbel m). simpl. auto. }
    destruct Hb as [BI BN]. destruct Hwf as [WI WN].
    apply IH.
    + apply applyMutation_wf; auto. split; auto.
    + intros e. rewrite EI, EN. split; intros He; apply btSet_In in He;
        destruct He as [-> | He]; try apply btSet_new.
      * apply (btSet_old (ByName EmptyString EmptyString)); [apply WN | apply Hsame; auto |].
        specialize (BI _ He). lia.
      * apply (btSet_old (ByID 0)); [apply WI | apply Hsame; auto |].
        specialize (BN _ He). lia.
    + intros m' Hm'. apply applyMutation_below.
      * apply Hbel. simpl. auto.
      * rewrite Forall_forall in Hm. apply Hm. apply in_map. exact Hm'.
    + split; auto.
Qed.

(** X5: after any sequence of [add] and [remove] at strictly increasing
    versions the by-id and the by-name index hold the very same entries, and
    each index is sorted on its comparator. *)
Theorem X5_table_indices_move_together :
  forall (env : Env) (ms : list mutation),
    increasing ms ->
    wfTables (run env NewData ms) /\ sameEntries (run env NewData ms).
Proof.
  intros env ms Hinc. apply run_sameEntries; auto.
  - apply NewData_wf.
  - intros e. simpl. tauto.
  - intros m _. split; intros e [].
Qed.

Lemma X5_table_indices_move_together_witness :
  sameEntries (run sampleEnv NewData
                   [ Add (sampleItem "db" "t1" 1 5) (sampleTable 1 "t1" false);
                     Remove (sampleItem "db" "t1" 1 8) ]).
Proof.
  apply X5_table_indices_move_together.
  split; repeat constructor; unfold mutVersion; simpl; unfold MaxInt64; lia.
Defined.

(** ** Comparators *)

Lemma strictOrderOn_lex {T K : Type} (cmp : T -> T -> bool) (key : T -> K)
      (ltK : K -> K -> bool) :
  TotalLt ltK -> (forall a b, cmp a b = ltK (key a) (key b)) ->
  strictOrderOn cmp key.
Proof.
  intros [Hi Ht Ho] E. split; [|split; [|split]].
  - intros a. rewrite E. apply Hi.
  - intros a b c. rewrite !E. apply Ht.
  - intros a b. rewrite !E. apply Ho.
  - intros a b Hk. rewrite E, Hk. apply Hi.
Qed.

Lemma compareTableInfoItem_lex (a b : tableInfoItem) :
  compareTableInfoItem a b =
  lexLt (lexLt String.ltb Z.ltb) Z.ltb (keyTableInfoItem a) (keyTableInfoItem b).
Proof.
  unfold compareTableInfoItem, lexLt, keyTableInfoItem. simpl.
  rewrite Z.gtb_ltb.
  destruct (String.ltb (tii_dbName a) (tii_dbName b));
    destruct (String.ltb (tii_dbName b) (tii_dbName a));
    destruct (tii_tableID a <? tii_tableID b);
    destruct (tii_tableID b <? tii_tableID a); reflexivity.
Qed.

Lemma compareSchemaItem_lex (a b : schemaItem) :
  compareSchemaItem a b = lexLt String.ltb Z.ltb (keySchemaItem a) (keySchemaItem b).
Proof. reflexivity. Qed.

Lemma compareSchemaByID_lex (a b : schemaIDName) :
  compareSchemaByID a b = lexLt Z.ltb Z.ltb (keySchemaByID a) (keySchemaByID b).
Proof.
  unfold compareSchemaByID, lexLt, keySchemaByID. simpl.
  rewrite Z.gtb_ltb. reflexivity.
Qed.

Lemma TotalLt_keyTableInfoItem : TotalLt (lexLt (lexLt String.ltb Z.ltb) Z.ltb).
Proof.
  apply TotalLt_lex; [|apply TotalLt_Z].
  apply TotalLt_lex; [apply TotalLt_string | apply TotalLt_Z].
Qed.

Lemma TotalLt_keySchemaItem : TotalLt (lexLt String.ltb Z.ltb).
Proof. apply TotalLt_lex; [apply TotalLt_string | apply TotalLt_Z]. Qed.

(** X6: each of the six comparators is a strict order, irreflexive and
    transitive, under which two items are incomparable exactly when they
    have the same key fields. *)
Theorem X6_comparators_are_strict_orders :
  strictOrderOn compareByID keyByID /\
  strictOrderOn compareByName keyByName /\
  strictOrderOn compareTableInfoItem keyTableInfoItem /\
  strictOrderOn comparePartitionItem keyPartition /\
  strictOrderOn compareSchemaItem keySchemaItem /\
  strictOrderOn compareSchemaByID keySchemaByID.
Proof.
  repeat split.
  all: try (apply (strictOrderOn_lex compareByID keyByID _ TotalLt_keyByID
                                     compareByID_lex)).
  all: try (apply (strictOrderOn_lex compareByName keyByName _ TotalLt_keyByName
                                     compareByName_lex)).
  all: try (apply (strictOrderOn_lex compareTableInfoItem keyTableInfoItem _
                                     TotalLt_keyTableInfoItem compareTableInfoItem_lex)).
  all: try (apply (strictOrderOn_lex comparePartitionItem keyPartition _
                                     TotalLt_keyByID comparePartitionItem_lex)).
  all: try (apply (strictOrderOn_lex compareSchemaItem keySchemaItem _
                                     TotalLt_keySchemaItem compareSchemaItem_lex)).
  all: try (apply (strictOrderOn_lex compareSchemaByID keySchemaByID _
                                     TotalLt_keyByID compareSchemaByID_lex)).
Qed.

(** ** Descents that stop at the first hit *)

Lemma StronglySorted_app_inv {A : Type} (R : A -> A -> Prop) (l1 l2 : list A) :
  StronglySorted R (l1 ++ l2) ->
  StronglySorted R l1 /\ StronglySorted R l2 /\
  forall a b, In a l1 -> In b l2 -> R a b.
Proof.
  induction l1 as [|x l1 IH]; simpl; intros H.
  - split; [constructor|]. split; [exact H|]. intros a b [].
  - apply StronglySorted_inv in H. destruct H as [Hs Hx].
    destruct (IH Hs) as (H1 & H2 & H12). rewrite Forall_forall in Hx.
    split; [|split; [exact H2|]].
    + constructor; auto. apply Forall_forall. intros y Hy. apply Hx.
      apply in_or_app. auto.
    + intros a b [<- | Ha] Hb; [apply Hx; apply in_or_app; auto | auto].
Qed.

Lemma StronglySorted_rev {A : Type} (R : A -> A -> Prop) (l : list A) :
  StronglySorted R l -> StronglySorted (fun a b => R b a) (rev l).
Proof.
  induction 1 as [|x l Hs IH Hx]; simpl; [constructor|].
  rewrite Forall_forall in Hx.
  assert (G : forall l1, StronglySorted (fun a b => R b a) l1 ->
                         (forall y, In y l1 -> R x y) ->
                         StronglySorted (fun a b => R b a) (l1 ++ [x])).
  { clear. induction l1 as [|z l1 IH]; simpl; intros Hs Hx.
    - repeat constructor.
    - apply StronglySorted_inv in Hs. destruct Hs as [Hs Hz].
      constructor; [apply IH; auto|].
      apply Forall_forall. intros y Hy. apply in_app_or in Hy.
      rewrite Forall_forall in Hz. destruct Hy as [Hy | [<- | []]]; auto. }
  apply G; auto. intros y Hy. apply Hx. apply in_rev. exact Hy.
Qed.

Section FirstHit.
Context {T : Type}.
Variable version : T -> Z.
Variable bt : BTreeG T.
Hypothesis Hsorted : sortedIndex bt.
Variable pivot : T.
Variable matches : T -> bool.
Hypothesis Hbelow :
  forall x, In x (items bt) -> matches x = true -> less bt pivot x = false.
Hypothesis Hconvex :
  forall x y, less bt x y = true -> less bt pivot y = false ->
              matches x = true -> matches y = true.
Hypothesis Hver :
  forall x y, matches x = true -> matches y = true ->
              less bt x y = true -> version x < version y.

Lemma descendFrom_matching :
  exists rest,
    descendFrom bt pivot = rev (filter matches (items bt)) ++ rest /\
    Forall (fun x => matches x = false) rest.
Proof.
  unfold descendFrom.
  set (below := filter (fun y => negb (less bt pivot y)) (items bt)).
  assert (Hsb : StronglySorted (fun a b => less bt a b = true) below).
  { apply sorted_filter. exact Hsorted. }
  assert (E1 : filter matches (items bt) = filter matches below).
  { unfold below. clear Hsb. revert Hbelow.
    induction (items bt) as [|a l IH]; intros Hb; simpl; auto.
    destruct (matches a) eqn:Ma.
    - rewrite (Hb a) by (simpl; auto). simpl. rewrite Ma. f_equal.
      apply IH. intros x Hx. apply Hb. simpl; auto.
    - destruct (negb (less bt pivot a)); simpl; [rewrite Ma|];
        apply IH; intros x Hx; apply Hb; simpl; auto. }
  exists (rev (filter (fun x => negb (matches x)) below)). split.
  - rewrite E1, <- rev_app_distr. f_equal.
    apply (sorted_split (less bt) matches below Hsb).
    intros x y Hx Hy Hxy Mx. apply filter_In in Hy. destruct Hy as [_ Hy].
    apply negb_true_iff in Hy. eapply Hconvex; eauto.
  - apply Forall_rev, Forall_forall. intros x Hx. apply filter_In in Hx.
    destruct Hx as [_ Hx]. apply negb_true_iff in Hx. exact Hx.
Qed.

Lemma matching_descending :
  StronglySorted (fun a b => version b < version a)
                 (rev (filter matches (items bt))).
Proof.
  apply (StronglySorted_rev (fun a b => version a < version b)).
  assert (G : forall l, StronglySorted (fun a b => less bt a b = true) l ->
                        StronglySorted (fun a b => version a < version b)
                                       (filter matches l)).
  { induction 1 as [|a l Hs IH Ha]; simpl; [constructor|].
    destruct (matches a) eqn:Ma; auto. constructor; auto.
    rewrite Forall_forall in *. intros y Hy. apply filter_In in Hy.
    destruct Hy as [Hy My]. apply Hver; auto. }
  apply G. exact Hsorted.
Qed.

Lemma find_descending (V : Z) (vis : list T) :
  StronglySorted (fun a b => version b < version a) vis ->
  match find (fun x => version x <=? V) vis with
  | Some e => In e vis /\ version e <= V /\
              forall e', In e' vis -> version e' <= V -> version e' <= version e
  | None => forall e', In e' vis -> V < version e'
  end.
Proof.
  induction 1 as [|a l Hs IH Ha]; simpl.
  - intros e' [].
  - rewrite Forall_forall in Ha. destruct (Z.leb_spec (version a) V) as [Hle | Hgt].
    + split; [auto|]. split; [exact Hle|].
      intros e' [<- | He'] _; [lia|]. specialize (Ha _ He'). lia.
    + destruct (find _ l) as [e|].
      * destruct IH as (Hin & Hle & Hmax). split; [auto|]. split; [exact Hle|].
        intros e' [<- | He'] Hv; [lia | auto].
      * intros e' [<- | He']; auto.
Qed.

Lemma descending_same_version (vis : list T) (a b : T) :
  StronglySorted (fun a b => version b < version a) vis ->
  In a vis -> In b vis -> version a = version b -> a = b.
Proof.
  induction 1 as [|x l Hs IH Hx]; simpl; [tauto|].
  rewrite Forall_forall in Hx.
  intros [<- | Ha] [<- | Hb] E; auto.
  - specialize (Hx _ Hb). lia.
  - specialize (Hx _ Ha). lia.
Qed.

Lemma find_picks (V : Z) (r : option T) :
  picks version (items bt) matches V r ->
  find (fun x => version x <=? V) (rev (filter matches (items bt))) = r.
Proof.
  intros Hr. pose proof matching_descending as Hd.
  pose proof (find_descending V _ Hd) as Hf.
  assert (Hvis : forall x, In x (rev (filter matches (items bt))) <->
                           In x (items bt) /\ matches x = true).
  { intros x. rewrite <- in_rev. apply filter_In. }
  destruct (find _ _) as [e|]; destruct r as [e0|]; simpl in Hr.
  - destruct Hf as (Hin & Hle & Hmax). destruct Hr as (Hin0 & Hm0 & Hle0 & Hmax0).
    f_equal. apply (descending_same_version _ _ _ Hd); auto.
    + apply Hvis. auto.
    + apply Hvis in Hin. destruct Hin as [Hi Hm].
      apply Z.le_antisymm; [apply Hmax0; auto | apply Hmax; auto; apply Hvis; auto].
  - destruct Hf as (Hin & Hle & _). apply Hvis in Hin. destruct Hin as [Hi Hm].
    specialize (Hr _ Hi Hm). lia.
  - destruct Hr as (Hin0 & Hm0 & Hle0 & _).
    assert (In e0 (rev (filter matches (items bt)))) by (apply Hvis; auto).
    specialize (Hf _ H). lia.
  - reflexivity.
Qed.

Lemma walk_firstHit {S : Type} (V : Z) (miss : S -> S) (hit : S -> T -> S) (st : S)
      (vis rest : list T) :
  Forall (fun x => matches x = true) vis ->
  Forall (fun x => matches x = false) rest ->
  walk (firstHit matches version V miss hit) st (vis ++ rest) =
  match find (fun x => version x <=? V) vis with
  | Some e => hit st e
  | None => match rest with [] => st | _ => miss st end
  end.
Proof.
  intros Hv Hr. induction Hv as [|x vis Hx Hv IH]; simpl.
  - destruct Hr as [|y rest Hy Hr]; simpl; auto.
    unfold firstHit. rewrite Hy. reflexivity.
  - unfold firstHit at 1. rewrite Hx. simpl. rewrite Z.gtb_ltb.
    destruct (Z.ltb_spec V (version x)) as [Hgt | Hle].
    + destruct (Z.leb_spec (version x) V); [lia|]. exact IH.
    + destruct (Z.leb_spec (version x) V); [|lia]. reflexivity.
Qed.

(** A descent with a first-hit visitor lands on the selection. *)
Lemma Descend_firstHit {S : Type} (V : Z) (miss : S -> S) (hit : S -> T -> S) (st : S)
      (r : option T) :
  picks version (items bt) matches V r ->
  exists rest,
    Forall (fun x => matches x = false) rest /\
    Descend bt pivot (firstHit matches version V miss hit) st =
    match r with
    | Some e => hit st e
    | None => match rest with [] => st | _ => miss st end
    end.
Proof.
  intros Hr. destruct descendFrom_matching as (rest & E & Hrest).
  exists rest. split; [exact Hrest|]. unfold Descend. rewrite E.
  rewrite walk_firstHit; auto.
  - rewrite (find_picks V r Hr). reflexivity.
  - apply Forall_rev, Forall_forall. intros x Hx. apply filter_In in Hx. tauto.
Qed.

End FirstHit.

Lemma picks_total {T : Type} (version : T -> Z) (l : list T) (P : T -> bool) (V : Z) :
  exists r, picks version l P V r.
Proof.
  induction l as [|a l [r Hr]].
  - exists None. intros e [].
  - destruct (P a && (version a <=? V)) eqn:Ea.
    + apply andb_true_iff in Ea. destruct Ea as [Ma Va]. apply Z.leb_le in Va.
      destruct r as [e|]; simpl in Hr.
      * destruct Hr as (Hin & Hm & Hle & Hmax).
        destruct (Z.le_gt_cases (version a) (version e)).
        -- exists (Some e). split; [right; exact Hin|]. split; [exact Hm|].
           split; [exact Hle|]. intros e' [<- | He'] Hm' Hv'; auto.
        -- exists (Some a). split; [left; reflexivity|]. split; [exact Ma|].
           split; [exact Va|].
           intros e' [<- | He'] Hm' Hv'; [lia|]. specialize (Hmax _ He' Hm' Hv'). lia.
      * exists (Some a). split; [left; reflexivity|]. split; [exact Ma|].
        split; [exact Va|].
        intros e' [<- | He'] Hm' Hv'; [lia|]. specialize (Hr _ He' Hm'). lia.
    + exists r. destruct r as [e|]; simpl in *.
      * destruct Hr as (Hin & Hm & Hle & Hmax).
        split; [right; exact Hin|]. split; [exact Hm|]. split; [exact Hle|].
        intros e' [<- | He'] Hm' Hv'; auto.
        rewrite Hm' in Ea. simpl in Ea. apply Z.leb_gt in Ea. lia.
      * intros e' [<- | He'] Hm'; auto.
        rewrite Hm' in Ea. simpl in Ea. apply Z.leb_gt in Ea. lia.
Qed.

(** Indices keyed by a prefix and a version, searched from the prefix with
    the largest version. *)
Section PrefixKey.
Context {T P : Type}.
Variable prefix : T -> P.
Variable ltP : P -> P -> bool.
Hypothesis HP : TotalLt ltP.
Variable version : T -> Z.
Variable bt : BTreeG T.
Hypothesis Hlt :
  forall a b, less bt a b
              = lexLt ltP Z.ltb (prefix a, version a) (prefix b, version b).
Hypothesis Hsorted : sortedIndex bt.
Hypothesis Hmax : Forall (fun e => version e <= MaxInt64) (items bt).
Variable p : P.
Variable pivot : T.
Hypothesis Hpivot : prefix pivot = p /\ version pivot = MaxInt64.
Variable matches : T -> bool.
Hypothesis Hmatches : forall x, matches x = true <-> prefix x = p.

Lemma prefix_below (x : T) :
  In x (items bt) -> matches x = true -> less bt pivot x = false.
Proof.
  intros Hx Hm. apply Hmatches in Hm. rewrite Forall_forall in Hmax.
  specialize (Hmax _ Hx). destruct Hpivot as [Hp Hv].
  rewrite Hlt. unfold lexLt. simpl. rewrite Hp, Hm, (ltK_irrefl _ HP), Hv.
  apply Z.ltb_ge. exact Hmax.
Qed.

Lemma prefix_sandwich (x y z : T) :
  less bt x y = true -> less bt z y = false -> prefix x = prefix z ->
  prefix y = prefix x.
Proof.
  rewrite !Hlt. unfold lexLt. simpl. intros Hxy Hzy E. rewrite <- E in Hzy.
  destruct (ltP (prefix x) (prefix y)) eqn:E1; [discriminate|].
  destruct (ltP (prefix y) (prefix x)) eqn:E2; [discriminate|].
  apply (ltK_total _ HP); auto.
Qed.

Lemma prefix_convex (x y : T) :
  less bt x y = true -> less bt pivot y = false ->
  matches x = true -> matches y = true.
Proof.
  intros Hxy Hpy Hm. apply Hmatches in Hm. apply Hmatches.
  rewrite <- Hm. apply (prefix_sandwich x y pivot); auto.
  destruct Hpivot. congruence.
Qed.

Lemma prefix_versions (x y : T) :
  matches x = true -> matches y = true -> less bt x y = true ->
  version x < version y.
Proof.
  intros Hx Hy. apply Hmatches in Hx, Hy. rewrite Hlt. unfold lexLt. simpl.
  rewrite Hx, Hy, (ltK_irrefl _ HP). apply Z.ltb_lt.
Qed.

Lemma Descend_prefix {S : Type} (V : Z) (miss : S -> S) (hit : S -> T -> S)
      (st : S) (r : option T) :
  picks version (items bt) matches V r ->
  exists rest,
    Forall (fun x => matches x = false) rest /\
    Descend bt pivot (firstHit matches version V miss hit) st =
    match r with
    | Some e => hit st e
    | None => match rest with [] => st | _ => miss st end
    end.
Proof.
  apply (Descend_firstHit version bt Hsorted pivot matches).
  - apply prefix_below.
  - apply prefix_convex.
  - apply prefix_versions.
Qed.

End PrefixKey.

(** ** Writing to any index *)

Lemma btSet_wfIndex {T K : Type} (key : T -> K) (ltK : K -> K -> bool)
      (cmp : T -> T -> bool) (version : T -> Z) (bt : BTreeG T) (n : T) :
  TotalLt ltK -> (forall a b, cmp a b = ltK (key a) (key b)) ->
  wfIndex cmp version bt -> version n <= MaxInt64 ->
  wfIndex cmp version (btSet bt n).
Proof.
  intros HK Hcmp (Hless & Hsorted & Hver) Hn.
  split; [exact Hless|]. split.
  - unfold sortedIndex, btSet. simpl.
    apply (setItems_sorted key ltK (less bt) HK); auto.
    intros a b. rewrite Hless. apply Hcmp.
  - unfold btSet. simpl. apply Forall_forall. intros z Hz.
    apply setItems_In in Hz. rewrite Forall_forall in Hver.
    destruct Hz as [-> | Hz]; auto.
Qed.

Lemma picks_btSet_newest {T : Type} (version : T -> Z) (bt : BTreeG T)
      (P : T -> bool) (n : T) (V : Z) :
  P n = true ->
  (forall e, In e (items bt) -> P e = true -> version e <= version n) ->
  version n <= V ->
  picks version (items (btSet bt n)) P V (Some n).
Proof.
  intros Hm Hnew HV. simpl. split; [apply setItems_new|]. split; [exact Hm|].
  split; [exact HV|]. intros e' He' Hm' Hv'.
  apply setItems_In in He'. destruct He' as [-> | He']; [lia|]. apply Hnew; auto.
Qed.

Lemma picks_btSet_below {T K : Type} (key : T -> K) (ltK : K -> K -> bool)
      (version : T -> Z) (bt : BTreeG T) (P : T -> bool) (n : T) (V : Z)
      (r : option T) :
  TotalLt ltK -> (forall a b, less bt a b = ltK (key a) (key b)) ->
  (forall a b, key a = key b -> version a = version b) ->
  V < version n ->
  picks version (items (btSet bt n)) P V r <-> picks version (items bt) P V r.
Proof.
  intros HK Hlt Hkv HV.
  assert (Hfwd : forall z, In z (items (btSet bt n)) -> version z <= V ->
                           In z (items bt)).
  { intros z Hz Hzv. apply setItems_In in Hz. destruct Hz as [-> | Hz]; auto. lia. }
  assert (Hbwd : forall z, In z (items bt) -> version z <= V ->
                           In z (items (btSet bt n))).
  { intros z Hz Hzv. apply (setItems_old key ltK (less bt) HK Hlt); auto.
    intros E. apply Hkv in E. lia. }
  destruct r as [e|]; simpl.
  - split; intros (Hin & Hm & Hle & Hmax).
    + split; [auto|]. split; [auto|]. split; [auto|].
      intros e' He' Hm' Hv'. apply Hmax; auto.
    + split; [auto|]. split; [auto|]. split; [auto|].
      intros e' He' Hm' Hv'. apply Hmax; auto.
  - split; intros Hnone e He Hm.
    + destruct (Z.le_gt_cases (version e) V); [|lia]. apply Hnone; auto.
    + destruct (Z.le_gt_cases (version e) V); [|lia]. apply Hnone; auto.
Qed.

(** ** Schema lookups *)

Lemma schemaByNameIter_firstHit (ver : Z) (name : string)
      (st : option model.DBInfo * bool) (x : schemaItem) :
  schemaByNameIter ver name st x =
  firstHit (schemaNamed name) si_schemaVersion ver
           (fun st => (fst st, false))
           (fun st item => if negb (si_tomb item)
                           then (Some (si_dbInfo item), true) else st)
           st x.
Proof.
  unfold schemaByNameIter, firstHit, schemaNamed.
  destruct (String.eqb (si_Name x) name); simpl; auto.
  rewrite Z.gtb_ltb.
  destruct (Z.leb_spec (si_schemaVersion x) ver);
    destruct (Z.ltb_spec ver (si_schemaVersion x)); try lia;
    destruct (si_tomb x); reflexivity.
Qed.

Lemma schemaByIDIter_firstHit (ver id : Z) (st : bool * string) (x : schemaIDName) :
  schemaByIDIter ver id st x =
  firstHit (schemaWithID id) sn_schemaVersion ver
           (fun st => (false, snd st))
           (fun st item => if negb (sn_tomb item) then (true, sn_name item) else st)
           st x.
Proof.
  unfold schemaByIDIter, firstHit, schemaWithID.
  destruct (sn_id x =? id); simpl; auto.
  rewrite Z.gtb_ltb.
  destruct (Z.leb_spec (sn_schemaVersion x) ver);
    destruct (Z.ltb_spec ver (sn_schemaVersion x)); try lia;
    destruct (sn_tomb x); reflexivity.
Qed.

Lemma walk_ext {T S : Type} (f g : S -> T -> S * bool) (l : list T) :
  (forall st x, f st x = g st x) -> forall st, walk f st l = walk g st l.
Proof.
  intros E. induction l as [|x l IH]; intros st; simpl; auto.
  rewrite E. destruct (g st x) as [s' c]. destruct c; auto.
Qed.

Lemma SchemaByName_picks (env : Env) (is_ : infoschemaV2) (d : Data)
      (schema : model.CIStr) (r : option schemaItem) :
  IsSpecialDB env (model.L schema) = false ->
  wfIndex compareSchemaItem si_schemaVersion (schemaMap d) ->
  picks si_schemaVersion (items (schemaMap d)) (schemaNamed (model.L schema))
        (schemaMetaVersion is_) r ->
  SchemaByName env is_ d schema = answerSchema r.
Proof.
  intros Hsp (Hless & Hsorted & Hmax) Hr. unfold SchemaByName. rewrite Hsp.
  unfold Descend.
  rewrite (walk_ext _ _ _ (schemaByNameIter_firstHit (schemaMetaVersion is_)
                                                     (model.L schema))).
  match goal with
  | |- walk _ _ (descendFrom _ ?pv) = _ => set (pivot := pv)
  end.
  destruct (Descend_prefix si_Name String.ltb TotalLt_string si_schemaVersion
              (schemaMap d)
              (fun a b => eq_trans (f_equal (fun c => c a b) Hless)
                                   (compareSchemaItem_lex a b))
              Hsorted Hmax (model.L schema) pivot (conj eq_refl eq_refl)
              (schemaNamed (model.L schema))
              (fun x => String.eqb_eq (si_Name x) (model.L schema))
              (schemaMetaVersion is_)
              (fun st : option model.DBInfo * bool => (fst st, false))
              (fun st item => if negb (si_tomb item)
                              then (Some (si_dbInfo item), true) else st)
              (None, false) r Hr) as (rest & _ & E).
  unfold Descend in E. rewrite E.
  destruct r as [item|]; simpl.
  - destruct (si_tomb item); reflexivity.
  - destruct rest; reflexivity.
Qed.

Lemma SchemaByID_picks (env : Env) (is_ : infoschemaV2) (d : Data) (id : Z)
      (r : option schemaIDName) :
  isTableVirtual env id = false ->
  wfIndex compareSchemaByID sn_schemaVersion (schemaID2Name d) ->
  picks sn_schemaVersion (items (schemaID2Name d)) (schemaWithID id)
        (schemaMetaVersion is_) r ->
  SchemaByID env is_ d id =
  match r with
  | Some item => if sn_tomb item then (None, false)
                 else SchemaByName env is_ d (NewCIStr env (sn_name item))
  | None => (None, false)
  end.
Proof.
  intros Hv (Hless & Hsorted & Hmax) Hr. unfold SchemaByID. rewrite Hv.
  unfold Descend.
  rewrite (walk_ext _ _ _ (schemaByIDIter_firstHit (schemaMetaVersion is_) id)).
  match goal with
  | |- context [walk _ _ (descendFrom _ ?pv)] => set (pivot := pv)
  end.
  destruct (Descend_prefix sn_id Z.ltb TotalLt_Z sn_schemaVersion
              (schemaID2Name d)
              (fun a b => eq_trans (f_equal (fun c => c a b) Hless)
                                   (compareSchemaByID_lex a b))
              Hsorted Hmax id pivot (conj eq_refl eq_refl)
              (schemaWithID id)
              (fun x => Z.eqb_eq (sn_id x) id)
              (schemaMetaVersion is_)
              (fun st : bool * string => (false, snd st))
              (fun st item => if negb (sn_tomb item)
                              then (true, sn_name item) else st)
              (false, EmptyString) r Hr) as (rest & _ & E).
  unfold Descend in E. rewrite E.
  destruct r as [item|]; simpl.
  - destruct (sn_tomb item); reflexivity.
  - destruct rest; reflexivity.
Qed.

(** X7: for an ordinary database name, [SchemaByName] answers with the
    entry of largest version at most [V] under that name: its descriptor
    when the entry is live, absent when it is a tomb or when there is no
    such entry. *)
Theorem X7_SchemaByName_uses_latest_entry :
  forall (env : Env) (is_ : infoschemaV2) (d : Data) (schema : model.CIStr)
         (r : option schemaItem),
    IsSpecialDB env (model.L schema) = false ->
    wfIndex compareSchemaItem si_schemaVersion (schemaMap d) ->
    picks si_schemaVersion (items (schemaMap d)) (schemaNamed (model.L schema))
          (schemaMetaVersion is_) r ->
    SchemaByName env is_ d schema = answerSchema r /\
    SchemaExists env is_ d schema
    = match r with Some item => negb (si_tomb item) | None => false end.
Proof.
  intros env is_ d schema r Hsp Hwf Hr.
  pose proof (SchemaByName_picks env is_ d schema r Hsp Hwf Hr) as E.
  split; [exact E|]. unfold SchemaExists. rewrite E.
  destruct r as [item|]; simpl; [destruct (si_tomb item)|]; reflexivity.
Qed.

Lemma addDB_wf (d : Data) (v : Z) (dbInfo : model.DBInfo) :
  wfSchemas d -> v <= MaxInt64 -> wfSchemas (addDB d v dbInfo).
Proof.
  intros [H1 H2] Hv. split; simpl.
  - apply (btSet_wfIndex keySchemaItem (lexLt String.ltb Z.ltb));
      auto using TotalLt_keySchemaItem, compareSchemaItem_lex.
  - apply (btSet_wfIndex keySchemaByID (lexLt Z.ltb Z.ltb));
      auto using TotalLt_keyByID, compareSchemaByID_lex.
Qed.

Lemma deleteDB_wf (d : Data) (v : Z) (dbInfo : model.DBInfo) :
  wfSchemas d -> v <= MaxInt64 -> wfSchemas (deleteDB d dbInfo v).
Proof.
  intros [H1 H2] Hv. split; simpl.
  - apply (btSet_wfIndex keySchemaItem (lexLt String.ltb Z.ltb));
      auto using TotalLt_keySchemaItem, compareSchemaItem_lex.
  - apply (btSet_wfIndex keySchemaByID (lexLt Z.ltb Z.ltb));
      auto using TotalLt_keyByID, compareSchemaByID_lex.
Qed.

(** X8: a database written by [addDB] at a version, with nothing recorded
    for its name or id above that version, is found from that version on by
    [SchemaByName] and by [SchemaByID], and the descriptor they hand out
    lists no tables. *)
Theorem X8_addDB_then_lookup :
  forall (env : Env) (is_ : infoschemaV2) (d : Data) (v : Z)
         (dbInfo : model.DBInfo) (schema : model.CIStr),
    wfSchemas d ->
    v <= MaxInt64 ->
    newestSchema d dbInfo v ->
    ordinaryDB env dbInfo ->
    model.L schema = model.L (model.dbiName dbInfo) ->
    v <= schemaMetaVersion is_ ->
    SchemaByName env is_ (addDB d v dbInfo) schema = (Some (clearTables dbInfo), true) /\
    SchemaByID env is_ (addDB d v dbInfo) (model.dbiID dbInfo)
    = (Some (clearTables dbInfo), true) /\
    model.dbiTables (clearTables dbInfo) = [].
Proof.
  intros env is_ d v dbInfo schema Hwf Hv [NM NI] (Hsp & Hvirt & Hlow) HL HV.
  pose proof (addDB_wf d v dbInfo Hwf Hv) as [WM WI].
  assert (EN : forall s, model.L s = model.L (model.dbiName dbInfo) ->
                         SchemaByName env is_ (addDB d v dbInfo) s
                         = (Some (clearTables dbInfo), true)).
  { intros s Hs.
    rewrite (SchemaByName_picks env is_ _ s
               (Some {| si_schemaVersion := v; si_dbInfo := clearTables dbInfo;
                        si_tomb := false |})); auto.
    - rewrite Hs. exact Hsp.
    - simpl schemaMap. apply picks_btSet_newest; auto.
      + unfold schemaNamed, si_Name. simpl. rewrite Hs. apply String.eqb_refl.
      + intros e He Hm. unfold schemaNamed in Hm. apply String.eqb_eq in Hm.
        simpl. apply NM; auto. congruence. }
  split; [apply EN; exact HL|]. split; [|reflexivity].
  rewrite (SchemaByID_picks env is_ _ _
             (Some {| sn_schemaVersion := v; sn_id := model.dbiID (clearTables dbInfo);
                      sn_name := model.O (model.dbiName (clearTables dbInfo));
                      sn_tomb := false |})); auto.
  - simpl. apply EN. simpl. exact Hlow.
  - simpl schemaID2Name. apply picks_btSet_newest; auto.
    + unfold schemaWithID. simpl. apply Z.eqb_refl.
    + intros e He Hm. unfold schemaWithID in Hm. apply Z.eqb_eq in Hm.
      simpl. apply NI; auto.
Qed.

Lemma X8_addDB_then_lookup_witness :
  SchemaByID sampleEnv (sampleSnapshot 4) (addDB NewData 3 sampleDB) 1
  = (Some (clearTables sampleDB), true).
Proof.
  apply (X8_addDB_then_lookup sampleEnv (sampleSnapshot 4) NewData 3 sampleDB
                              (sampleCIStr "test")).
  - split; (split; [reflexivity|]; split; constructor).
  - unfold MaxInt64. lia.
  - split; intros e [].
  - repeat split.
  - reflexivity.
  - simpl. lia.
Defined.

(** X9: a database tombed by [deleteDB] at a version, with nothing recorded
    for its name or id above that version, is absent from that version on
    for [SchemaByName] and for [SchemaByID]; below that version
    [SchemaByName] answers as before. *)
Theorem X9_deleteDB_shadows :
  forall (env : Env) (is_ : infoschemaV2) (d : Data) (v : Z)
         (dbInfo : model.DBInfo) (schema : model.CIStr),
    wfSchemas d ->
    v <= MaxInt64 ->
    newestSchema d dbInfo v ->
    IsSpecialDB env (model.L (model.dbiName dbInfo)) = false ->
    isTableVirtual env (model.dbiID dbInfo) = false ->
    model.L schema = model.L (model.dbiName dbInfo) ->
    (v <= schemaMetaVersion is_ ->
     SchemaByName env is_ (deleteDB d dbInfo v) schema = (None, false) /\
     SchemaByID env is_ (deleteDB d dbInfo v) (model.dbiID dbInfo) = (None, false)) /\
    (schemaMetaVersion is_ < v ->
     SchemaByName env is_ (deleteDB d dbInfo v) schema = SchemaByName env is_ d schema).
Proof.
  intros env is_ d v dbInfo schema Hwf Hv [NM NI] Hsp Hvirt HL.
  pose proof (deleteDB_wf d v dbInfo Hwf Hv) as [WM WI].
  assert (Hsp' : IsSpecialDB env (model.L schema) = false) by (rewrite HL; exact Hsp).
  split.
  - intros HV. split.
    + rewrite (SchemaByName_picks env is_ _ schema
                 (Some {| si_schemaVersion := v; si_dbInfo := dbInfo;
                          si_tomb := true |})); auto.
      simpl schemaMap. apply picks_btSet_newest; auto.
      * unfold schemaNamed, si_Name. simpl. rewrite HL. apply String.eqb_refl.
      * intros e He Hm. unfold schemaNamed in Hm. apply String.eqb_eq in Hm.
        simpl. apply NM; auto. congruence.
    + rewrite (SchemaByID_picks env is_ _ _
                 (Some {| sn_schemaVersion := v; sn_id := model.dbiID dbInfo;
                          sn_name := model.O (model.dbiName dbInfo);
                          sn_tomb := true |})); auto.
      simpl schemaID2Name. apply picks_btSet_newest; auto.
      * unfold schemaWithID. simpl. apply Z.eqb_refl.
      * intros e He Hm. unfold schemaWithID in Hm. apply Z.eqb_eq in Hm.
        simpl. apply NI; auto.
  - intros HV. destruct Hwf as [WM0 _].
    destruct (picks_total si_schemaVersion (items (schemaMap d))
                          (schemaNamed (model.L schema)) (schemaMetaVersion is_))
      as [r Hr].
    rewrite (SchemaByName_picks env is_ d schema r); auto.
    apply SchemaByName_picks; auto.
    simpl schemaMap.
    apply (picks_btSet_below keySchemaItem (lexLt String.ltb Z.ltb)); auto.
    + apply TotalLt_keySchemaItem.
    + intros a b. destruct WM0 as (Hless & _). rewrite Hless.
      apply compareSchemaItem_lex.
    + intros a b E. unfold keySchemaItem in E. congruence.
Qed.

Lemma X9_deleteDB_shadows_witness :
  SchemaByName sampleEnv (sampleSnapshot 6)
               (deleteDB (addDB NewData 3 sampleDB) sampleDB 5) (sampleCIStr "test")
  = (None, false).
Proof.
  destruct (X9_deleteDB_shadows sampleEnv (sampleSnapshot 6)
              (addDB NewData 3 sampleDB) 5 sampleDB (sampleCIStr "test"))
    as [H _].
  - apply addDB_wf; [|unfold MaxInt64; lia].
    split; (split; [reflexivity|]; split; constructor).
  - unfold MaxInt64. lia.
  - split.
    + intros e [<- | []] _. simpl. lia.
    + intros e [<- | []] _. simpl. lia.
  - reflexivity.
  - reflexivity.
  - reflexivity.
  - apply H. simpl. lia.
Defined.

Lemma X7_SchemaByName_uses_latest_entry_witness :
  SchemaByName sampleEnv (sampleSnapshot 4) (addDB NewData 3 sampleDB)
               (sampleCIStr "test")
  = (Some (clearTables sampleDB), true).
Proof.
  apply (fun H1 H2 H3 =>
           proj1 (X7_SchemaByName_uses_latest_entry
                    sampleEnv (sampleSnapshot 4) (addDB NewData 3 sampleDB)
                    (sampleCIStr "test")
                    (Some {| si_schemaVersion := 3; si_dbInfo := clearTables sampleDB;
                             si_tomb := false |}) H1 H2 H3)).
  - reflexivity.
  - split; [reflexivity|]. split; repeat constructor. unfold MaxInt64. simpl. lia.
  - split; [simpl; auto|]. split; [reflexivity|]. split; [simpl; lia|].
    intros e' [<- | []] _ _. simpl. lia.
Defined.

(** ** The registry of special databases *)

(** X10: for a special database name [TableByName] answers from the
    registry alone: the snapshot version and timestamp, the indices and the
    cache have no say, and no call is made on the cache, on an index or on
    the loader. *)
Theorem X10_special_db_bypasses_versions :
  forall (env : Env) (fuel1 fuel2 : nat) (is1 is2 : infoschemaV2) (d1 d2 : Data)
         (schema tbl : model.CIStr),
    IsSpecialDB env (model.L schema) = true ->
    specials d1 = specials d2 ->
    observe (TableByName env fuel1 is1 schema tbl d1)
    = observe (TableByName env fuel2 is2 schema tbl d2) /\
    exists r, TableByName env fuel1 is1 schema tbl d1 = Returned r d1 [] /\
              (r = inr ErrTableNotExists \/
               exists bundle t,
                 specialsLoad (specials d1) (model.L schema) = Some bundle /\
                 tablesLookup (st_tables bundle) (model.L tbl) = Some t /\
                 r = inl t).
Proof.
  intros env fuel1 fuel2 is1 is2 d1 d2 schema tbl Hsp Hs.
  unfold TableByName. rewrite Hsp. unfold bind, gets. rewrite <- Hs.
  destruct (specialsLoad (specials d1) (model.L schema)) as [bundle|] eqn:E1.
  - destruct (tablesLookup (st_tables bundle) (model.L tbl)) as [t|] eqn:E2; simpl.
    + split; [reflexivity|]. eexists. split; [reflexivity|]. right. eauto.
    + split; [reflexivity|]. eexists. split; [reflexivity|]. auto.
  - simpl. split; [reflexivity|]. eexists. split; [reflexivity|]. auto.
Qed.

Lemma specialsLoad_app (l : list (string * schemaTables)) (name : string)
      (v : schemaTables) :
  specialsLoad (l ++ [(name, v)]) name
  = match specialsLoad l name with Some b => Some b | None => Some v end.
Proof.
  induction l as [|[k b] l IH]; simpl.
  - rewrite String.eqb_refl. reflexivity.
  - destruct (String.eqb k name); auto.
Qed.

Lemma specialsLoad_app_other (l : list (string * schemaTables)) (name name' : string)
      (v : schemaTables) :
  name' <> name ->
  specialsLoad (l ++ [(name, v)]) name' = specialsLoad l name'.
Proof.
  intros Hne. induction l as [|[k b] l IH]; simpl.
  - destruct (String.eqb_spec name name'); [congruence | reflexivity].
  - destruct (String.eqb k name'); auto.
Qed.

(** X11: [addSpecialDB] registers a bundle under the lower-case name of its
    database unless one is registered already: afterwards the name resolves
    to the bundle registered first, every other name resolves as before,
    and registering again changes nothing. *)
Theorem X11_addSpecialDB_first_registration_wins :
  forall (d : Data) (di : model.DBInfo) (tables tables' : schemaTables),
    let name := model.L (model.dbiName di) in
    let d' := addSpecialDB d di tables in
    specialsLoad (specials d') name
    = Some (match specialsLoad (specials d) name with
            | Some b => b
            | None => tables
            end) /\
    (forall other, other <> name ->
                   specialsLoad (specials d') other = specialsLoad (specials d) other) /\
    addSpecialDB d' di tables' = d'.
Proof.
  intros d di tables tables' name d'. subst d'. unfold addSpecialDB. fold name.
  destruct (specialsLoad (specials d) name) as [b|] eqn:E.
  - rewrite E. split; [reflexivity|]. split; [reflexivity|]. reflexivity.
  - simpl specials. rewrite specialsLoad_app, E.
    split; [reflexivity|]. split; [|reflexivity].
    intros other Hne. apply specialsLoad_app_other. exact Hne.
Qed.

(** ** Lookups and the cache *)

Lemma lookupEntry_markVisited (k k' : tableCacheKey) (l : list sieveEntry) :
  lookupEntry k' (map (markVisited k) l) = lookupEntry k' l.
Proof.
  induction l as [|e l IH]; simpl; auto.
  rewrite IH.
  assert (E : se_key (markVisited k e) = se_key e /\
              se_value (markVisited k e) = se_value e).
  { unfold markVisited. destruct (tableCacheKey_eqb (se_key e) k); auto. }
  destruct E as [-> ->]. reflexivity.
Qed.

Lemma cached_sieveGet (c : Sieve) (k k' : tableCacheKey) :
  cached (snd (sieveGet c k)) k' = cached c k'.
Proof.
  unfold sieveGet, cached. destruct (lookupEntry k (entries c)); simpl; auto.
  apply lookupEntry_markVisited.
Qed.

Lemma readsOnly_pure {A : Type} (m : M A) :
  (forall d a d' tr, m d = Returned a d' tr -> d' = d /\ forall k, ~ In (EvCacheSet k) tr) ->
  readsOnly m.
Proof.
  intros Hm d a d' tr H. destruct (Hm _ _ _ _ H) as [-> Htr].
  split; [|split; auto].
  exists (tableCache d). symmetry. apply withTableCache_same.
Qed.

Lemma readsOnly_ret {A : Type} (a : A) : readsOnly (ret a).
Proof.
  apply readsOnly_pure. intros d a' d' tr H. inversion H; subst. auto.
Qed.

Lemma readsOnly_bind {A B : Type} (m : M A) (k : A -> M B) :
  readsOnly m -> (forall a, readsOnly (k a)) -> readsOnly (bind m k).
Proof.
  intros Hm Hk d b d' tr H. unfold bind in H.
  destruct (m d) as [a d1 tr1| |] eqn:E1; try discriminate.
  destruct (k a d1) as [b' d2 tr2| |] eqn:E2; try discriminate.
  inversion H; subst.
  destruct (Hm _ _ _ _ E1) as ([c1 ->] & Hc1 & Ht1).
  destruct (Hk a _ _ _ _ E2) as ([c2 ->] & Hc2 & Ht2).
  split; [exists c2; reflexivity|]. split.
  - intros k0. rewrite Hc2. apply Hc1.
  - intros k0 Hin. apply in_app_or in Hin. destruct Hin; [eapply Ht1 | eapply Ht2]; eauto.
Qed.

Lemma readsOnly_cacheGet (k : tableCacheKey) : readsOnly (cacheGet k).
Proof.
  intros d a d' tr H. unfold cacheGet in H.
  destruct (sieveGet (tableCache d) k) as [r c] eqn:E. inversion H; subst.
  split; [exists c; reflexivity|]. split.
  - intros k0. simpl. replace c with (snd (sieveGet (tableCache d) k))
      by (rewrite E; reflexivity).
    apply cached_sieveGet.
  - intros k0 [Hk | []]. discriminate.
Qed.

Lemma readsOnly_loadTableInfo (env : Env) (fuel : nat) (tblID dbID ts ver : Z) :
  readsOnly (loadTableInfo env fuel tblID dbID ts ver).
Proof.
  apply readsOnly_pure. intros d a d' tr H. unfold loadTableInfo in H.
  destruct (loadTableRetry env fuel 0 tblID dbID ts) as [[r|]|]; inversion H; subst.
  split; auto. intros k [Hk | []]. discriminate.
Qed.

Lemma readsOnly_tableByID_noRefill (env : Env) (fuel : nat) (is_ : infoschemaV2)
      (id : Z) :
  readsOnly (tableByID env fuel is_ id true).
Proof.
  unfold tableByID.
  destruct (tableIDIsValid env id); simpl; [|apply readsOnly_ret].
  apply readsOnly_bind; [apply readsOnly_cacheGet|]. intros [t|].
  { apply readsOnly_ret. }
  apply readsOnly_bind.
  { apply readsOnly_pure. intros d a d' tr H. inversion H; subst. split; auto.
    intros k [Hk | []]. discriminate. }
  intros [itm ok]. destruct ok; simpl; [|apply readsOnly_ret].
  destruct (isTableVirtual env id).
  { apply readsOnly_bind.
    - apply readsOnly_pure. intros d a d' tr H. inversion H; subst. auto.
    - intros sp. destruct (specialsLoad sp (dbName itm)) as [s|];
        [|apply readsOnly_ret].
      destruct (tablesLookup (st_tables s) (tableName itm)); apply readsOnly_ret. }
  apply readsOnly_bind; [apply readsOnly_cacheGet|]. intros [t|].
  - apply readsOnly_bind; [apply readsOnly_ret | intros; apply readsOnly_ret].
  - apply readsOnly_bind; [apply readsOnly_loadTableInfo|]. intros [t|e].
    + apply readsOnly_bind; [apply readsOnly_ret | intros; apply readsOnly_ret].
    + apply readsOnly_ret.
Qed.

Lemma readsOnly_collectTables (env : Env) (fuel : nat) (is_ : infoschemaV2)
      (ids : list Z) :
  forall acc, readsOnly (collectTables env fuel is_ ids acc).
Proof.
  induction ids as [|id ids IH]; intros acc; simpl.
  - apply readsOnly_ret.
  - apply readsOnly_bind; [apply readsOnly_tableByID_noRefill|].
    intros [[t|] [|]]; apply IH.
Qed.

Lemma readsOnly_schemaTablesRetry (env : Env)
      (ListSimpleTables : Z -> Z -> nat -> kvListReply)
      (fuel : nat) (is_ : infoschemaV2) (schema : model.CIStr) :
  forall retries attempt,
    readsOnly (schemaTablesRetry env ListSimpleTables retries attempt fuel is_ schema).
Proof.
  induction retries as [|retries IH]; intros attempt d a d' tr H; simpl in H.
  - discriminate.
  - destruct (SchemaByName env is_ d schema) as [[dbInfo|] [|]].
    2-4: exact (readsOnly_ret (@nil Table) _ _ _ _ H).
    destruct (ListSimpleTables (is_ts is_) (model.dbiID dbInfo) attempt).
    + eapply readsOnly_collectTables; eauto.
    + exact (readsOnly_ret (@nil Table) _ _ _ _ H).
    + eapply IH; eauto.
    + discriminate.
Qed.

(** X12: [tableByID] called with [noRefill] set, and so [SchemaTables],
    which only uses it that way, never installs a handle: whatever they
    return, every key of the cache holds what it held, only the cache was
    touched, and no [Set] was called on it. *)
Theorem X12_noRefill_lookups_leave_cache_contents :
  forall (env : Env) (ListSimpleTables : Z -> Z -> nat -> kvListReply)
         (fuel : nat) (is_ : infoschemaV2),
    (forall id, readsOnly (tableByID env fuel is_ id true)) /\
    (forall schema, readsOnly (SchemaTables env ListSimpleTables fuel is_ schema)).
Proof.
  intros env LST fuel is_. split.
  - intros id. apply readsOnly_tableByID_noRefill.
  - intros schema d a d' tr H. unfold SchemaTables in H.
    destruct (if IsSpecialDB env (model.L schema)
              then specialsLoad (specials d) (model.L schema) else None)
      as [bundle|].
    + exact (readsOnly_ret (map snd (st_tables bundle)) _ _ _ _ H).
    + eapply readsOnly_schemaTablesRetry; eauto.
Qed.

(** X13: when the cache holds a handle under the id and the version of the
    snapshot, [TableByID] returns that handle after the one probe of the
    cache: it searches no index and loads nothing, so the answer does not
    depend on what the index records for the id. *)
Theorem X13_TableByID_fast_path :
  forall (env : Env) (fuel : nat) (is_ : infoschemaV2) (id : Z) (d : Data)
         (t : Table),
    tableIDIsValid env id = true ->
    cached (tableCache d)
           {| tck_tableID := id; tck_schemaVersion := schemaMetaVersion is_ |}
    = Some t ->
    exists d',
      TableByID env fuel is_ id d
      = Returned (Some t, true) d'
                 [EvCacheGet {| tck_tableID := id;
                                tck_schemaVersion := schemaMetaVersion is_ |}] /\
      byID d' = byID d /\
      forall k, cached (tableCache d') k = cached (tableCache d) k.
Proof.
  intros env fuel is_ id d t Hv Hc.
  unfold TableByID, tableByID. rewrite Hv. simpl. unfold bind.
  pose proof (readsOnly_cacheGet
                {| tck_tableID := id; tck_schemaVersion := schemaMetaVersion is_ |})
    as Hro.
  destruct (cacheGet_hit d _ t Hc) as [d' E]. rewrite E. simpl.
  exists d'. split; [reflexivity|].
  destruct (Hro _ _ _ _ E) as ([c ->] & Hk & _). split; [reflexivity | exact Hk].
Qed.

Lemma X13_TableByID_fast_path_witness :
  let d := remove (add sampleEnv NewData (sampleItem "db" "t1" 1 5)
                       (sampleTable 1 "t1" false))
                  (sampleItem "db" "t1" 1 8) in
  exists d',
    TableByID sampleEnv 0 (sampleSnapshot 5) 1 d
    = Returned (Some (sampleTable 1 "t1" false), true) d'
               [EvCacheGet {| tck_tableID := 1; tck_schemaVersion := 5 |}].
Proof.
  intros d.
  destruct (X13_TableByID_fast_path sampleEnv 0 (sampleSnapshot 5) 1 d
                                    (sampleTable 1 "t1" false))
    as (d' & E & _).
  - reflexivity.
  - reflexivity.
  - exists d'. exact E.
Defined.

(** X14: when the index finds the table and the cache still holds a handle
    under the entry's own id and version, [TableByName] returns that handle
    without calling the loader or writing to the cache, whatever the fuel. *)
Theorem X14_TableByName_served_from_cache :
  forall (env : Env) (fuel : nat) (is_ : infoschemaV2) (schema tbl : model.CIStr)
         (d : Data) (itm : tableItem) (t : Table),
    IsSpecialDB env (model.L schema) = false ->
    search (byName d) (schemaMetaVersion is_)
           (endByName (model.L schema) (model.L tbl)) eqByName = (itm, true) ->
    cached (tableCache d)
           {| tck_tableID := tableID itm; tck_schemaVersion := schemaVersion itm |}
    = Some t ->
    exists d',
      TableByName env fuel is_ schema tbl d
      = Returned (inl t) d'
                 [EvSearchByName (model.L schema) (model.L tbl);
                  EvCacheGet {| tck_tableID := tableID itm;
                                tck_schemaVersion := schemaVersion itm |}] /\
      forall k, cached (tableCache d') k = cached (tableCache d) k.
Proof.
  intros env fuel is_ schema tbl d itm t Hsp Hs Hc.
  unfold TableByName. rewrite Hsp. unfold bind at 1. unfold searchByName.
  rewrite Hs. simpl. unfold bind.
  destruct (cacheGet_hit d _ t Hc) as [d' E]. rewrite E. simpl.
  exists d'. split; [reflexivity|].
  destruct (readsOnly_cacheGet _ _ _ _ _ E) as (_ & Hk & _). exact Hk.
Qed.

Lemma X14_TableByName_served_from_cache_witness :
  let d := add sampleEnv NewData (sampleItem "db" "t1" 1 5) (sampleTable 1 "t1" false) in
  exists d',
    TableByName sampleEnv 0 (sampleSnapshot 7) (sampleCIStr "db") (sampleCIStr "t1") d
    = Returned (inl (sampleTable 1 "t1" false)) d'
               [EvSearchByName "db" "t1";
                EvCacheGet {| tck_tableID := 1; tck_schemaVersion := 5 |}].
Proof.
  intros d.
  destruct (X14_TableByName_served_from_cache
              sampleEnv 0 (sampleSnapshot 7) (sampleCIStr "db") (sampleCIStr "t1") d
              (sampleItem "db" "t1" 1 5) (sampleTable 1 "t1" false))
    as (d' & E & _).
  - reflexivity.
  - reflexivity.
  - reflexivity.
  - exists d'. exact E.
Defined.

Lemma X10_special_db_bypasses_versions_witness :
  observe (TableByName sampleEnv 0 (sampleSnapshot 1)
                       (sampleCIStr "information_schema") (sampleCIStr "tables")
                       NewData)
  = observe (TableByName sampleEnv 3 (sampleSnapshot 9)
                         (sampleCIStr "information_schema") (sampleCIStr "tables")
                         (add sampleEnv NewData (sampleItem "db" "t1" 1 5)
                              (sampleTable 1 "t1" false))).
Proof.
  apply (X10_special_db_bypasses_versions sampleEnv 0 3).
  - reflexivity.
  - reflexivity.
Defined.

Lemma X12_noRefill_lookups_leave_cache_contents_witness :
  let d := add sampleEnv NewData (sampleItem "db" "t1" 1 5) (sampleTable 1 "t1" false) in
  exists a d' tr,
    tableByID sampleEnv 0 (sampleSnapshot 7) 1 true d = Returned a d' tr /\
    ~ In (EvCacheSet {| tck_tableID := 1; tck_schemaVersion := 7 |}) tr.
Proof.
  intros d.
  destruct (X12_noRefill_lookups_leave_cache_contents
              sampleEnv (fun _ _ _ => KlDBNotExists) 0 (sampleSnapshot 7))
    as [H1 _].
  edestruct (fun a d' tr => H1 1 d a d' tr) as (_ & _ & H3).
  { lazy. reflexivity. }
  eexists. eexists. eexists. split; [lazy; reflexivity | apply H3].
Defined.

(** ** Loading a table *)

Lemma loadTableRetry_flashbacks (env : Env) (tblID dbID ts : Z) :
  forall n fuel attempt,
    (forall i, (i < n)%nat -> GetTable env ts dbID tblID (attempt + i) = KvFlashback) ->
    (n < fuel)%nat ->
    loadTableRetry env fuel attempt tblID dbID ts
    = loadTableRetry env (fuel - n) (attempt + n) tblID dbID ts.
Proof.
  induction n as [|n IH]; intros fuel attempt Hfl Hfuel.
  - rewrite Nat.sub_0_r, Nat.add_0_r. reflexivity.
  - destruct fuel as [|fuel]; [lia|]. simpl.
    pose proof (Hfl 0%nat ltac:(lia)) as H0. rewrite Nat.add_0_r in H0. rewrite H0.
    rewrite (IH fuel (S attempt)).
    + f_equal. lia.
    + intros i Hi. replace (S attempt + i)%nat with (attempt + S i)%nat by lia.
      apply Hfl. lia.
    + lia.
Qed.

(** X15: [loadTableInfo] sits out the flashback errors of the metadata
    store and acts on its first other reply, the store being left as it is:
    a descriptor is turned into a handle, a nil descriptor gives
    [ErrTableNotExists], any other error makes it panic; and if the budget
    of passes is used up by flashbacks it has not returned. *)
Theorem X15_loadTableInfo_acts_on_first_other_reply :
  forall (env : Env) (fuel n : nat) (tblID dbID ts ver : Z) (d : Data),
    (forall i, (i < n)%nat -> GetTable env ts dbID tblID i = KvFlashback) ->
    ((fuel <= n)%nat -> loadTableInfo env fuel tblID dbID ts ver d = OutOfFuel) /\
    ((n < fuel)%nat ->
     (GetTable env ts dbID tblID n = KvFailure ->
      loadTableInfo env fuel tblID dbID ts ver d = Panicked) /\
     (GetTable env ts dbID tblID n = KvValue None ->
      loadTableInfo env fuel tblID dbID ts ver d
      = Returned (inr ErrTableNotExists) d [EvLoadTable tblID dbID ts ver]) /\
     (forall tblInfo,
         GetTable env ts dbID tblID n = KvValue (Some tblInfo) ->
         loadTableInfo env fuel tblID dbID ts ver d
         = Returned (match TableFromMeta env dbID tblInfo with
                     | Some t => inl t
                     | None => inr ErrExternal
                     end) d [EvLoadTable tblID dbID ts ver])).
Proof.
  intros env fuel n tblID dbID ts ver d Hfl. split.
  - intros Hle. unfold loadTableInfo.
    assert (G : forall f a, (forall i, (i < f)%nat ->
                                       GetTable env ts dbID tblID (a + i) = KvFlashback) ->
                            loadTableRetry env f a tblID dbID ts = None).
    { induction f as [|f IH]; intros a Ha; simpl; auto.
      pose proof (Ha 0%nat ltac:(lia)) as H0. rewrite Nat.add_0_r in H0. rewrite H0.
      apply IH. intros i Hi. replace (S a + i)%nat with (a + S i)%nat by lia.
      apply Ha. lia. }
    rewrite G; auto. intros i Hi. apply Hfl. lia.
  - intros Hlt. unfold loadTableInfo.
    rewrite (loadTableRetry_flashbacks env tblID dbID ts n fuel 0); auto.
    simpl (0 + n)%nat.
    destruct (fuel - n)%nat as [|f] eqn:Ef; [lia|]. simpl.
    split; [|split].
    + intros ->. reflexivity.
    + intros ->. reflexivity.
    + intros tblInfo ->. destruct (TableFromMeta env dbID tblInfo); reflexivity.
Qed.

Lemma X15_loadTableInfo_acts_on_first_other_reply_witness :
  loadTableInfo sampleEnv 1 1 1 0 7 NewData
  = Returned (inr ErrTableNotExists) NewData [EvLoadTable 1 1 0 7].
Proof.
  destruct (X15_loadTableInfo_acts_on_first_other_reply
              sampleEnv 1 0 1 1 0 7 NewData) as [_ H].
  - intros i Hi. lia.
  - destruct H as (_ & H & _); [lia|]. apply H. reflexivity.
Defined.

(** ** The version-timestamp log, again *)

(** X16: a version that [getVersionByTS] returns is a version recorded in
    the log, with a known timestamp not after [ts]; and when every entry of
    the log has an unknown timestamp or one after [ts] it returns
    [(0, false)]. *)
Theorem X16_getVersionByTS_returns_recorded_versions :
  forall (isd : Data) (ts : Z),
    (forall V, getVersionByTS isd ts = (V, true) ->
               exists vt, In vt (versionTimestamps isd) /\ vt_schemaVersion vt = V /\
                          timestamp vt <> 0 /\ timestamp vt <= ts) /\
    (Forall (skipped ts) (versionTimestamps isd) ->
     getVersionByTS isd ts = (0, false)).
Proof.
  intros isd ts. unfold getVersionByTS, getVersionByTSNoLock. split.
  - intros V H. apply getVersionByTSLoop_found in H.
    destruct H as (pre & vt & post & E & _ & Hns & HV & _).
    exists vt. split; [rewrite E; apply in_or_app; simpl; auto|].
    split; [exact HV|]. unfold skipped in Hns. lia.
  - intros Hall.
    destruct (getVersionByTSLoop_cases ts (versionTimestamps isd) None)
      as [H | (vt & Hin & H)]; auto.
    apply getVersionByTSLoop_found in H.
    destruct H as (pre & x & post & E & _ & Hns & _).
    rewrite Forall_forall in Hall. exfalso. apply Hns. apply Hall.
    rewrite E. apply in_or_app. simpl. auto.
Qed.

Lemma X16_getVersionByTS_returns_recorded_versions_witness :
  getVersionByTS sampleLog 40 = (0, false).
Proof.
  apply (proj2 (X16_getVersionByTS_returns_recorded_versions sampleLog 40)).
  repeat constructor; right; simpl; lia.
Defined.

(** ** Evicting a table *)

(** X17: [EvictTable] on a table the snapshot finds by name empties the two
    cache keys of the table, the one under the snapshot version and the one
    under the entry's own version, and nothing else: every other key and
    every index stay as they were; on a table the snapshot does not find it
    changes nothing. *)
Theorem X17_EvictTable_empties_two_keys :
  forall (is_ : infoschemaV2) (d : Data) (schema tbl : string),
    let r := search (byName d) (schemaMetaVersion is_)
                    (endByName schema tbl) eqByName in
    let d' := EvictTable is_ d schema tbl in
    let k1 := {| tck_tableID := tableID (fst r);
                 tck_schemaVersion := schemaMetaVersion is_ |} in
    let k2 := {| tck_tableID := tableID (fst r);
                 tck_schemaVersion := schemaVersion (fst r) |} in
    (snd r = false -> d' = d) /\
    (snd r = true ->
     cached (tableCache d') k1 = None /\
     cached (tableCache d') k2 = None /\
     (forall k, k <> k1 -> k <> k2 ->
                cached (tableCache d') k = cached (tableCache d) k) /\
     byID d' = byID d /\ byName d' = byName d /\
     tableInfoResident d' = tableInfoResident d /\ pid2tid d' = pid2tid d).
Proof.
  intros is_ d schema tbl r d' k1 k2. subst d'. unfold EvictTable. fold r.
  destruct r as [itm ok] eqn:Er. simpl in k1, k2. simpl snd. split.
  - intros ->. reflexivity.
  - intros ->. simpl negb. cbv iota. simpl tableCache.
    fold k1. fold k2. split; [|split; [|split]].
    + destruct (tableCacheKey_eqb k1 k2) eqn:E.
      * apply tableCacheKey_eqb_eq in E. rewrite E. apply cached_sieveRemove_same.
      * rewrite cached_sieveRemove_other.
        -- apply cached_sieveRemove_same.
        -- intros Heq. rewrite Heq in E.
           assert (tableCacheKey_eqb k2 k2 = true) by (apply tableCacheKey_eqb_eq; auto).
           congruence.
    + apply cached_sieveRemove_same.
    + intros k H1 H2. rewrite !cached_sieveRemove_other; auto.
    + repeat split.
Qed.

Lemma X17_EvictTable_empties_two_keys_witness :
  let d := add sampleEnv NewData (sampleItem "db" "t1" 1 5) (sampleTable 1 "t1" false) in
  cached (tableCache (EvictTable (sampleSnapshot 7) d "db" "t1"))
         {| tck_tableID := 1; tck_schemaVersion := 5 |} = None /\
  EvictTable (sampleSnapshot 3) d "db" "t1" = d.
Proof.
  intros d. split.
  - destruct (X17_EvictTable_empties_two_keys (sampleSnapshot 7) d "db" "t1")
      as [_ H].
    destruct H as (_ & H & _); [reflexivity | exact H].
  - destruct (X17_EvictTable_empties_two_keys (sampleSnapshot 3) d "db" "t1")
      as [H _].
    apply H. reflexivity.
Defined.

(** ** Partition lookups *)

Lemma partitionIter_firstHit (ver pid : Z) (st : bool * partitionItem)
      (x : partitionItem) :
  partitionIter ver pid st x =
  firstHit (partitionWithID pid) pi_schemaVersion ver
           (fun st => st) (fun _ item => (negb (pi_tomb item), item)) st x.
Proof.
  unfold partitionIter, firstHit, partitionWithID.
  destruct (partitionID x =? pid); simpl; auto.
  rewrite Z.gtb_ltb.
  destruct (Z.leb_spec (pi_schemaVersion x) ver);
    destruct (Z.ltb_spec ver (pi_schemaVersion x)); try lia; reflexivity.
Qed.

Lemma partitionDescent_picks (is_ : infoschemaV2) (d : Data) (pid : Z)
      (r : option partitionItem) :
  wfPartitions d ->
  picks pi_schemaVersion (items (pid2tid d)) (partitionWithID pid)
        (schemaMetaVersion is_) r ->
  partitionDescent is_ d pid = answerPartition r.
Proof.
  intros (Hless & Hsorted & Hmax) Hr. unfold partitionDescent, Descend.
  rewrite (walk_ext _ _ _ (partitionIter_firstHit (schemaMetaVersion is_) pid)).
  destruct (Descend_prefix partitionID Z.ltb TotalLt_Z pi_schemaVersion
              (pid2tid d)
              (fun a b => eq_trans (f_equal (fun c => c a b) Hless)
                                   (comparePartitionItem_lex a b))
              Hsorted Hmax pid (endPartition pid) (conj eq_refl eq_refl)
              (partitionWithID pid)
              (fun x => Z.eqb_eq (partitionID x) pid)
              (schemaMetaVersion is_)
              (fun st : bool * partitionItem => st)
              (fun _ item => (negb (pi_tomb item), item))
              (false, zeroPartitionItem) r Hr) as (rest & _ & E).
  unfold Descend in E. rewrite E.
  destruct r as [item|]; simpl; auto. destruct rest; reflexivity.
Qed.

(** X18: the descent that opens [FindTableByPartitionID] lands on the entry
    of largest version at most [V] for the partition id; when that entry is
    a tomb, or when there is none, the lookup returns the triple of nils at
    once, without looking any table up. *)
Theorem X18_partition_lookup_uses_latest_entry :
  forall (env : Env) (fuel : nat) (is_ : infoschemaV2) (d : Data) (pid : Z)
         (r : option partitionItem),
    wfPartitions d ->
    picks pi_schemaVersion (items (pid2tid d)) (partitionWithID pid)
          (schemaMetaVersion is_) r ->
    partitionDescent is_ d pid = answerPartition r /\
    (fst (answerPartition r) = false ->
     FindTableByPartitionID env fuel is_ pid d = Returned None d []).
Proof.
  intros env fuel is_ d pid r Hwf Hr.
  pose proof (partitionDescent_picks is_ d pid r Hwf Hr) as E.
  split; [exact E|]. intros Hno. unfold FindTableByPartitionID. rewrite E.
  destruct (answerPartition r) as [ok pi]. simpl in Hno. subst ok. reflexivity.
Qed.

Lemma X18_partition_lookup_uses_latest_entry_witness :
  FindTableByPartitionID sampleEnv 0 (sampleSnapshot 2) 100
                         (add sampleEnv NewData (sampleItem "test" "t" 1 3)
                              samplePartitioned)
  = Returned None (add sampleEnv NewData (sampleItem "test" "t" 1 3)
                       samplePartitioned) [].
Proof.
  apply (fun H1 H2 =>
           proj2 (X18_partition_lookup_uses_latest_entry
                    sampleEnv 0 (sampleSnapshot 2) _ 100 None H1 H2)).
  - split; [reflexivity|]. split; repeat constructor; unfold MaxInt64; simpl; lia.
  - intros e [<- | [<- | []]] _; simpl; lia.
  - reflexivity.
Defined.

(** Writing one entry per partition definition. *)
Section PartitionWrites.
Variable mk : model.PartitionDefinition -> partitionItem.
Hypothesis Hmk_id : forall def, partitionID (mk def) = model.pdID def.
Hypothesis Hmk_eq :
  forall d1 d2, model.pdID d1 = model.pdID d2 -> mk d1 = mk d2.
Variable ver : Z.
Hypothesis Hmk_ver : forall def, pi_schemaVersion (mk def) = ver.

Lemma writePartitions_In (defs : list model.PartitionDefinition)
      (def : model.PartitionDefinition) :
  forall bt,
    less bt = comparePartitionItem ->
    In (mk def) (items bt) \/ In def defs ->
    In (mk def) (items (fold_left (fun bt d => btSet bt (mk d)) defs bt)).
Proof.
  induction defs as [|d defs IH]; intros bt Hless H; simpl.
  - destruct H as [H | []]. exact H.
  - apply IH; [exact Hless|].
    destruct H as [H | [-> | H]]; auto.
    + left. destruct (Z.eq_dec (model.pdID d) (model.pdID def)) as [E | NE].
      * rewrite <- (Hmk_eq _ _ E). apply setItems_new.
      * apply (setItems_old keyPartition (lexLt Z.ltb Z.ltb) (less bt)
                            TotalLt_keyByID); auto.
        -- intros a b. rewrite Hless. apply comparePartitionItem_lex.
        -- unfold keyPartition. rewrite !Hmk_id. congruence.
    + left. apply setItems_new.
Qed.

Lemma writePartitions_inv (defs : list model.PartitionDefinition) :
  forall bt e,
    In e (items (fold_left (fun bt d => btSet bt (mk d)) defs bt)) ->
    In e (items bt) \/ exists def, In def defs /\ e = mk def.
Proof.
  induction defs as [|d defs IH]; intros bt e He; simpl in He; auto.
  apply IH in He. destruct He as [He | (def & Hd & ->)].
  - apply setItems_In in He. destruct He as [-> | He]; auto.
    right. exists d. simpl. auto.
  - right. exists def. simpl. auto.
Qed.

Lemma writePartitions_wf (defs : list model.PartitionDefinition) :
  ver <= MaxInt64 ->
  forall bt,
    wfIndex comparePartitionItem pi_schemaVersion bt ->
    wfIndex comparePartitionItem pi_schemaVersion
            (fold_left (fun bt d => btSet bt (mk d)) defs bt).
Proof.
  intros Hv. induction defs as [|d defs IH]; intros bt Hwf; simpl; auto.
  apply IH. apply (btSet_wfIndex keyPartition (lexLt Z.ltb Z.ltb));
    auto using TotalLt_keyByID, comparePartitionItem_lex.
  rewrite Hmk_ver. exact Hv.
Qed.

Lemma writePartitions_picks (defs : list model.PartitionDefinition)
      (def : model.PartitionDefinition) (bt : BTreeG partitionItem) (V : Z) :
  less bt = comparePartitionItem ->
  In def defs ->
  (forall e, In e (items bt) -> partitionID e = model.pdID def ->
             pi_schemaVersion e <= ver) ->
  ver <= V ->
  picks pi_schemaVersion
        (items (fold_left (fun bt d => btSet bt (mk d)) defs bt))
        (partitionWithID (model.pdID def)) V (Some (mk def)).
Proof.
  intros Hless Hin Hnew HV. simpl. split; [|split; [|split]].
  - apply writePartitions_In; auto.
  - unfold partitionWithID. rewrite Hmk_id. apply Z.eqb_refl.
  - rewrite Hmk_ver. exact HV.
  - intros e' He' Hm' Hv'. unfold partitionWithID in Hm'. apply Z.eqb_eq in Hm'.
    rewrite Hmk_ver. apply writePartitions_inv in He'.
    destruct He' as [He' | (d0 & _ & ->)]; [auto | rewrite Hmk_ver; lia].
Qed.

End PartitionWrites.

(** X19: [add] of a partitioned table writes one live entry per partition
    definition at the version of the item; when nothing newer is recorded
    for a partition, the descent of [FindTableByPartitionID] at a snapshot
    from that version on lands on this entry and so on the id of the table. *)
Theorem X19_add_registers_partitions :
  forall (env : Env) (d : Data) (item : tableItem) (tbl : Table)
         (defs : list model.PartitionDefinition)
         (def : model.PartitionDefinition) (is_ : infoschemaV2),
    wfPartitions d ->
    schemaVersion item <= MaxInt64 ->
    model.GetPartitionInfo (Meta tbl) = Some defs ->
    In def defs ->
    newestPartition d (model.pdID def) (schemaVersion item) ->
    schemaVersion item <= schemaMetaVersion is_ ->
    wfPartitions (add env d item tbl) /\
    partitionDescent is_ (add env d item tbl) (model.pdID def)
    = (true, livePartition (schemaVersion item) (model.ID (Meta tbl)) def).
Proof.
  intros env d item tbl defs def is_ Hwf Hv Hdefs Hin Hnew HV.
  assert (Hwf' : wfPartitions (add env d item tbl)).
  { unfold wfPartitions. simpl. rewrite Hdefs.
    apply (writePartitions_wf
             (livePartition (schemaVersion item) (model.ID (Meta tbl)))
             (schemaVersion item)); auto. }
  split; [exact Hwf'|].
  rewrite (partitionDescent_picks is_ _ (model.pdID def)
             (Some (livePartition (schemaVersion item) (model.ID (Meta tbl)) def))
             Hwf'); [reflexivity|].
  simpl pid2tid. rewrite Hdefs.
  apply (writePartitions_picks
           (livePartition (schemaVersion item) (model.ID (Meta tbl)))
           (fun _ => eq_refl)
           (fun d1 d2 E => f_equal (fun p => Build_partitionItem p _ _ _) E)
           (schemaVersion item) (fun _ => eq_refl)); auto.
  exact (proj1 Hwf).
Qed.

Lemma X19_add_registers_partitions_witness :
  partitionDescent (sampleSnapshot 4)
                   (add sampleEnv NewData (sampleItem "test" "t" 1 3)
                        samplePartitioned) 100
  = (true, {| partitionID := 100; pi_schemaVersion := 3; pi_tableID := 1;
              pi_tomb := false |}).
Proof.
  refine (proj2 (X19_add_registers_partitions
                   sampleEnv NewData (sampleItem "test" "t" 1 3)
                   samplePartitioned _
                   {| model.pdID := 100; model.pdPlacementPolicyRef := false |}
                   (sampleSnapshot 4) _ _ eq_refl _ _ _)).
  - split; [reflexivity|]. split; [apply SSorted_nil | apply Forall_nil].
  - unfold MaxInt64. simpl. lia.
  - simpl. auto.
  - intros e [].
  - simpl. lia.
Defined.

(** X20: once [applyDropTableV2] has found a partitioned table, a lookup of
    any of its partition ids at a snapshot from the version of the diff on
    returns the triple of nils, provided nothing newer than the diff is
    recorded for that partition. *)
Theorem X20_dropped_partitions_are_hidden :
  forall (env : Env) (fuel fuel' : nat) (b : Builder) (diff : SchemaDiff)
         (dbInfo : model.DBInfo) (id : Z) (affected : list Z) (table : Table)
         (d0 : Data) (tr0 : list event)
         (defs : list model.PartitionDefinition)
         (def : model.PartitionDefinition) (is_ : infoschemaV2),
    wfPartitions (infoData b) ->
    sd_Version diff <= MaxInt64 ->
    TableByID env fuel (b_infoschemaV2 b) id (infoData b)
    = Returned (Some table, true) d0 tr0 ->
    model.GetPartitionInfo (Meta table) = Some defs ->
    In def defs ->
    newestPartition (infoData b) (model.pdID def) (sd_Version diff) ->
    sd_Version diff <= schemaMetaVersion is_ ->
    exists b' tr,
      applyDropTableV2 env fuel b diff dbInfo id affected
      = Returned affected b' tr /\
      wfPartitions (infoData b') /\
      FindTableByPartitionID env fuel' is_ (model.pdID def) (infoData b')
      = Returned None (infoData b') [].
Proof.
  intros env fuel fuel' b diff dbInfo id affected table d0 tr0 defs def is_
         Hwf Hv Hfind Hdefs Hin Hnew HV.
  destruct (cacheOnly_tableByID env fuel (b_infoschemaV2 b) id false
                                (infoData b) _ d0 tr0 Hfind) as [c Hd0].
  unfold applyDropTableV2. simpl. rewrite Hfind.
  eexists. eexists. split; [reflexivity|].
  assert (Hp : pid2tid d0 = pid2tid (infoData b)) by (rewrite Hd0; reflexivity).
  set (d2 := remove _ _).
  assert (Hp2 : pid2tid d2
                = fold_left (fun bt d => btSet bt (tombPartition (sd_Version diff)
                                                                 (Meta table) d))
                            defs (pid2tid (infoData b))).
  { unfold d2. simpl. rewrite Hp. unfold tombPartitions. rewrite Hdefs.
    reflexivity. }
  assert (Hwf2 : wfPartitions d2).
  { unfold wfPartitions. rewrite Hp2.
    apply (writePartitions_wf (tombPartition (sd_Version diff) (Meta table))
                              (sd_Version diff)); auto. }
  simpl infoData. split; [exact Hwf2|].
  unfold FindTableByPartitionID.
  rewrite (partitionDescent_picks is_ d2 (model.pdID def)
             (Some (tombPartition (sd_Version diff) (Meta table) def)) Hwf2);
    [reflexivity|].
  rewrite Hp2.
  apply (writePartitions_picks
           (tombPartition (sd_Version diff) (Meta table))
           (fun _ => eq_refl)
           (fun d1 d2 E => f_equal (fun p => Build_partitionItem p _ _ _) E)
           (sd_Version diff) (fun _ => eq_refl)); auto.
  exact (proj1 Hwf).
Qed.

Lemma X20_dropped_partitions_are_hidden_witness :
  let d := add sampleEnv NewData (sampleItem "test" "t" 1 3) samplePartitioned in
  let diff := {| sd_Version := 9; sd_SchemaID := 1 |} in
  exists b' tr,
    applyDropTableV2 sampleEnv 0 (sampleBuilder d 9) diff sampleDB 1 []
    = Returned [] b' tr /\
    FindTableByPartitionID sampleEnv 0 (sampleSnapshot 12) 200 (infoData b')
    = Returned None (infoData b') [].
Proof.
  intros d diff.
  edestruct (fun d0 tr0 defs =>
               X20_dropped_partitions_are_hidden
                 sampleEnv 0 0 (sampleBuilder d 9) diff sampleDB 1 []
                 samplePartitioned d0 tr0 defs
                 {| model.pdID := 200; model.pdPlacementPolicyRef := false |}
                 (sampleSnapshot 12))
    as (b' & tr & E & _ & Hfind).
  - split; [reflexivity|].
    split; repeat constructor; unfold MaxInt64; simpl; lia.
  - unfold MaxInt64. simpl. lia.
  - lazy. reflexivity.
  - reflexivity.
  - simpl. auto.
  - intros e [<- | [<- | []]] _; simpl; lia.
  - simpl. lia.
  - exists b', tr. split; [exact E | exact Hfind].
Defined.

(** ** Enumeration over the attribute index *)

Lemma walk_invariant {T S : Type} (iter : S -> T -> S * bool)
      (Inv : S -> list T -> Prop) (l : list T) :
  (forall pre x post st, l = pre ++ x :: post -> Inv st pre ->
                         Inv (fst (iter st x)) (pre ++ [x])) ->
  forall post pre st,
    l = pre ++ post -> Inv st pre -> exists pre', Inv (walk iter st post) pre'.
Proof.
  intros Hstep. induction post as [|x post IH]; intros pre st El Hinv; simpl.
  - exists pre. exact Hinv.
  - pose proof (Hstep pre x post st El Hinv) as H.
    destruct (iter st x) as [s' c]. simpl in H. destruct c.
    + apply (IH (pre ++ [x])); auto. rewrite <- app_assoc. exact El.
    + exists (pre ++ [x]). exact H.
Qed.

Lemma walk_total {T S : Type} (iter : option S -> T -> option S * bool)
      (l : list T) :
  (forall s x, In x l -> fst (iter (Some s) x) <> None) ->
  forall s, walk iter (Some s) l <> None.
Proof.
  induction l as [|x l IH]; intros Hstep s; simpl; [discriminate|].
  pose proof (Hstep s x (or_introl eq_refl)) as H.
  destruct (iter (Some s) x) as [[s'|] c]; simpl in H; [|congruence].
  destruct c; [|discriminate]. apply IH. intros s0 y Hy. apply Hstep. right. exact Hy.
Qed.

Lemma compareTableInfoItem_inv (a b : tableInfoItem) :
  compareTableInfoItem a b = true ->
  String.ltb (tii_dbName b) (tii_dbName a) = false /\
  (tii_dbName a = tii_dbName b ->
   tii_tableID a <= tii_tableID b /\
   (tii_tableID a = tii_tableID b -> tii_schemaVersion a < tii_schemaVersion b)).
Proof.
  unfold compareTableInfoItem. intros H.
  destruct (String.ltb (tii_dbName a) (tii_dbName b)) eqn:Eab.
  - split.
    + destruct (String.ltb (tii_dbName b) (tii_dbName a)) eqn:Eba; auto.
      pose proof (ltK_trans _ TotalLt_string _ _ _ Eab Eba) as F.
      rewrite (ltK_irrefl _ TotalLt_string) in F. discriminate.
    + intros E. rewrite E, (ltK_irrefl _ TotalLt_string) in Eab. discriminate.
  - destruct (String.ltb (tii_dbName b) (tii_dbName a)) eqn:Eba; [discriminate|].
    split; [reflexivity|]. intros _. rewrite Z.gtb_ltb in H.
    destruct (Z.ltb_spec (tii_tableID a) (tii_tableID b)); [lia|].
    destruct (Z.ltb_spec (tii_tableID b) (tii_tableID a)); [discriminate|].
    apply Z.ltb_lt in H. lia.
Qed.

Lemma compareTableInfoItem_newer (a b : tableInfoItem) :
  tii_dbName a = tii_dbName b -> tii_tableID a = tii_tableID b ->
  tii_schemaVersion a < tii_schemaVersion b ->
  compareTableInfoItem a b = true.
Proof.
  intros Ed Ei Hv. unfold compareTableInfoItem.
  rewrite Ed, Ei, (ltK_irrefl _ TotalLt_string), Z.gtb_ltb, Z.ltb_irrefl.
  apply Z.ltb_lt. exact Hv.
Qed.

Lemma compareTableInfoItem_sandwich (x y z : tableInfoItem) :
  compareTableInfoItem x y = true ->
  compareTableInfoItem y z = true \/ y = z ->
  tii_dbName x = tii_dbName z -> tii_tableID x = tii_tableID z ->
  tii_tableID y = tii_tableID x.
Proof.
  intros Hxy [Hyz | ->] Ed Ei; [|auto].
  apply compareTableInfoItem_inv in Hxy, Hyz.
  destruct Hxy as [Hyx Hx], Hyz as [Hzy Hy]. rewrite <- Ed in Hzy.
  pose proof (ltK_total _ TotalLt_string _ _ Hzy Hyx) as E.
  destruct (Hx E) as [H1 _]. destruct Hy as [H2 _]; [congruence|]. lia.
Qed.

(** The items of a sorted attribute index met before [x] in the reverse
    traversal are those above [x]. *)
Lemma reverse_split (bt : BTreeG tableInfoItem)
      (pre post : list tableInfoItem) (x : tableInfoItem) :
  less bt = compareTableInfoItem -> sortedIndex bt ->
  reverseItems bt = pre ++ x :: post ->
  In x (items bt) /\
  (forall y, In y pre -> In y (items bt) /\ compareTableInfoItem x y = true) /\
  (forall z, In z (items bt) -> compareTableInfoItem x z = true -> In z pre).
Proof.
  intros Hless Hsorted E. unfold sortedIndex in Hsorted. rewrite Hless in Hsorted.
  apply StronglySorted_rev in Hsorted. unfold reverseItems in E.
  assert (Hin : forall y, In y (pre ++ x :: post) -> In y (items bt)).
  { intros y Hy. rewrite <- E in Hy. apply in_rev. exact Hy. }
  rewrite E in Hsorted.
  apply StronglySorted_app_inv in Hsorted. destruct Hsorted as (_ & Hs2 & H12).
  apply StronglySorted_inv in Hs2. destruct Hs2 as [_ Hx].
  rewrite Forall_forall in Hx.
  split; [apply Hin, in_or_app; right; left; reflexivity|]. split.
  - intros y Hy. split; [apply Hin, in_or_app; auto|].
    apply (H12 y x Hy). left. reflexivity.
  - intros z Hz Hxz. apply in_rev in Hz. rewrite E in Hz.
    apply in_app_or in Hz. destruct Hz as [Hz | [<- | Hz]]; auto.
    + pose proof (compareTableInfoItem_inv _ _ Hxz) as [_ H].
      destruct (H eq_refl) as [_ H']. specialize (H' eq_refl). lia.
    + specialize (Hx _ Hz). simpl in Hx.
      pose proof (compareTableInfoItem_inv _ _ Hxz) as [A1 A2].
      pose proof (compareTableInfoItem_inv _ _ Hx) as [B1 B2].
      pose proof (ltK_total _ TotalLt_string _ _ A1 B1) as Ed.
      destruct (A2 (eq_sym Ed)) as [A3 A4]. destruct (B2 Ed) as [B3 B4].
      assert (Ei : tii_tableID x = tii_tableID z) by lia.
      specialize (A4 Ei). specialize (B4 (eq_sym Ei)). lia.
Qed.

Lemma listIter_visible (d : Data) (V : Z) (filter : specialAttributeFilter)
      (s : listState) (pre post : list tableInfoItem) (x : tableInfoItem)
      (ti : model.TableInfo) :
  less (tableInfoResident d) = compareTableInfoItem ->
  sortedIndex (tableInfoResident d) ->
  (forall e, In e (items (tableInfoResident d)) -> tii_tableID e <> 0) ->
  reverseItems (tableInfoResident d) = pre ++ x :: post ->
  listInv d V filter s pre ->
  tii_schemaVersion x <= V ->
  negb (ls_lastTableID s =? 0) && (ls_lastTableID s =? tii_tableID x) = false ->
  tii_tomb x = false -> tii_tableInfo x = Some ti -> filter ti = true ->
  attributeVisible d V filter (tii_dbName x) ti.
Proof.
  intros Hless Hsorted Hids E (_ & _ & _ & Hlast) Hv Hdedup Htomb Hti Hf.
  destruct (reverse_split _ pre post x Hless Hsorted E) as (Hx & Hpre & Habove).
  exists x. repeat (split; [assumption || reflexivity|]).
  intros item' Hin' Hdb' Hid' Hv'.
  destruct (Z_le_gt_dec (tii_schemaVersion item') (tii_schemaVersion x)) as [|Hgt];
    [assumption|]. exfalso.
  assert (Hlt : compareTableInfoItem x item' = true)
    by (apply compareTableInfoItem_newer; auto; lia).
  pose proof (Habove _ Hin' Hlt) as Hin.
  destruct Hlast as [Hall | (y & Hy & Hly & Hbelow)].
  - specialize (Hall _ Hin). lia.
  - destruct (Hpre _ Hy) as [Hyin Hxy].
    pose proof (compareTableInfoItem_sandwich x y item' Hxy (Hbelow _ Hin Hv')
                  (eq_sym Hdb') (eq_sym Hid')) as Ei.
    rewrite Hly, Ei, Z.eqb_refl in Hdedup.
    destruct (Z.eqb_spec (tii_tableID x) 0) as [E0|]; [|discriminate].
    exact (Hids _ Hx E0).
Qed.

Lemma listIter_invariant (d : Data) (V : Z) (filter : specialAttributeFilter)
      (st : option listState) (pre post : list tableInfoItem) (x : tableInfoItem) :
  less (tableInfoResident d) = compareTableInfoItem ->
  sortedIndex (tableInfoResident d) ->
  (forall e, In e (items (tableInfoResident d)) -> tii_tableID e <> 0) ->
  reverseItems (tableInfoResident d) = pre ++ x :: post ->
  listInvOpt d V filter st pre ->
  listInvOpt d V filter (fst (listIter V filter st x)) (pre ++ [x]).
Proof.
  intros Hless Hsorted Hids E Hinv. destruct st as [s|]; [|exact I].
  assert (Hvis : forall ti,
             tii_schemaVersion x <= V ->
             negb (ls_lastTableID s =? 0) && (ls_lastTableID s =? tii_tableID x)
             = false ->
             tii_tomb x = false -> tii_tableInfo x = Some ti -> filter ti = true ->
             attributeVisible d V filter (tii_dbName x) ti).
  { intros ti. apply (listIter_visible d V filter s pre post x ti); auto. }
  destruct (reverse_split _ pre post x Hless Hsorted E) as (Hx & Hpre & _).
  destruct Hinv as (Hb & Hopen & Hcur & Hlast). unfold listIter.
  assert (Hopen' : forall c, (DBName (ls_res s) = c \/
                              exists y, In y pre /\ String.ltb (tii_dbName y) c = true) ->
                             DBName (ls_res s) = c \/
                             exists y, In y (pre ++ [x]) /\
                                       String.ltb (tii_dbName y) c = true).
  { intros c [H | (y & Hy & H)]; [left; exact H|].
    right. exists y. split; [apply in_or_app; auto | exact H]. }
  assert (Hcur' : forall c, (c = EmptyString \/
                             exists z, In z pre /\ tii_dbName z = c) ->
                            c = EmptyString \/
                            exists z, In z (pre ++ [x]) /\ tii_dbName z = c).
  { intros c [H | (z & Hz & H)]; [left; exact H|].
    right. exists z. split; [apply in_or_app; auto | exact H]. }
  assert (Hself : exists y, In y (pre ++ [x]) /\ tii_tableID x = tii_tableID y /\
                            forall z, In z (pre ++ [x]) -> tii_schemaVersion z <= V ->
                                      compareTableInfoItem y z = true \/ y = z).
  { exists x. split; [apply in_or_app; right; left; reflexivity|].
    split; [reflexivity|]. intros z Hz _. apply in_app_or in Hz.
    destruct Hz as [Hz | [<- | []]]; [left; apply Hpre; exact Hz | right; reflexivity]. }
  destruct (Z.gtb_spec (tii_schemaVersion x) V) as [Hgt | Hle]; simpl.
  { split; [exact Hb|]. split; [apply Hopen', Hopen|]. split; [apply Hcur', Hcur|].
    destruct Hlast as [Hall | (y & Hy & Hly & Hbelow)].
    - left. intros z Hz. apply in_app_or in Hz.
      destruct Hz as [Hz | [<- | []]]; [auto | lia].
    - right. exists y. split; [apply in_or_app; auto|]. split; [exact Hly|].
      intros z Hz Hvz. apply in_app_or in Hz.
      destruct Hz as [Hz | [<- | []]]; [auto | lia]. }
  destruct (negb (ls_lastTableID s =? 0) && (ls_lastTableID s =? tii_tableID x))
           eqn:Hdedup; simpl.
  { split; [exact Hb|]. split; [apply Hopen', Hopen|]. split; [apply Hcur', Hcur|].
    right. apply andb_prop in Hdedup. destruct Hdedup as [_ Hd].
    apply Z.eqb_eq in Hd. rewrite Hd. exact Hself. }
  destruct (tii_tomb x) eqn:Htomb; simpl.
  { split; [exact Hb|]. split; [apply Hopen', Hopen|]. split; [apply Hcur', Hcur|].
    right. exact Hself. }
  destruct (tii_tableInfo x) as [ti|] eqn:Hti; [|exact I].
  destruct (filter ti) eqn:Hf; simpl.
  2:{ split; [exact Hb|]. split; [apply Hopen', Hopen|]. split; [apply Hcur', Hcur|].
      right. exact Hself. }
  specialize (Hvis ti Hle eq_refl eq_refl eq_refl Hf).
  destruct (String.eqb_spec (ls_currDB s) EmptyString) as [Hempty | Hnonempty]; simpl.
  { split; [|split; [left; reflexivity|split; [|right; exact Hself]]].
    - intros bucket ti' Hbk Hti'. apply in_app_or in Hbk.
      destruct Hbk as [Hbk | [<- | []]].
      + apply (Hb bucket ti'); [apply in_or_app; auto | exact Hti'].
      + simpl in Hti'. destruct Hti' as [<- | []]. exact Hvis.
    - right. exists x. split; [apply in_or_app; right; left|]; reflexivity. }
  destruct (String.eqb_spec (ls_currDB s) (tii_dbName x)) as [Hsame | Hdiff]; simpl.
  { assert (Hname : DBName (ls_res s) = tii_dbName x).
    { destruct Hopen as [H | (y & Hy & H)]; [congruence|]. exfalso.
      destruct (Hpre _ Hy) as [_ Hxy]. apply compareTableInfoItem_inv in Hxy.
      rewrite Hsame in H. destruct Hxy as [Hxy _]. congruence. }
    split; [|split; [left; simpl; congruence|split; [apply Hcur', Hcur|right; exact Hself]]].
    intros bucket ti' Hbk Hti'. apply in_app_or in Hbk.
    destruct Hbk as [Hbk | [<- | []]].
    - apply (Hb bucket ti'); [apply in_or_app; auto | exact Hti'].
    - simpl in Hti'. simpl DBName. apply in_app_or in Hti'.
      destruct Hti' as [Hti' | [<- | []]].
      + apply (Hb (ls_res s) ti'); [apply in_or_app; right; left; reflexivity|].
        exact Hti'.
      + rewrite Hname. exact Hvis. }
  split; [|split; [|split; [apply Hcur', Hcur|right; exact Hself]]].
  - intros bucket ti' Hbk Hti'. apply in_app_or in Hbk.
    destruct Hbk as [Hbk | [<- | []]].
    + apply (Hb bucket ti'); [|exact Hti'].
      apply in_app_or in Hbk. apply in_or_app.
      destruct Hbk as [Hbk | [<- | []]]; [left; exact Hbk | right; left; reflexivity].
    + simpl in Hti'. destruct Hti' as [<- | []]. exact Hvis.
  - right. exists x. split; [apply in_or_app; right; left; reflexivity|].
    destruct Hcur as [Hc | (z & Hz & Hc)]; [congruence|].
    destruct (Hpre _ Hz) as [_ Hxz]. apply compareTableInfoItem_inv in Hxz.
    destruct Hxz as [Hzx _]. rewrite Hc in Hzx. simpl ls_currDB.
    destruct (String.ltb (tii_dbName x) (ls_currDB s)) eqn:El; [reflexivity|].
    exfalso. apply Hdiff. symmetry.
    apply (ltK_total _ TotalLt_string _ _ El Hzx).
Qed.

Lemma listIter_described (V : Z) (filter : specialAttributeFilter)
      (s : listState) (x : tableInfoItem) :
  (tii_tomb x = false -> tii_tableInfo x <> None) ->
  fst (listIter V filter (Some s) x) <> None.
Proof.
  intros Hx. unfold listIter.
  destruct (tii_schemaVersion x >? V); [discriminate|].
  destruct (negb (ls_lastTableID s =? 0) && (ls_lastTableID s =? tii_tableID x));
    [discriminate|].
  destruct (tii_tomb x); [discriminate|].
  destruct (tii_tableInfo x) as [ti|]; [|exfalso; apply Hx; reflexivity].
  destruct (negb (filter ti)); [discriminate|]. simpl.
  destruct (String.eqb (ls_currDB s) EmptyString); [discriminate|].
  destruct (String.eqb (ls_currDB s) (tii_dbName x)); discriminate.
Qed.

(** X21: over a sorted attribute index whose table ids are not zero, every
    table info that [ListTablesWithSpecialAttribute] lists in a bucket bears
    the attribute in the database of the bucket at the version of the
    snapshot; and the enumeration returns whenever every live entry of the
    index carries a descriptor. *)
Theorem X21_enumeration_lists_visible_tables_only :
  forall (is_ : infoschemaV2) (d : Data) (filter : specialAttributeFilter),
    less (tableInfoResident d) = compareTableInfoItem ->
    sortedIndex (tableInfoResident d) ->
    (forall e, In e (items (tableInfoResident d)) -> tii_tableID e <> 0) ->
    (forall ret bucket ti,
        ListTablesWithSpecialAttribute is_ d filter = Some ret ->
        In bucket ret -> In ti (TableInfos bucket) ->
        attributeVisible d (schemaMetaVersion is_) filter (DBName bucket) ti) /\
    (liveEntriesDescribed d ->
     exists ret, ListTablesWithSpecialAttribute is_ d filter = Some ret).
Proof.
  intros is_ d filter Hless Hsorted Hids. split.
  - intros ret bucket ti Hret Hbk Hti. unfold ListTablesWithSpecialAttribute in Hret.
    set (s0 := {| ls_ret := []; ls_currDB := EmptyString; ls_lastTableID := 0;
                  ls_res := {| DBName := EmptyString; TableInfos := [] |} |}) in Hret.
    destruct (walk_invariant (listIter (schemaMetaVersion is_) filter)
                (listInvOpt d (schemaMetaVersion is_) filter)
                (reverseItems (tableInfoResident d))
                (fun pre x post st E H =>
                   listIter_invariant d _ filter st pre post x
                                      Hless Hsorted Hids E H)
                (reverseItems (tableInfoResident d)) [] (Some s0) eq_refl)
      as [pre' Hinv].
    { split; [|split; [left; reflexivity|split; [left; reflexivity|]]].
      - intros b0 ti0 [<- | []] [].
      - left. intros z []. }
    unfold Reverse in Hret.
    destruct (walk _ (Some s0) _) as [s|]; [|discriminate].
    destruct Hinv as (Hb & _).
    destruct (0 <? Z.of_nat (List.length (TableInfos (ls_res s))));
      inversion Hret; subst ret; apply (Hb bucket ti); auto.
    apply in_or_app. left. exact Hbk.
  - intros Hlive. unfold ListTablesWithSpecialAttribute, Reverse.
    match goal with
    | |- context [walk ?f (Some ?s0) ?l] =>
        pose proof (walk_total f l
                      (fun s x Hx =>
                         listIter_described (schemaMetaVersion is_) filter s x
                           (Hlive x (proj2 (in_rev _ _) Hx))) s0) as Hw;
        destruct (walk f (Some s0) l) as [s|]; [|congruence]
    end.
    destruct (0 <? Z.of_nat (List.length (TableInfos (ls_res s))));
      eexists; reflexivity.
Qed.

Lemma X21_enumeration_lists_visible_tables_only_witness :
  attributeVisible fourTables 4 TTLAttribute "b" (sampleInfo 3 "t3" true).
Proof.
  assert (Hs : sortedIndex (tableInfoResident fourTables)).
  { vm_compute. repeat constructor. }
  apply (proj1 (X21_enumeration_lists_visible_tables_only
                  (sampleSnapshot 4) fourTables TTLAttribute eq_refl Hs
                  (fun e He =>
                     match He with
                     | or_introl E => ltac:(subst e; discriminate)
                     | or_intror (or_introl E) => ltac:(subst e; discriminate)
                     | or_intror (or_intror (or_introl E)) =>
                         ltac:(subst e; discriminate)
                     | or_intror (or_intror (or_intror (or_introl E))) =>
                         ltac:(subst e; discriminate)
                     | or_intror (or_intror (or_intror (or_intror F))) =>
                         match F with end
                     end))
               _ {| DBName := "b"; TableInfos := [sampleInfo 3 "t3" true] |}
               (sampleInfo 3 "t3" true) eq_refl).
  - simpl. auto.
  - simpl. auto.
Defined.

(** ** All schemas *)

Lemma walk_invariant_full {T S : Type} (iter : S -> T -> S * bool)
      (Inv : S -> list T -> Prop) (l : list T) :
  (forall st x, snd (iter st x) = true) ->
  (forall pre x post st, l = pre ++ x :: post -> Inv st pre ->
                         Inv (fst (iter st x)) (pre ++ [x])) ->
  forall post pre st,
    l = pre ++ post -> Inv st pre -> Inv (walk iter st post) l.
Proof.
  intros Hgo Hstep. induction post as [|x post IH]; intros pre st El Hinv; simpl.
  - rewrite El, app_nil_r. exact Hinv.
  - pose proof (Hstep pre x post st El Hinv) as H.
    pose proof (Hgo st x) as G.
    destruct (iter st x) as [s' c]. simpl in H, G. subst c.
    apply (IH (pre ++ [x])); auto. rewrite <- app_assoc. exact El.
Qed.

Lemma CIStr_eqb_eq (a b : model.CIStr) : CIStr_eqb a b = true <-> a = b.
Proof.
  unfold CIStr_eqb. rewrite andb_true_iff, !String.eqb_eq.
  destruct a, b; simpl. split; [intros [-> ->]; reflexivity|].
  intros H. inversion H. auto.
Qed.

Lemma compareSchemaItem_inv (a b : schemaItem) :
  compareSchemaItem a b = true ->
  String.ltb (si_Name b) (si_Name a) = false /\
  (si_Name a = si_Name b -> si_schemaVersion a < si_schemaVersion b).
Proof.
  unfold compareSchemaItem. intros H.
  destruct (String.ltb (si_Name a) (si_Name b)) eqn:Eab.
  - split.
    + destruct (String.ltb (si_Name b) (si_Name a)) eqn:Eba; auto.
      pose proof (ltK_trans _ TotalLt_string _ _ _ Eab Eba) as F.
      rewrite (ltK_irrefl _ TotalLt_string) in F. discriminate.
    + intros E. rewrite E, (ltK_irrefl _ TotalLt_string) in Eab. discriminate.
  - destruct (String.ltb (si_Name b) (si_Name a)) eqn:Eba; [discriminate|].
    split; [reflexivity|]. intros _. apply Z.ltb_lt. exact H.
Qed.

Lemma compareSchemaItem_newer (a b : schemaItem) :
  si_Name a = si_Name b -> si_schemaVersion a < si_schemaVersion b ->
  compareSchemaItem a b = true.
Proof.
  intros En Hv. unfold compareSchemaItem.
  rewrite En, (ltK_irrefl _ TotalLt_string). apply Z.ltb_lt. exact Hv.
Qed.

Lemma compareSchemaItem_sandwich (x y z : schemaItem) :
  compareSchemaItem x y = true ->
  compareSchemaItem y z = true \/ y = z ->
  si_Name x = si_Name z -> si_Name y = si_Name x.
Proof.
  intros Hxy [Hyz | ->] En; [|auto].
  apply compareSchemaItem_inv in Hxy, Hyz.
  destruct Hxy as [Hyx _], Hyz as [Hzy _]. rewrite <- En in Hzy.
  symmetry. apply (ltK_total _ TotalLt_string _ _ Hzy Hyx).
Qed.

Lemma reverse_split_schemas (bt : BTreeG schemaItem)
      (pre post : list schemaItem) (x : schemaItem) :
  less bt = compareSchemaItem -> sortedIndex bt ->
  reverseItems bt = pre ++ x :: post ->
  In x (items bt) /\
  (forall y, In y pre -> In y (items bt) /\ compareSchemaItem x y = true) /\
  (forall z, In z (items bt) -> compareSchemaItem x z = true -> In z pre).
Proof.
  intros Hless Hsorted E. unfold sortedIndex in Hsorted. rewrite Hless in Hsorted.
  apply StronglySorted_rev in Hsorted. unfold reverseItems in E.
  assert (Hin : forall y, In y (pre ++ x :: post) -> In y (items bt)).
  { intros y Hy. rewrite <- E in Hy. apply in_rev. exact Hy. }
  rewrite E in Hsorted.
  apply StronglySorted_app_inv in Hsorted. destruct Hsorted as (_ & Hs2 & H12).
  apply StronglySorted_inv in Hs2. destruct Hs2 as [_ Hx].
  rewrite Forall_forall in Hx.
  split; [apply Hin, in_or_app; right; left; reflexivity|]. split.
  - intros y Hy. split; [apply Hin, in_or_app; auto|].
    apply (H12 y x Hy). left. reflexivity.
  - intros z Hz Hxz. apply in_rev in Hz. rewrite E in Hz.
    apply in_app_or in Hz. destruct Hz as [Hz | [<- | Hz]]; auto.
    + pose proof (compareSchemaItem_inv _ _ Hxz) as [_ H].
      specialize (H eq_refl). lia.
    + specialize (Hx _ Hz). simpl in Hx.
      pose proof (compareSchemaItem_inv _ _ Hxz) as [A1 A2].
      pose proof (compareSchemaItem_inv _ _ Hx) as [B1 B2].
      pose proof (ltK_total _ TotalLt_string _ _ A1 B1) as En.
      specialize (A2 (eq_sym En)). specialize (B2 En). lia.
Qed.

Lemma allSchemasIter_continues (V : Z)
      (st : option model.DBInfo * list model.DBInfo) (x : schemaItem) :
  snd (allSchemasIter V st x) = true.
Proof.
  unfold allSchemasIter. destruct st as [[l|] acc];
    destruct (si_schemaVersion x >? V); auto;
    try destruct (CIStr_eqb _ _); auto; destruct (negb (si_tomb x)); auto.
Qed.

Lemma allSchemasIter_invariant (d : Data) (V : Z)
      (st : option model.DBInfo * list model.DBInfo)
      (pre post : list schemaItem) (x : schemaItem) :
  less (schemaMap d) = compareSchemaItem ->
  sortedIndex (schemaMap d) ->
  namesAgree d ->
  reverseItems (schemaMap d) = pre ++ x :: post ->
  allSchemasInv d V st pre ->
  allSchemasInv d V (fst (allSchemasIter V st x)) (pre ++ [x]).
Proof.
  intros Hless Hsorted Hnames E [Hacc Hlast].
  destruct (reverse_split_schemas _ pre post x Hless Hsorted E)
    as (Hx & Hpre & Habove).
  destruct st as [last acc]. simpl in Hacc, Hlast.
  (* the accumulator is right as long as [x] adds nothing to it *)
  assert (Hkeep : ~ liveLatest d V x ->
                  forall di, In di acc <->
                             exists item, In item (pre ++ [x]) /\
                                          liveLatest d V item /\
                                          si_dbInfo item = di).
  { intros Hnot di. rewrite Hacc. split.
    - intros (item & Hi & Hl & Hd). exists item.
      split; [apply in_or_app; auto | auto].
    - intros (item & Hi & Hl & Hd). apply in_app_or in Hi.
      destruct Hi as [Hi | [<- | []]]; [exists item; auto | contradiction]. }
  assert (Hself : si_schemaVersion x <= V ->
                  exists y, In y (pre ++ [x]) /\
                            model.dbiName (si_dbInfo x) = model.dbiName (si_dbInfo y) /\
                            si_schemaVersion y <= V /\
                            forall z, In z (pre ++ [x]) -> si_schemaVersion z <= V ->
                                      compareSchemaItem y z = true \/ y = z).
  { intros Hle. exists x. split; [apply in_or_app; right; left; reflexivity|].
    split; [reflexivity|]. split; [exact Hle|]. intros z Hz _.
    apply in_app_or in Hz.
    destruct Hz as [Hz | [<- | []]]; [left; apply Hpre; exact Hz | right; reflexivity]. }
  unfold allSchemasIter.
  destruct (Z.gtb_spec (si_schemaVersion x) V) as [Hgt | Hle].
  { split; simpl.
    - apply Hkeep. intros [(_ & _ & Hv & _) _]. lia.
    - destruct last as [l|].
      + destruct Hlast as (y & Hy & Hn & Hvy & Hbelow). exists y.
        split; [apply in_or_app; auto|]. split; [exact Hn|]. split; [exact Hvy|].
        intros z Hz Hvz. apply in_app_or in Hz.
        destruct Hz as [Hz | [<- | []]]; [auto | lia].
      + intros z Hz. apply in_app_or in Hz.
        destruct Hz as [Hz | [<- | []]]; [auto | lia]. }
  specialize (Hself Hle).
  (* when [x] is not skipped, it is the latest entry under its name *)
  assert (Hlatest :
            match last with
            | Some l => CIStr_eqb (model.dbiName l) (model.dbiName (si_dbInfo x))
                        = false
            | None => True
            end ->
            latestIn si_schemaVersion (items (schemaMap d))
                     (schemaNamed (si_Name x)) V x).
  { intros Hgo. split; [exact Hx|]. split; [apply String.eqb_refl|].
    split; [exact Hle|]. intros e' He' Hm' Hv'. apply String.eqb_eq in Hm'.
    destruct (Z_le_gt_dec (si_schemaVersion e') (si_schemaVersion x)) as [|Hgt];
      [assumption|]. exfalso.
    assert (Hlt : compareSchemaItem x e' = true)
      by (apply compareSchemaItem_newer; auto; lia).
    pose proof (Habove _ He' Hlt) as Hin.
    destruct last as [l|].
    - destruct Hlast as (y & Hy & Hn & _ & Hbelow).
      destruct (Hpre _ Hy) as [Hyin Hxy].
      pose proof (compareSchemaItem_sandwich x y e' Hxy (Hbelow _ Hin Hv')
                    (eq_sym Hm')) as En.
      pose proof (Hnames y x Hyin Hx En) as Hsame.
      assert (F : CIStr_eqb (model.dbiName l) (model.dbiName (si_dbInfo x)) = true)
        by (apply CIStr_eqb_eq; congruence).
      congruence.
    - specialize (Hlast _ Hin). lia. }
  assert (Hadd : latestIn si_schemaVersion (items (schemaMap d))
                          (schemaNamed (si_Name x)) V x ->
                 allSchemasInv d V
                   (fst (if negb (si_tomb x)
                         then ((Some (si_dbInfo x), acc ++ [si_dbInfo x]), true)
                         else ((Some (si_dbInfo x), acc), true)))
                   (pre ++ [x])).
  { intros Hl. destruct (si_tomb x) eqn:Htomb; simpl; split; simpl.
    - apply Hkeep. intros [_ F]. congruence.
    - exact Hself.
    - intros di. rewrite in_app_iff, Hacc. split.
      + intros [(item & Hi & Hli & Hd) | [<- | []]].
        * exists item. split; [apply in_or_app; auto | auto].
        * exists x. split; [apply in_or_app; right; left; reflexivity|].
          split; [split; assumption | reflexivity].
      + intros (item & Hi & Hli & Hd). apply in_app_or in Hi.
        destruct Hi as [Hi | [<- | []]]; [left; exists item; auto|].
        right. left. exact Hd.
    - exact Hself. }
  destruct last as [l|].
  - destruct (CIStr_eqb (model.dbiName l) (model.dbiName (si_dbInfo x))) eqn:Hskip.
    + split; simpl.
      * apply Hkeep. intros [(_ & _ & _ & Hmax) _].
        destruct Hlast as (y & Hy & Hn & Hvy & _).
        destruct (Hpre _ Hy) as [Hyin Hxy].
        apply CIStr_eqb_eq in Hskip.
        assert (En : si_Name x = si_Name y) by (unfold si_Name; congruence).
        apply compareSchemaItem_inv in Hxy. destruct Hxy as [_ Hxy].
        specialize (Hxy En).
        assert (si_schemaVersion y <= si_schemaVersion x); [|lia].
        apply Hmax; auto. unfold schemaNamed. apply String.eqb_eq. congruence.
      * apply CIStr_eqb_eq in Hskip. rewrite Hskip. exact Hself.
    + apply Hadd, Hlatest. reflexivity.
  - apply Hadd, Hlatest. exact I.
Qed.

Lemma allSchemas_versioned (is_ : infoschemaV2) (d : Data) (di : model.DBInfo) :
  less (schemaMap d) = compareSchemaItem ->
  sortedIndex (schemaMap d) ->
  namesAgree d ->
  In di (snd (Reverse (schemaMap d) (allSchemasIter (schemaMetaVersion is_))
                      (None, []))) <->
  exists item, liveLatest d (schemaMetaVersion is_) item /\ si_dbInfo item = di.
Proof.
  intros Hless Hsorted Hnames.
  pose proof (walk_invariant_full (allSchemasIter (schemaMetaVersion is_))
                (allSchemasInv d (schemaMetaVersion is_))
                (reverseItems (schemaMap d))
                (allSchemasIter_continues (schemaMetaVersion is_))
                (fun pre x post st E H =>
                   allSchemasIter_invariant d _ st pre post x
                                            Hless Hsorted Hnames E H)
                (reverseItems (schemaMap d)) [] (None, []) eq_refl) as Hinv.
  destruct Hinv as [Hacc _].
  { split; simpl.
    - intros di0. split; [intros [] | intros (item & [] & _)].
    - intros z []. }
  unfold Reverse. rewrite Hacc. split.
  - intros (item & _ & Hl & Hd). exists item. auto.
  - intros (item & Hl & Hd). exists item. split; [|auto].
    unfold reverseItems. apply in_rev. rewrite rev_involutive.
    destruct Hl as [(Hin & _) _]. exact Hin.
Qed.

(** X22: when the name-keyed schema index is sorted and the entries under
    one lower-case name carry one name, [AllSchemas] lists a descriptor of an
    ordinary name exactly when [SchemaByName] answers with it for its name,
    or when the registry of special databases holds it; and every ordinary
    database that [SchemaExists] reports has its name in [AllSchemaNames]. *)
Theorem X22_AllSchemas_agrees_with_SchemaByName :
  forall (env : Env) (is_ : infoschemaV2) (d : Data),
    wfIndex compareSchemaItem si_schemaVersion (schemaMap d) ->
    namesAgree d ->
    (forall di,
        IsSpecialDB env (model.L (model.dbiName di)) = false ->
        (In di (AllSchemas is_ d) <->
         SchemaByName env is_ d (model.dbiName di) = (Some di, true) \/
         In di (map (fun kv => st_dbInfo (snd kv)) (specials d)))) /\
    (forall schema,
        IsSpecialDB env (model.L schema) = false ->
        SchemaExists env is_ d schema = true ->
        exists name, In name (AllSchemaNames is_ d) /\
                     model.L name = model.L schema).
Proof.
  intros env is_ d Hwf Hnames.
  assert (Hby : forall schema r,
             IsSpecialDB env (model.L schema) = false ->
             picks si_schemaVersion (items (schemaMap d))
                   (schemaNamed (model.L schema)) (schemaMetaVersion is_) r ->
             SchemaByName env is_ d schema = answerSchema r).
  { intros schema r Hsp. apply SchemaByName_picks; assumption. }
  destruct Hwf as (Hless & Hsorted & Hmax).
  assert (Hfound : forall schema o,
             IsSpecialDB env (model.L schema) = false ->
             SchemaByName env is_ d schema = (o, true) ->
             exists item, liveLatest d (schemaMetaVersion is_) item /\
                          o = Some (si_dbInfo item) /\
                          si_Name item = model.L schema).
  { intros schema o Hsp H.
    destruct (picks_total si_schemaVersion (items (schemaMap d))
                (schemaNamed (model.L schema)) (schemaMetaVersion is_)) as [r Hr].
    rewrite (Hby schema r Hsp Hr) in H.
    destruct r as [item|]; simpl in H; [|discriminate].
    destruct (si_tomb item) eqn:Htomb; [discriminate|].
    inversion H as [Hd]. exists item.
    assert (En : si_Name item = model.L schema).
    { destruct Hr as (_ & Hm & _). apply String.eqb_eq in Hm. exact Hm. }
    split; [|split; [reflexivity | exact En]].
    split; [|exact Htomb]. rewrite En. exact Hr. }
  split.
  - intros di Hsp. unfold AllSchemas, allSchemas. rewrite in_app_iff.
    rewrite (allSchemas_versioned is_ d di Hless Hsorted Hnames).
    split.
    + intros [(item & [Hl Htomb] & Hd) | H]; [left | right; exact H].
      rewrite (Hby _ (Some item) Hsp).
      * simpl. rewrite Htomb, Hd. reflexivity.
      * simpl. unfold si_Name in Hl. rewrite Hd in Hl. exact Hl.
    + intros [H | H]; [left | right; exact H].
      destruct (Hfound _ _ Hsp H) as (item & Hl & Ho & _).
      exists item. split; [exact Hl | congruence].
  - intros schema Hsp Hex. unfold SchemaExists in Hex.
    destruct (SchemaByName env is_ d schema) as [o ok] eqn:Hs. simpl in Hex.
    subst ok. destruct (Hfound _ _ Hsp Hs) as (item & Hl & _ & En).
    exists (model.dbiName (si_dbInfo item)). split; [|exact En].
    unfold AllSchemaNames, allSchemas. apply in_map. apply in_or_app. left.
    apply (allSchemas_versioned is_ d _ Hless Hsorted Hnames).
    exists item. auto.
Qed.

Lemma X22_AllSchemas_agrees_with_SchemaByName_witness :
  In sampleDB (AllSchemas (sampleSnapshot 3) (addDB NewData 1 sampleDB)).
Proof.
  assert (Hwf : wfIndex compareSchemaItem si_schemaVersion
                        (schemaMap (addDB NewData 1 sampleDB))).
  { split; [reflexivity|]. split; [vm_compute; repeat constructor|].
    simpl. repeat constructor. unfold MaxInt64. simpl. lia. }
  assert (Hnames : namesAgree (addDB NewData 1 sampleDB)).
  { intros a b [<- | []] [<- | []] _. reflexivity. }
  apply (proj1 (X22_AllSchemas_agrees_with_SchemaByName
                  sampleEnv (sampleSnapshot 3) (addDB NewData 1 sampleDB)
                  Hwf Hnames)
               sampleDB eq_refl).
  left. reflexivity.
Defined.
